(** * Subtitle Loop: transcript queries and the A-B loop controller

    A shallow embedding of [src/content/transcript.ts] (timestamp parsing and
    formatting, segment lookup, range text) and of the [LoopController] class
    of [src/content/player.ts], with the properties of the specification
    stated and proved over it.

    Conventions of the embedding.
    - A JavaScript [number] that holds a time is a rational ([Q]); the
      integer-valued results of [parseInt], [Math.floor] and [%] are in [Z].
      The arithmetic of the timestamp functions is that of doubles: a
      product, a sum, a quotient or a parsed integer is the nearest double
      ([toNumber], [numberOf]), which is the exact result for integers below
      [2^53] in size.  [toString] writes the decimal digits of an integer,
      as the code does up to [2^53].
      [NaN] is [None] where the source can produce it ([parseInt]) and the
      [Infinity] sentinel of [findSegmentAtTime] is [None] as well.  Other
      non-finite numbers are outside the model.
    - A JavaScript [string] is a [string] of 8-bit code units.
    - Methods of the controller run in a state monad over the controller's
      fields, the host page (video element and interval timers) and a trace
      of the observable calls (console, seek, listener, timers). *)

From Stdlib Require Import ZArith QArith Qround Qabs Qpower List String Ascii Bool Lia Lqa Arith.
Import ListNotations.

Local Open Scope Z_scope.

(** ** JavaScript primitives used by the sources *)

Module JS.

(** White space of [String.prototype.trim] and of [parseInt]'s prefix skip,
    restricted to code units below 256: TAB, LF, VT, FF, CR, SP, NBSP. *)
Definition isWhiteSpace (c : ascii) : bool :=
  let n := nat_of_ascii c in
  ((9 <=? n)%nat && (n <=? 13)%nat) || (n =? 32)%nat || (n =? 160)%nat.

Definition isDigit (c : ascii) : bool :=
  let n := nat_of_ascii c in (48 <=? n)%nat && (n <=? 57)%nat.

Definition digitValue (c : ascii) : Z := Z.of_nat (nat_of_ascii c) - 48.

Definition digitChar (d : Z) : ascii := ascii_of_nat (48 + Z.to_nat d).

Fixpoint trimStart (s : string) : string :=
  match s with
  | EmptyString => EmptyString
  | String c r => if isWhiteSpace c then trimStart r else s
  end.

Fixpoint trimEnd (s : string) : string :=
  match s with
  | EmptyString => EmptyString
  | String c r =>
      match trimEnd r with
      | EmptyString => if isWhiteSpace c then EmptyString else String c EmptyString
      | r' => String c r'
      end
  end.

(** [s.trim()] *)
Definition trim (s : string) : string := trimEnd (trimStart s).

(** [s.split(sep)] for a one-character separator; [''.split(':')] is [['']]. *)
Fixpoint split (sep : ascii) (s : string) : list string :=
  match s with
  | EmptyString => [EmptyString]
  | String c r =>
      if Ascii.eqb c sep then EmptyString :: split sep r
      else match split sep r with
           | h :: t => String c h :: t
           | [] => [String c EmptyString]
           end
  end.

(** [a.join(sep)] on an array of strings. *)
Fixpoint join (sep : string) (l : list string) : string :=
  match l with
  | [] => EmptyString
  | [x] => x
  | x :: rest => (x ++ sep ++ join sep rest)%string
  end.

(** The longest prefix of decimal digits, as digit values. *)
Fixpoint digitsPrefix (s : string) : list Z :=
  match s with
  | EmptyString => []
  | String c r => if isDigit c then digitValue c :: digitsPrefix r else []
  end.

Definition digitsValue (ds : list Z) : Z :=
  fold_left (fun acc d => acc * 10 + d) ds 0.

(** The integer that [parseInt(s, 10)] reads: leading white space is
    skipped, one sign is accepted, the longest run of decimal digits is read
    and whatever follows is ignored; no digit at all gives [NaN] ([None]).
    The number returned is the Number value for this integer, see
    [parseInt]. *)
Definition parseInt10 (s : string) : option Z :=
  let s1 := trimStart s in
  let '(sign, s2) :=
    match s1 with
    | String "-"%char r => (-1, r)
    | String "+"%char r => (1, r)
    | _ => (1, s1)
    end in
  match digitsPrefix s2 with
  | [] => None
  | ds => Some (sign * digitsValue ds)
  end.

(** ** Numbers

    A [number] is a double: a value with 53 significant bits, the unit in its
    last place no smaller than [2^-1074].  The result of an operation is the
    nearest such value, the one with an even last bit of two equally near.
    Results of size [2^1024] and more, [Infinity] in the code, are left
    out. *)

(** [floor (log2 q)] for a positive rational. *)
Definition floorLog2 (q : Q) : Z :=
  let e := Z.log2 (Qnum q) - Z.log2 (Zpos (Qden q)) in
  if Qle_bool (2 ^ e) q then e else e - 1.

(** The integer nearest to [q], the even one of the two when [q] is half
    way. *)
Definition roundHalfEven (q : Q) : Z :=
  let f := Qfloor q in
  match (q - inject_Z f ?= 1 # 2)%Q with
  | Lt => f
  | Gt => f + 1
  | Eq => if Z.even f then f else f + 1
  end.

(** The Number value for a real number. *)
Definition toNumber (q : Q) : Q :=
  if Qeq_bool q 0 then 0%Q
  else
    let u := (2 ^ Z.max (floorLog2 (Qabs q) - 52) (-1074))%Q in
    (inject_Z (roundHalfEven (q / u)) * u)%Q.

(** The Number value for an integer, itself an integer. *)
Definition numberOf (z : Z) : Z := Qfloor (toNumber (inject_Z z)).

(** [parseInt(s, 10)] *)
Definition parseInt (s : string) : option Z := option_map numberOf (parseInt10 s).

(** [isNaN] on a parsed number. *)
Definition isNaN (x : option Z) : bool :=
  match x with None => true | Some _ => false end.

(** Decimal digits of a non-negative integer, most significant first; the
    fuel bounds the number of digits. *)
Fixpoint toDigits (fuel : nat) (n : Z) (acc : string) : string :=
  match fuel with
  | O => acc
  | S f =>
      let acc' := String (digitChar (n mod 10)) acc in
      if n / 10 =? 0 then acc' else toDigits f (n / 10) acc'
  end.

(** [n.toString()] for an integer-valued number up to [2^53] in size: its
    decimal digits.  (Past [2^53] the code writes the fewest digits that read
    back as the same double, and an exponent from [1e21] on.) *)
Definition toString (n : Z) : string :=
  if n <? 0
  then String "-"%char (toDigits (S (Z.to_nat (Z.log2 (- n)))) (- n) EmptyString)
  else toDigits (S (Z.to_nat (Z.log2 n))) n EmptyString.

(** [count] code units cycled from [pad], as [padStart] builds its filler. *)
Fixpoint filler (count : nat) (pad cur : string) : string :=
  match count with
  | O => EmptyString
  | S k =>
      match cur with
      | String c r => String c (filler k pad r)
      | EmptyString =>
          match pad with
          | String c r => String c (filler k pad r)
          | EmptyString => EmptyString
          end
      end
  end.

(** [s.padStart(target, pad)] *)
Definition padStart (s : string) (target : nat) (pad : string) : string :=
  if (target <=? String.length s)%nat then s
  else (filler (target - String.length s) pad pad ++ s)%string.

(** [Math.min] and [Math.max] on finite numbers. *)
Definition Math_min (a b : Q) : Q := if Qle_bool a b then a else b.
Definition Math_max (a b : Q) : Q := if Qle_bool a b then b else a.

End JS.

(** ** [src/content/transcript.ts] *)

Module Transcript.
Import JS.

(** [TranscriptSegment] of [src/types]; the DOM element is kept as an opaque
    node handle. *)
Record TranscriptSegment : Type := mkSegment {
  index : Z;
  startTime : Q;
  text : string;
  element : nat
}.

(** [parseTimestamp] together with what it writes to the console: [true]
    when [console.warn('Invalid timestamp')] was called. *)
Definition parseTimestampLog (timeStr : string) : Z * bool :=
  let cleaned := trim timeStr in
  let parts := map parseInt (split ":"%char cleaned) in
  if existsb isNaN parts then (0, true)
  else
    match parts with
    | [Some m; Some s] => (numberOf (numberOf (m * 60) + s), false)
    | [Some h; Some m; Some s] =>
        (numberOf (numberOf (numberOf (h * 3600) + numberOf (m * 60)) + s), false)
    | _ => (0, false)
    end.

Definition parseTimestamp (timeStr : string) : Z := fst (parseTimestampLog timeStr).

Definition formatTimestamp (seconds : Q) : string :=
  let totalSeconds := Qfloor seconds in
  let hours := Qfloor (toNumber (inject_Z totalSeconds / 3600)) in
  let minutes := Qfloor (toNumber (inject_Z (Z.rem totalSeconds 3600) / 60)) in
  let secs := Z.rem totalSeconds 60 in
  if 0 <? hours
  then (toString hours ++ ":" ++ padStart (toString minutes) 2 "0"
          ++ ":" ++ padStart (toString secs) 2 "0")%string
  else (toString minutes ++ ":" ++ padStart (toString secs) 2 "0")%string.

(** [segments[i]] with [undefined] as [None]. *)
Definition at_index (segments : list TranscriptSegment) (i : nat)
  : option TranscriptSegment := nth_error segments i.

(** The [for] loop of [findSegmentAtTime], entered at index [i] with
    [remaining = segments.length - i] iterations left. *)
Fixpoint findSegmentLoop (segments : list TranscriptSegment) (currentTime : Q)
    (i remaining : nat) : option TranscriptSegment :=
  match remaining with
  | O => None
  | S k =>
      match at_index segments i with
      | None => None
      | Some segment =>
          let nextSegment := at_index segments (i + 1) in
          (* nextSegment?.startTime ?? Infinity *)
          let segmentEnd := option_map startTime nextSegment in
          if Qle_bool (startTime segment) currentTime
             && match segmentEnd with
                | Some e => negb (Qle_bool e currentTime)
                | None => true
                end
          then Some segment
          else findSegmentLoop segments currentTime (i + 1) k
      end
  end.

Definition findSegmentAtTime (segments : list TranscriptSegment) (currentTime : Q)
  : option TranscriptSegment :=
  findSegmentLoop segments currentTime 0 (List.length segments).

Definition getTextForRange (segments : list TranscriptSegment)
    (startTime' endTime' : Q) : string :=
  let relevantSegments :=
    filter (fun seg => Qle_bool startTime' (startTime seg)
                       && negb (Qle_bool endTime' (startTime seg))) segments in
  join " " (map text relevantSegments).

End Transcript.

(** ** [LoopState] of [src/types] *)

Module LoopState.
Record t : Type := make {
  isActive : bool;
  startTime : option Q;
  endTime : option Q
}.
End LoopState.

(** ** [src/content/player.ts]: media primitives and [LoopController] *)

Module Player.
Import JS.

(** The registered listener is identified by a handle. *)
Definition listener := nat.

Inductive message : Type :=
| VideoPlayerNotFound
| CannotSetEndWithoutStart
| LoopActivated (s e : Q)
| LoopCleared.

Inductive level : Type := Log | Warn | Error.

(** Calls that leave the controller, in the order they are made. *)
Inductive call : Type :=
| Console (l : level) (m : message)
| SeekTo (seconds : Q)
| StateChange (f : listener) (st : LoopState.t)
| SetInterval (id : nat) (ms : Z)
| ClearInterval (id : nat).

(** The private fields of the class. *)
Record LoopController : Type := mkController {
  startTime : option Q;
  endTime : option Q;
  isActive : bool;
  intervalId : option nat;
  onStateChange : option listener
}.

(** The page: the video element's [currentTime] when the element exists,
    the interval timers that are live, and the next timer handle. *)
Record Host : Type := mkHost {
  video : option Q;
  timers : list nat;
  nextTimer : nat
}.

Record World : Type := mkWorld {
  this : LoopController;
  host : Host;
  trace : list call
}.

Definition M (A : Type) : Type := World -> A * World.

Definition ret {A} (a : A) : M A := fun w => (a, w).
Definition bind {A B} (c : M A) (k : A -> M B) : M B :=
  fun w => let '(a, w') := c w in k a w'.

Notation "x <- c ;; k" := (bind c (fun x => k))
  (at level 61, c at next level, right associativity).
Notation "c ;; k" := (bind c (fun _ => k))
  (at level 61, right associativity).

Definition getThis : M LoopController := fun w => (this w, w).
Definition setThis (f : LoopController -> LoopController) : M unit :=
  fun w => (tt, mkWorld (f (this w)) (host w) (trace w)).
Definition getHost : M Host := fun w => (host w, w).
Definition setHost (f : Host -> Host) : M unit :=
  fun w => (tt, mkWorld (this w) (f (host w)) (trace w)).
Definition emit (c : call) : M unit :=
  fun w => (tt, mkWorld (this w) (host w) (trace w ++ [c])).

Definition set_startTime (v : option Q) (c : LoopController) :=
  mkController v (endTime c) (isActive c) (intervalId c) (onStateChange c).
Definition set_endTime (v : option Q) (c : LoopController) :=
  mkController (startTime c) v (isActive c) (intervalId c) (onStateChange c).
Definition set_isActive (v : bool) (c : LoopController) :=
  mkController (startTime c) (endTime c) v (intervalId c) (onStateChange c).
Definition set_intervalId (v : option nat) (c : LoopController) :=
  mkController (startTime c) (endTime c) (isActive c) v (onStateChange c).
Definition set_onStateChange (v : option listener) (c : LoopController) :=
  mkController (startTime c) (endTime c) (isActive c) (intervalId c) v.

(** [PANEL_CONFIG.loopCheckInterval] of [src/content/constants.ts] *)
Definition loopCheckInterval : Z := 100.

(** *** Host primitives *)

Definition getVideoPlayer : M (option Q) :=
  h <- getHost ;; ret (video h).

(** [window.setInterval]: a fresh handle is returned and the timer is live. *)
Definition setInterval (ms : Z) : M nat :=
  h <- getHost ;;
  let id := nextTimer h in
  setHost (fun h => mkHost (video h) (timers h ++ [id]) (S id)) ;;
  emit (SetInterval id ms) ;;
  ret id.

Definition clearInterval (id : nat) : M unit :=
  setHost (fun h => mkHost (video h)
                      (filter (fun i => negb (Nat.eqb i id)) (timers h))
                      (nextTimer h)) ;;
  emit (ClearInterval id).

Definition seekTo (seconds : Q) : M bool :=
  emit (SeekTo seconds) ;;
  v <- getVideoPlayer ;;
  match v with
  | None => emit (Console Error VideoPlayerNotFound) ;; ret false
  | Some _ =>
      setHost (fun h => mkHost (Some seconds) (timers h) (nextTimer h)) ;;
      ret true
  end.

Definition getCurrentTime : M Q :=
  v <- getVideoPlayer ;;
  ret match v with Some t => t | None => 0%Q end.

(** *** The class *)

(** [new LoopController(onStateChange)] *)
Definition new (cb : option listener) : LoopController :=
  mkController None None false None cb.

Definition getState : M LoopState.t :=
  c <- getThis ;;
  ret (LoopState.make (isActive c) (startTime c) (endTime c)).

Definition notifyStateChange : M unit :=
  c <- getThis ;;
  match onStateChange c with
  | Some f => st <- getState ;; emit (StateChange f st)
  | None => ret tt
  end.

(** The arrow function handed to [setInterval] in [startMonitoring]. *)
Definition monitorTick : M unit :=
  c <- getThis ;;
  match isActive c, startTime c, endTime c with
  | true, Some s, Some e =>
      currentTime <- getCurrentTime ;;
      if Qle_bool e currentTime
      then _ <- seekTo s ;; ret tt
      else ret tt
  | _, _, _ => ret tt
  end.

Definition startMonitoring : M unit :=
  c <- getThis ;;
  match intervalId c with
  | Some _ => ret tt
  | None =>
      id <- setInterval loopCheckInterval ;;
      setThis (set_intervalId (Some id))
  end.

Definition stopMonitoring : M unit :=
  c <- getThis ;;
  match intervalId c with
  | Some id => clearInterval id ;; setThis (set_intervalId None)
  | None => ret tt
  end.

Definition setStart (time : Q) : M unit :=
  setThis (set_startTime (Some time)) ;;
  notifyStateChange.

Definition activate : M unit :=
  c <- getThis ;;
  match startTime c, endTime c with
  | Some s, Some e =>
      setThis (set_isActive true) ;;
      startMonitoring ;;
      _ <- seekTo s ;;
      notifyStateChange ;;
      emit (Console Log (LoopActivated s e))
  | _, _ => ret tt
  end.

Definition setEnd (time : Q) : M unit :=
  c <- getThis ;;
  match startTime c with
  | None => emit (Console Warn CannotSetEndWithoutStart)
  | Some st =>
      let start := Math_min st time in
      let end' := Math_max st time in
      setThis (set_startTime (Some start)) ;;
      setThis (set_endTime (Some end')) ;;
      activate
  end.

Definition setLoop (start end' : Q) : M unit :=
  setThis (set_startTime (Some (Math_min start end'))) ;;
  setThis (set_endTime (Some (Math_max start end'))) ;;
  activate.

Definition clear : M unit :=
  stopMonitoring ;;
  setThis (set_startTime None) ;;
  setThis (set_endTime None) ;;
  setThis (set_isActive false) ;;
  notifyStateChange ;;
  emit (Console Log LoopCleared).

Definition isSettingStart : M bool :=
  c <- getThis ;;
  ret (match startTime c, endTime c with
       | Some _, None => negb (isActive c)
       | _, _ => false
       end).

Definition destroy : M unit :=
  stopMonitoring ;;
  setThis (set_onStateChange None).

(** *** Runs of the controller inside the page *)

(** What can happen to a controller: a call of one of its public methods,
    a live interval timer firing, or the page changing the video element
    (playback advancing, a seek by the user, the element appearing or
    disappearing). *)
Inductive action : Type :=
| SetStart (time : Q)
| SetEnd (time : Q)
| SetLoop (start end' : Q)
| Clear
| Destroy
| TimerFires (id : nat)
| Playback (v : option Q).

Definition timerFires (id : nat) : M unit :=
  h <- getHost ;;
  if existsb (Nat.eqb id) (timers h) then monitorTick else ret tt.

Definition exec (a : action) : M unit :=
  match a with
  | SetStart t => setStart t
  | SetEnd t => setEnd t
  | SetLoop s e => setLoop s e
  | Clear => clear
  | Destroy => destroy
  | TimerFires id => timerFires id
  | Playback v => setHost (fun h => mkHost v (timers h) (nextTimer h))
  end.

Definition step (w : World) (a : action) : World := snd (exec a w).

Definition run (acts : list action) (w : World) : World := fold_left step acts w.

(** A fresh controller in a page with no interval timer of its own yet. *)
Definition initial (cb : option listener) (v : option Q) : World :=
  mkWorld (new cb) (mkHost v [] 1) [].

Definition snapshot (w : World) : LoopState.t := fst (getState w).

(** The [seekTo] targets among a list of calls. *)
Definition seeks (cs : list call) : list Q :=
  flat_map (fun c => match c with SeekTo t => [t] | _ => [] end) cs.

(** The snapshots handed to the listener among a list of calls. *)
Definition notifications (cs : list call) : list (listener * LoopState.t) :=
  flat_map (fun c => match c with StateChange f st => [(f, st)] | _ => [] end) cs.

End Player.

(** * Vocabulary of the statements *)

Section TranscriptVocabulary.
Import JS Transcript.

(** The string that spells a list of digit values. *)
Fixpoint spell (ds : list Z) : string :=
  match ds with
  | [] => EmptyString
  | d :: r => String (digitChar d) (spell r)
  end.

Definition isDigitValue (d : Z) : Prop := 0 <= d <= 9.

(** Strings without the separator, and strings without white space. *)
Fixpoint allChars (p : ascii -> bool) (s : string) : bool :=
  match s with
  | EmptyString => true
  | String c r => p c && allChars p r
  end.

(** A value below one hundred written with exactly two digits. *)
Definition twoDigits (d : Z) : string :=
  String (digitChar (d / 10)) (String (digitChar (d mod 10)) EmptyString).

Definition firstChar (s : string) : option ascii :=
  match s with
  | EmptyString => None
  | String c _ => Some c
  end.

Local Open Scope Q_scope.

(** Start times strictly ascending along the list. *)
Fixpoint ascending (l : list TranscriptSegment) : Prop :=
  match l with
  | a :: (b :: _) as rest => startTime a < startTime b /\ ascending rest
  | _ => True
  end.

(** The loop of [findSegmentAtTime] read on the part of the array that is
    still to visit. *)
Fixpoint scan (l : list TranscriptSegment) (t : Q) : option TranscriptSegment :=
  match l with
  | [] => None
  | s :: rest =>
      if Qle_bool (startTime s) t
         && match rest with
            | s' :: _ => negb (Qle_bool (startTime s') t)
            | [] => true
            end
      then Some s
      else scan rest t
  end.

Definition abc : list TranscriptSegment :=
  [mkSegment 0 0 "a" 0; mkSegment 1 10 "b" 1; mkSegment 2 20 "c" 2].

(** [sel] is what remains of [l] when exactly the elements satisfying [P]
    are kept, in the order of [l]. *)
Inductive keeps {A} (P : A -> Prop) : list A -> list A -> Prop :=
| keeps_nil : keeps P [] []
| keeps_take x l sel : P x -> keeps P l sel -> keeps P (x :: l) (x :: sel)
| keeps_drop x l sel : ~ P x -> keeps P l sel -> keeps P (x :: l) sel.

(** The words of the specification: the texts one after the other, a single
    space before every text but the first. *)
Definition spaced (texts : list string) : string :=
  match texts with
  | [] => EmptyString
  | x :: rest => (x ++ concat "" (map (fun y => " " ++ y) rest))%string
  end.

Definition inRange (startTime' endTime' : Q) (seg : TranscriptSegment) : Prop :=
  startTime' <= startTime seg /\ startTime seg < endTime'.

Definition inRangeb (startTime' endTime' : Q) (seg : TranscriptSegment) : bool :=
  Qle_bool startTime' (startTime seg) && negb (Qle_bool endTime' (startTime seg)).

End TranscriptVocabulary.

Section ControllerVocabulary.
Import JS Player.

Local Open Scope Q_scope.

(** The live timers are exactly the one the controller holds, if any. *)
Definition ownTimer (w : World) : Prop :=
  timers (host w) = match intervalId (this w) with Some id => [id] | None => [] end.

(** No end bound without a start bound, and active exactly with an end
    bound. *)
Definition boundsShape (c : LoopController) : Prop :=
  match startTime c, endTime c, isActive c with
  | _, None, false => True
  | Some _, Some _, true => True
  | _, _, _ => False
  end.

(** What the page reports as the playback position. *)
Definition position (w : World) : Q :=
  match video (host w) with Some t => t | None => 0 end.

(** The target of the seek a tick is about to make, if it makes one. *)
Definition due (w : World) : option Q :=
  match isActive (this w), startTime (this w), endTime (this w) with
  | true, Some s, Some e => if Qle_bool e (position w) then Some s else None
  | _, _, _ => None
  end.

(** The calls made by one tick. *)
Definition tickCalls (w : World) : list call :=
  match due w with
  | Some s => SeekTo s :: match video (host w) with
                          | Some _ => []
                          | None => [Console Error VideoPlayerNotFound]
                          end
  | None => []
  end.

Definition isSome {A} (o : option A) : bool :=
  match o with Some _ => true | None => false end.

(** [setStart] is only called while no end bound is set. *)
Fixpoint startsFresh (acts : list action) (w : World) : Prop :=
  match acts with
  | [] => True
  | a :: rest =>
      match a with
      | SetStart _ => endTime (this w) = None
      | _ => True
      end /\ startsFresh rest (step w a)
  end.

Definition ordered (c : LoopController) : Prop :=
  match startTime c, endTime c with
  | Some s, Some e => s <= e
  | _, _ => True
  end.

(** Nothing but timers firing and the page moving the video. *)
Definition passive (a : action) : bool :=
  match a with
  | TimerFires _ | Playback _ => true
  | _ => false
  end.

(** The calls of the public interface that change the state. *)
Definition mutates (a : action) (w : World) : bool :=
  match a with
  | SetStart _ | SetLoop _ _ | Clear => true
  | SetEnd _ => isSome (startTime (this w))
  | Destroy | TimerFires _ | Playback _ => false
  end.

End ControllerVocabulary.

(** * Further code of the repository *)

(** ** [src/content/player.ts]: playback speed *)

Module Media.
Import JS.

Local Open Scope Q_scope.

(** The properties of the video element the speed functions touch. *)
Record HTMLVideoElement : Type := mkVideo {
  currentTime : Q;
  paused : bool;
  playbackRate : Q
}.

Inductive output : Type :=
| VideoPlayerNotFound
| PlaybackRateSet (clampedRate : Q).

(** [setPlaybackRate(rate)] on a page whose video element, if any, is [doc]:
    the value returned, the page afterwards and the console output. *)
Definition setPlaybackRate (rate : Q) (doc : option HTMLVideoElement)
  : bool * option HTMLVideoElement * list output :=
  match doc with
  | None => (false, doc, [VideoPlayerNotFound])
  | Some video =>
      let clampedRate := Math_max (1 # 4) (Math_min 2 rate) in
      (true,
       Some (mkVideo (currentTime video) (paused video) clampedRate),
       [PlaybackRateSet clampedRate])
  end.

(** [video?.playbackRate ?? 1.0] *)
Definition getPlaybackRate (doc : option HTMLVideoElement) : Q :=
  match doc with
  | Some video => playbackRate video
  | None => 1
  end.

(** [PLAYBACK_SPEEDS] of [src/content/constants.ts] *)
Definition PLAYBACK_SPEEDS : list Q := [1 # 2; 3 # 4; 1; 5 # 4; 3 # 2; 2].

End Media.

(** ** [src/options/index.ts]: the library page's own [formatTimestamp] *)

Module Options.
Import JS.

(** [Math.trunc] of a rational. *)
Definition Qtrunc (x : Q) : Z := Z.quot (Qnum x) (Zpos (Qden x)).

(** [a % b] on numbers: the remainder has the sign of [a]. *)
Definition remainder (a b : Q) : Q := (a - b * inject_Z (Qtrunc (a / b)))%Q.

Definition formatTimestamp (seconds : Q) : string :=
  let mins := Qfloor (toNumber (seconds / 60)) in
  let secs := Qfloor (remainder seconds 60) in
  (toString mins ++ ":" ++ padStart (toString secs) 2 "0")%string.

End Options.

(** ** [src/content/ui/panel.ts]: the loop gestures of [SubtitlePanel] *)

Module Panel.
Import JS Player.

Local Open Scope Q_scope.

(** The messages passed to [showToast]. *)
Inductive toast : Type :=
| LoopStartSet
| LoopSet
| SegmentNotFound
| SetStartFirst
| LoopCleared
| LoopSwitched.

Inductive logged : Type :=
| LoopStartLogged (time : Q)
| SingleSegmentLoop (time endTime : Q)
| LoopActivatedLogged
| LoopResetLogged (time : Q).

(** One row of the segment list as [renderSegments] writes it: the CSS
    classes, the [data-index] and [data-time] attributes, the timestamp
    shown and the text (before HTML escaping). *)
Record Row : Type := mkRow {
  classes : list string;
  dataIndex : nat;
  dataTime : Q;
  timestamp : string;
  rowText : string
}.

(** What the handlers themselves do besides driving the controller and the
    video: the toasts, the rows they write and their console output (the
    [[DEBUG]] lines apart).  What the controller's listener writes when it
    is called is not recorded here. *)
Inductive effect : Type :=
| ShowToast (t : toast)
| SetSegmentsHtml (rows : list Row)
| ConsoleLog (m : logged).

(** The fields of [SubtitlePanel] the loop gestures use: the segments, whether
    the panel's container is in the page, and the controller with its page.
    Calls of the controller's listener ([updateLoopStatusDisplay]) are the
    [StateChange] calls of the page's trace. *)
Record SubtitlePanel : Type := mkPanel {
  segments : list Transcript.TranscriptSegment;
  mounted : bool;
  page : World;
  effects : list effect
}.

(** A handler returns, or throws a [TypeError]. *)
Inductive outcome : Type := Returned | Threw.

Definition PM (A : Type) : Type := SubtitlePanel -> A * SubtitlePanel.

Definition pret {A} (a : A) : PM A := fun p => (a, p).
Definition pbind {A B} (c : PM A) (k : A -> PM B) : PM B :=
  fun p => let '(a, p') := c p in k a p'.

Notation "x <~ c ;; k" := (pbind c (fun x => k))
  (at level 61, c at next level, right associativity).
Notation "c ;;; k" := (pbind c (fun _ => k))
  (at level 61, right associativity).

(** A method of the controller or a media primitive, run on the panel's page. *)
Definition onPage {A} (m : M A) : PM A :=
  fun p => let '(a, w) := m (page p) in
           (a, mkPanel (segments p) (mounted p) w (effects p)).

Definition perform (e : effect) : PM unit :=
  fun p => (tt, mkPanel (segments p) (mounted p) (page p) (effects p ++ [e])).

Definition getSegments : PM (list Transcript.TranscriptSegment) :=
  fun p => (segments p, p).

Definition showToast (t : toast) : PM unit := perform (ShowToast t).

(** [nextSegment?.startTime ?? segment.startTime + 5]; the sum is exact, as
    it is in the code for the whole start times below [2^53] that
    [parseTimestamp] gives. *)
Definition segmentEndOf (segment : Transcript.TranscriptSegment)
    (nextSegment : option Transcript.TranscriptSegment) : Q :=
  match nextSegment with
  | Some n => Transcript.startTime n
  | None => Transcript.startTime segment + 5
  end.

(** The callback of [this.segments.map] in [renderSegments]. *)
Definition renderRow (segs : list Transcript.TranscriptSegment)
    (loopState : LoopState.t) (index : nat)
    (segment : Transcript.TranscriptSegment) : Row :=
  let nextSegment := nth_error segs (index + 1) in
  let segmentEnd := segmentEndOf segment nextSegment in
  let '(inLoopRange, isLoopStart, isLoopEnd) :=
    match LoopState.startTime loopState, LoopState.endTime loopState with
    | Some loopStart, Some loopEnd =>
        (Qle_bool loopStart (Transcript.startTime segment)
           && negb (Qle_bool loopEnd (Transcript.startTime segment)),
         Qeq_bool (Transcript.startTime segment) loopStart,
         negb (Qle_bool segmentEnd loopEnd)
           && negb (Qle_bool loopEnd (Transcript.startTime segment)))
    | _, _ => (false, false, false)
    end in
  let classes :=
    app ["sl-segment"%string]
      (app (if inLoopRange then ["sl-segment-in-loop"%string] else [])
         (app (if isLoopStart then ["sl-segment-loop-start"%string] else [])
            (if isLoopEnd then ["sl-segment-loop-end"%string] else []))) in
  mkRow classes index (Transcript.startTime segment)
    (Transcript.formatTimestamp (Transcript.startTime segment))
    (Transcript.text segment).

Fixpoint mapi {A B} (f : nat -> A -> B) (i : nat) (l : list A) : list B :=
  match l with
  | [] => []
  | x :: rest => f i x :: mapi f (S i) rest
  end.

Definition renderRows (segs : list Transcript.TranscriptSegment)
    (loopState : LoopState.t) : list Row :=
  mapi (renderRow segs loopState) 0 segs.

Definition renderSegments : PM unit :=
  fun p =>
    if mounted p
    then perform (SetSegmentsHtml (renderRows (segments p) (snapshot (page p)))) p
    else (tt, p).

(** [indexStr ? parseInt(indexStr, 10) : -1], [NaN] being [None].  The
    index is the integer read: it is only compared with a length and used as
    an index, and up to [2^53], past the length of every array, it is its own
    Number value. *)
Definition indexOfAttribute (indexStr : option string) : option Z :=
  match indexStr with
  | None => Some (-1)%Z
  | Some EmptyString => Some (-1)%Z
  | Some s => parseInt10 s
  end.

(** [state.startTime === time] *)
Definition sameTime (a : option Q) (time : Q) : bool :=
  match a with
  | Some x => Qeq_bool x time
  | None => false
  end.

Definition handleLoopClick (indexStr : option string) : PM outcome :=
  segs <~ getSegments ;;
  match indexOfAttribute indexStr with
  | None =>
      (* neither [NaN < 0] nor [NaN >= length] holds; [segments[NaN]] is
         [undefined] and reading its [startTime] throws *)
      pret Threw
  | Some index =>
      if (index <? 0)%Z || (Z.of_nat (List.length segs) <=? index)%Z
      then pret Returned
      else
        match nth_error segs (Z.to_nat index) with
        | None => pret Threw
        | Some segment =>
            let nextSegment := nth_error segs (Z.to_nat index + 1) in
            let time := Transcript.startTime segment in
            state <~ onPage getState ;;
            if negb (LoopState.isActive state)
               && negb (isSome (LoopState.startTime state))
            then
              onPage (setStart time) ;;;
              onPage (seekTo time) ;;;
              renderSegments ;;;
              perform (ConsoleLog (LoopStartLogged time)) ;;;
              pret Returned
            else
              settingStart <~ onPage isSettingStart ;;
              if settingStart
              then
                if sameTime (LoopState.startTime state) time
                then
                  let endTime := segmentEndOf segment nextSegment in
                  onPage (setLoop time endTime) ;;;
                  renderSegments ;;;
                  perform (ConsoleLog (SingleSegmentLoop time endTime)) ;;;
                  pret Returned
                else
                  onPage (setEnd time) ;;;
                  renderSegments ;;;
                  perform (ConsoleLog LoopActivatedLogged) ;;;
                  pret Returned
              else
                onPage clear ;;;
                onPage (setStart time) ;;;
                onPage (seekTo time) ;;;
                renderSegments ;;;
                perform (ConsoleLog (LoopResetLogged time)) ;;;
                pret Returned
        end
  end.

Definition handleLoopStartShortcut : PM unit :=
  currentTime <~ onPage getCurrentTime ;;
  segs <~ getSegments ;;
  match Transcript.findSegmentAtTime segs currentTime with
  | None => showToast SegmentNotFound
  | Some currentSegment =>
      onPage (setStart (Transcript.startTime currentSegment)) ;;;
      showToast LoopStartSet
  end.

Definition handleLoopEndShortcut : PM unit :=
  currentTime <~ onPage getCurrentTime ;;
  segs <~ getSegments ;;
  match Transcript.findSegmentAtTime segs currentTime with
  | None => showToast SegmentNotFound
  | Some currentSegment =>
      state <~ onPage getState ;;
      match LoopState.startTime state with
      | None => showToast SetStartFirst
      | Some _ =>
          onPage (setEnd (Transcript.startTime currentSegment)) ;;;
          showToast LoopSet
      end
  end.

Definition handleClearLoopShortcut : PM unit :=
  onPage clear ;;;
  showToast LoopCleared.

Definition switchToLoop (startTime endTime : Q) : PM unit :=
  onPage (setLoop startTime endTime) ;;;
  onPage (seekTo startTime) ;;;
  segs <~ getSegments ;;
  (if (0 <? List.length segs)%nat then renderSegments else pret tt) ;;;
  showToast LoopSwitched.

(** What the user and the page can do to a panel. *)
Inductive gesture : Type :=
| ClickLoop (indexStr : option string)
| ClickClear
| PressLoopStart
| PressLoopEnd
| PressClearLoop
| ClickSaved (startTime endTime : Q)
| Timer (id : nat)
| Video (v : option Q).

Definition react (g : gesture) : PM outcome :=
  match g with
  | ClickLoop indexStr => handleLoopClick indexStr
  | ClickClear => onPage clear ;;; pret Returned
  | PressLoopStart => handleLoopStartShortcut ;;; pret Returned
  | PressLoopEnd => handleLoopEndShortcut ;;; pret Returned
  | PressClearLoop => handleClearLoopShortcut ;;; pret Returned
  | ClickSaved a b => switchToLoop a b ;;; pret Returned
  | Timer id => onPage (exec (TimerFires id)) ;;; pret Returned
  | Video v => onPage (exec (Playback v)) ;;; pret Returned
  end.

Definition after (p : SubtitlePanel) (g : gesture) : SubtitlePanel := snd (react g p).

Definition session (gs : list gesture) (p : SubtitlePanel) : SubtitlePanel :=
  fold_left after gs p.

(** A panel created on a page, its segments loaded. *)
Definition fresh (segs : list Transcript.TranscriptSegment)
    (f : listener) (v : option Q) : SubtitlePanel :=
  mkPanel segs true (initial (Some f) v) [].

End Panel.

(** ** [src/content/transcript.ts]: [extractTranscriptSegments] *)

Module Scrape.
Import JS Transcript.

(** One [ytd-transcript-segment-renderer] element as the function reads it:
    the [textContent] of its timestamp and text children ([None] when the
    child is missing, [Some None] when its [textContent] is [null]) and the
    handle of the element itself. *)
Record SegmentElement : Type := mkElement {
  timestampEl : option (option string);
  textEl : option (option string);
  node : nat
}.

Inductive logged : Type :=
| NoSegmentsFound
| MalformedSegment (index : nat)
| InvalidTimestamp (timeStr : string)
| Extracted (count : nat).

(** [s?.trim() || fallback] *)
Definition trimmedOr (s : option string) (fallback : string) : string :=
  match option_map trim s with
  | None | Some EmptyString => fallback
  | Some t => t
  end.

(** The body of [segmentElements.forEach((element, index) => ...)], from
    [index] on, pushing onto [segments]. *)
Fixpoint forEachFrom (index : nat) (elements : list SegmentElement)
    (segments : list TranscriptSegment) (log : list logged)
  : list TranscriptSegment * list logged :=
  match elements with
  | [] => (segments, log)
  | el :: rest =>
      match timestampEl el, textEl el with
      | Some ts, Some tx =>
          let timeStr := trimmedOr ts "0:00" in
          let text := trimmedOr tx "" in
          let '(seconds, warned) := parseTimestampLog timeStr in
          forEachFrom (S index) rest
            (segments ++ [mkSegment (Z.of_nat index) (inject_Z seconds) text (node el)])
            (log ++ if warned then [InvalidTimestamp timeStr] else [])
      | _, _ =>
          forEachFrom (S index) rest segments (log ++ [MalformedSegment index])
      end
  end.

Definition extractTranscriptSegments (segmentElements : list SegmentElement)
  : list TranscriptSegment * list logged :=
  match segmentElements with
  | [] => ([], [NoSegmentsFound])
  | _ =>
      let '(segments, log) := forEachFrom 0 segmentElements [] [] in
      (segments, log ++ [Extracted (List.length segments)])
  end.

End Scrape.

(** ** [src/content/keyboard.ts]: [KeyboardHandler] *)

Module Keyboard.

(** [String.prototype.toLowerCase] on code units below 256: the letters A to
    Z and the accented capitals of Latin-1 (all of 192 to 222 but the
    multiplication sign, 215). *)
Definition lowerChar (c : ascii) : ascii :=
  let n := nat_of_ascii c in
  if ((65 <=? n)%nat && (n <=? 90)%nat)
     || ((192 <=? n)%nat && (n <=? 222)%nat && negb (n =? 215)%nat)
  then ascii_of_nat (n + 32)
  else c.

Fixpoint toLowerCase (s : string) : string :=
  match s with
  | EmptyString => EmptyString
  | String c r => String (lowerChar c) (toLowerCase r)
  end.

Inductive action : Type :=
| setLoopStart
| setLoopEnd
| saveSegment
| clearLoop
| refreshSubtitles.

Record Shortcut : Type := mkShortcut {
  key : string;
  alt : bool;
  ctrl : bool;
  shift : bool
}.

(** [Object.entries(KEYBOARD_SHORTCUTS)] of [src/content/constants.ts], in
    the order of the declaration. *)
Definition KEYBOARD_SHORTCUTS : list (action * Shortcut) :=
  [(setLoopStart, mkShortcut "[" true false false);
   (setLoopEnd, mkShortcut "]" true false false);
   (saveSegment, mkShortcut "s" true false false);
   (clearLoop, mkShortcut "c" true false false);
   (refreshSubtitles, mkShortcut "r" true false false)].

Record HTMLElement : Type := mkHTMLElement {
  tagName : string;
  isContentEditable : bool;
  hasContentEditableAttribute : bool
}.

Record KeyboardEvent : Type := mkEvent {
  eventKey : string;
  altKey : bool;
  ctrlKey : bool;
  shiftKey : bool;
  target : HTMLElement
}.

Definition matchesShortcut (event : KeyboardEvent) (shortcut : Shortcut) : bool :=
  String.eqb (toLowerCase (eventKey event)) (toLowerCase (key shortcut))
  && Bool.eqb (altKey event) (alt shortcut)
  && Bool.eqb (ctrlKey event) (ctrl shortcut)
  && Bool.eqb (shiftKey event) (shift shortcut).

Definition isInputElement (element : HTMLElement) : bool :=
  let tagName' := toLowerCase (tagName element) in
  String.eqb tagName' "input"
  || String.eqb tagName' "textarea"
  || String.eqb tagName' "select"
  || isContentEditable element
  || hasContentEditableAttribute element.

(** The [for] loop of [handleKeydown] over the entries still to check: the
    handler it calls, if any (then after [preventDefault] and
    [stopPropagation]).  Every handler of [ShortcutHandlers] is present. *)
Fixpoint firstMatch (event : KeyboardEvent) (entries : list (action * Shortcut))
  : option action :=
  match entries with
  | [] => None
  | (a, shortcut) :: rest =>
      if matchesShortcut event shortcut then Some a else firstMatch event rest
  end.

(** [handleKeydown] of a handler whose [isEnabled] flag is given. *)
Definition handleKeydown (isEnabled : bool) (event : KeyboardEvent) : option action :=
  if negb isEnabled then None
  else if isInputElement (target event) then None
  else firstMatch event KEYBOARD_SHORTCUTS.

(** The key of each action in the table. *)
Definition keyOf (a : action) : string :=
  match a with
  | setLoopStart => "["
  | setLoopEnd => "]"
  | saveSegment => "s"
  | clearLoop => "c"
  | refreshSubtitles => "r"
  end.

End Keyboard.

(** ** [src/db]: groups and statistics *)

Module Database.

(** [Phrase] and [Group] of [src/types]; a [Date] is its time value. *)
Record Phrase : Type := mkPhrase {
  id : string;
  videoId : string;
  videoUrl : string;
  videoTitle : string;
  startTime : Q;
  endTime : Q;
  originalText : string;
  translatedText : option string;
  note : option string;
  groupId : option string;
  createdAt : Z;
  updatedAt : Z
}.

Record Group : Type := mkGroup {
  gid : string;
  name : string;
  description : option string;
  color : string;
  order : Z;
  gcreatedAt : Z;
  gupdatedAt : Z
}.

(** The two tables of [SubtitleLoopDB], each a list of rows with [id] as
    primary key. *)
Record DB : Type := mkDB {
  phrases : list Phrase;
  groups : list Group
}.

(** A plain object used as a map from strings to numbers: its own
    properties, in insertion order. *)
Definition Counts := list (string * Z).

(** The names every plain object inherits from [Object.prototype].  Reading
    one of them from [{}] gives the inherited member, not [undefined]; the
    object is a map from strings to numbers on the other names only. *)
Definition inheritedNames : list string :=
  ["constructor"; "__proto__"; "hasOwnProperty"; "isPrototypeOf";
   "propertyIsEnumerable"; "toLocaleString"; "toString"; "valueOf";
   "__defineGetter__"; "__defineSetter__"; "__lookupGetter__";
   "__lookupSetter__"]%string.

Definition inherited (k : string) : bool := existsb (String.eqb k) inheritedNames.

Fixpoint getProp (obj : Counts) (k : string) : option Z :=
  match obj with
  | [] => None
  | (k', v) :: rest => if String.eqb k' k then Some v else getProp rest k
  end.

Fixpoint setProp (obj : Counts) (k : string) (v : Z) : Counts :=
  match obj with
  | [] => [(k, v)]
  | (k', v') :: rest =>
      if String.eqb k' k then (k', v) :: rest else (k', v') :: setProp rest k v
  end.

(** [phrase.groupId || 'ungrouped'] *)
Definition groupKey (phrase : Phrase) : string :=
  match groupId phrase with
  | None | Some EmptyString => "ungrouped"
  | Some g => g
  end.

(** The loop of [getStats] over [phrases], for keys that are not inherited
    names: [phrasesByGroup[groupId]] is then the own property or
    [undefined]. *)
Fixpoint countByGroup (phrases : list Phrase) (phrasesByGroup : Counts) : Counts :=
  match phrases with
  | [] => phrasesByGroup
  | phrase :: rest =>
      let k := groupKey phrase in
      let old := match getProp phrasesByGroup k with
                 | None | Some 0%Z => 0%Z
                 | Some n => n
                 end in
      countByGroup rest (setProp phrasesByGroup k (old + 1)%Z)
  end.

Record Stats : Type := mkStats {
  totalPhrases : Z;
  totalGroups : Z;
  phrasesByGroup : Counts
}.

(** [getStats()].  [None] stands for the results left out here: with a
    phrase counted under an inherited name, [phrasesByGroup[groupId] || 0] is
    the inherited member and the sum is not a number. *)
Definition getStats (db : DB) : option Stats :=
  if existsb (fun phrase => inherited (groupKey phrase)) (phrases db)
  then None
  else Some (mkStats (Z.of_nat (List.length (phrases db)))
                     (Z.of_nat (List.length (groups db)))
                     (countByGroup (phrases db) [])).

(** [{ groupId: null }] applied to a row. *)
Definition ungrouped (p : Phrase) : Phrase :=
  mkPhrase (id p) (videoId p) (videoUrl p) (videoTitle p) (startTime p)
    (endTime p) (originalText p) (translatedText p) (note p) None
    (createdAt p) (updatedAt p).

(** [db.phrases.update(key, { groupId: null })] *)
Definition ungroup (key : string) (rows : list Phrase) : list Phrase :=
  map (fun p => if String.eqb (id p) key then ungrouped p else p) rows.

Definition inGroup (g : string) (p : Phrase) : bool :=
  match groupId p with
  | Some g' => String.eqb g' g
  | None => false
  end.

Definition deleteGroup (g : string) (db : DB) : DB :=
  let phrasesInGroup := filter (inGroup g) (phrases db) in
  let phrases' := fold_left (fun rows phrase => ungroup (id phrase) rows)
                    phrasesInGroup (phrases db) in
  mkDB phrases' (filter (fun r => negb (String.eqb (gid r) g)) (groups db)).

(** [db.groups.orderBy('order').last()]: a row of greatest [order] (only its
    [order] is read afterwards). *)
Fixpoint lastByOrder (rows : list Group) : option Group :=
  match rows with
  | [] => None
  | r :: rest =>
      match lastByOrder rest with
      | Some r' => if (order r <? order r')%Z then Some r' else Some r
      | None => Some r
      end
  end.

(** [createGroup(data)], the identifier generated and the current time
    being given.  [db.groups.add] rejects a row whose key is in the table:
    the promise is then rejected and the table is as before. *)
Definition createGroup (name' : string) (description' : option string)
    (color' : string) (newId : string) (now : Z) (db : DB) : option Group * DB :=
  let order' := match lastByOrder (groups db) with
                | Some lastGroup => (order lastGroup + 1)%Z
                | None => 0%Z
                end in
  let group := mkGroup newId name' description' color' order' now now in
  if existsb (fun r => String.eqb (gid r) newId) (groups db)
  then (None, db)
  else (Some group, mkDB (phrases db) (groups db ++ [group])).

End Database.

Section QueryVocabulary.
Import JS Transcript.

Local Open Scope Q_scope.

(** The segment at index [i] starts at or before [t] and the next one, if
    there is one, starts after [t]. *)
Definition covers (segs : list TranscriptSegment) (t : Q) (i : nat) : Prop :=
  exists s, nth_error segs i = Some s
            /\ startTime s <= t
            /\ forall s', nth_error segs (S i) = Some s' -> t < startTime s'.

End QueryVocabulary.

Section GestureVocabulary.
Import JS Player Panel.

Local Open Scope Q_scope.

(** The warnings among a list of calls. *)
Definition warnings (cs : list call) : list call :=
  flat_map (fun c => match c with Console Warn _ => [c] | _ => [] end) cs.

(** The end of a loop is the start of some segment, or five seconds after
    the start of the last one. *)
Definition endsAtSegment (segs : list Transcript.TranscriptSegment) (e : Q) : Prop :=
  In e (map Transcript.startTime segs)
  \/ exists i s, nth_error segs i = Some s /\ nth_error segs (S i) = None
                 /\ e = Transcript.startTime s + 5.

(** What the loop buttons keep true of the controller. *)
Definition clickShape (segs : list Transcript.TranscriptSegment)
    (c : LoopController) : Prop :=
  match startTime c, endTime c, isActive c with
  | None, None, false => True
  | Some s, None, false => In s (map Transcript.startTime segs)
  | Some s, Some e, true =>
      s < e /\ In s (map Transcript.startTime segs) /\ endsAtSegment segs e
  | _, _, _ => False
  end.

(** The gestures made with the buttons of the panel, the timers and the
    video; the keyboard and the saved phrases are left out. *)
Definition byButtons (g : gesture) : bool :=
  match g with
  | ClickLoop _ | ClickClear | PressClearLoop | Timer _ | Video _ => true
  | PressLoopStart | PressLoopEnd | ClickSaved _ _ => false
  end.

(** The rows marked as the end of the loop. *)
Definition loopEndRows (rows : list Row) : list Row :=
  filter (fun r => existsb (String.eqb "sl-segment-loop-end") (classes r)) rows.

(** Whether [renderRow] marks the row as the end of the loop. *)
Definition marksLoopEnd (segs : list Transcript.TranscriptSegment)
    (loopState : LoopState.t) (i : nat) (s : Transcript.TranscriptSegment) : bool :=
  match LoopState.startTime loopState, LoopState.endTime loopState with
  | Some _, Some e =>
      negb (Qle_bool (segmentEndOf s (nth_error segs (i + 1))) e)
      && negb (Qle_bool e (Transcript.startTime s))
  | _, _ => false
  end.

(** What [handleLoopClick] does to the page when the row clicked holds
    [segment], followed by [nextSegment]. *)
Definition clickPage (w : World) (segment : Transcript.TranscriptSegment)
    (nextSegment : option Transcript.TranscriptSegment) : World :=
  let time := Transcript.startTime segment in
  if negb (isActive (this w)) && negb (isSome (startTime (this w)))
  then snd (seekTo time (step w (SetStart time)))
  else if fst (isSettingStart w)
       then if sameTime (startTime (this w)) time
            then step w (SetLoop time (segmentEndOf segment nextSegment))
            else step w (SetEnd time)
       else snd (seekTo time (step (step w Clear) (SetStart time))).

End GestureVocabulary.

Section PhaseVocabulary.
Import JS Player.

(** The three states of the controller. *)
Inductive phase : Type := Idle | SettingStart | Active.

Definition phaseOf (c : LoopController) : option phase :=
  match startTime c, endTime c, isActive c with
  | None, None, false => Some Idle
  | Some _, None, false => Some SettingStart
  | Some _, Some _, true => Some Active
  | _, _, _ => None
  end.

(** The transition table the methods implement. *)
Definition nextPhase (p : phase) (a : action) : phase :=
  match a, p with
  | SetStart _, Active => Active
  | SetStart _, _ => SettingStart
  | SetEnd _, Idle => Idle
  | SetEnd _, _ => Active
  | SetLoop _ _, _ => Active
  | Clear, _ => Idle
  | Destroy, _ | TimerFires _, _ | Playback _, _ => p
  end.

End PhaseVocabulary.

Section ScrapeVocabulary.
Import JS Transcript Scrape.

(** Both children are present. *)
Definition wellFormed (el : SegmentElement) : bool :=
  match timestampEl el, textEl el with
  | Some _, Some _ => true
  | _, _ => false
  end.

(** How many of the first [n] elements are skipped as malformed. *)
Definition malformedBefore (elements : list SegmentElement) (n : nat) : nat :=
  List.length (filter (fun el => negb (wellFormed el)) (firstn n elements)).

End ScrapeVocabulary.

Section StatsVocabulary.
Import Database.

Local Open Scope Z_scope.

(** How many of [rows] are counted under the key [k]. *)
Definition countOf (k : string) (rows : list Phrase) : Z :=
  Z.of_nat (List.length (filter (fun p => String.eqb (groupKey p) k) rows)).

(** The sum of the counts of an object. *)
Definition total (obj : Counts) : Z := fold_right (fun kv acc => snd kv + acc) 0 obj.

(** No phrase is counted under a name that a plain object inherits. *)
Definition plainKeys (rows : list Phrase) : Prop :=
  Forall (fun p => inherited (groupKey p) = false) rows.

End StatsVocabulary.

Section NumberVocabulary.
Import JS.

(** The exponent of the last place of the Number value for [q]. *)
Definition lastPlace (q : Q) : Z := Z.max (floorLog2 (Qabs q) - 52) (-1074).

End NumberVocabulary.

(** * Facts about the primitives *)

(** ** Numbers *)

Section NumberFacts.
Import JS.

Local Open Scope Q_scope.

Lemma pow2_pos e : 0 < 2 ^ e.
Proof. apply Qpower_0_lt. reflexivity. Qed.

Lemma pow2_plus a b : 2 ^ (a + b) == 2 ^ a * 2 ^ b.
Proof. apply Qpower_plus. discriminate. Qed.

Lemma pow2_le a b : (a <= b)%Z -> 2 ^ a <= 2 ^ b.
Proof. intros H. apply Qpower_le_compat_l; [exact H | discriminate]. Qed.

Lemma pow2_lt_inv a b : 2 ^ a < 2 ^ b -> (a < b)%Z.
Proof. intros H. apply (Qpower_lt_compat_l_inv 2); [exact H | reflexivity]. Qed.

Lemma pow2_Z a : (0 <= a)%Z -> 2 ^ a == inject_Z (2 ^ a).
Proof. intros H. symmetry. apply (Zpower_Qpower 2 a H). Qed.

Lemma pow2_succ a : 2 ^ (a + 1) == 2 * 2 ^ a.
Proof. rewrite pow2_plus. change (2 ^ 1) with 2. ring. Qed.

Lemma pow2_pred a : 2 ^ (a - 1) == 2 ^ a / 2.
Proof.
  assert (E := pow2_succ (a - 1)). replace (a - 1 + 1)%Z with a in E by ring.
  rewrite E. field.
Qed.

(** A positive integer lies between two consecutive powers of two. *)
Lemma log2_bounds n : (0 < n)%Z ->
  2 ^ Z.log2 n <= inject_Z n /\ inject_Z n < 2 * 2 ^ Z.log2 n.
Proof.
  intros Hn. destruct (Z.log2_spec n Hn) as [Hlo Hhi].
  rewrite pow2_Z by apply Z.log2_nonneg. split.
  - rewrite <- Zle_Qle. exact Hlo.
  - change 2 with (inject_Z 2) at 1. rewrite <- inject_Z_mult, <- Zlt_Qlt.
    rewrite Z.pow_succ_r in Hhi by apply Z.log2_nonneg. exact Hhi.
Qed.

Lemma floorLog2_spec q : 0 < q ->
  2 ^ floorLog2 q <= q /\ q < 2 ^ (floorLog2 q + 1).
Proof.
  intros Hq. unfold floorLog2.
  destruct q as [n d]. cbn [Qnum Qden].
  assert (Hn : (0 < n)%Z) by (unfold Qlt in Hq; cbn in Hq; lia).
  destruct (log2_bounds n Hn) as [Hn1 Hn2].
  destruct (log2_bounds (Zpos d) eq_refl) as [Hd1 Hd2].
  set (a := Z.log2 n) in *. set (b := Z.log2 (Zpos d)) in *.
  assert (HA := pow2_pos a). assert (HB := pow2_pos b).
  assert (E : 2 ^ (a - b) == 2 ^ a / 2 ^ b).
  { unfold Z.sub. rewrite pow2_plus, Qpower_opp. reflexivity. }
  assert (Eq : n # d == inject_Z n / inject_Z (Zpos d)) by apply Qmake_Qdiv.
  assert (Hd0 : 0 < inject_Z (Zpos d)) by reflexivity.
  set (N := inject_Z n) in *. set (D := inject_Z (Zpos d)) in *.
  assert (HqD : (n # d) * D == N) by (rewrite Eq; field; lra).
  destruct (Qle_bool (2 ^ (a - b)) (n # d)) eqn:Hc.
  - apply Qle_bool_iff in Hc. split; [exact Hc|].
    rewrite pow2_succ, E.
    apply Qmult_lt_r with (z := D); [exact Hd0|]. rewrite HqD.
    apply Qlt_le_trans with (2 * 2 ^ a); [exact Hn2|].
    setoid_replace (2 * (2 ^ a / 2 ^ b) * D) with (2 * 2 ^ a * (D / 2 ^ b)) by (field; lra).
    rewrite <- (Qmult_1_r (2 * 2 ^ a)) at 1.
    apply Qmult_le_l; [lra|]. apply Qle_shift_div_l; lra.
  - assert (Hlt : (n # d) < 2 ^ (a - b)).
    { apply Qnot_le_lt. intros H. apply Qle_bool_iff in H. congruence. }
    replace (a - b - 1 + 1)%Z with (a - b)%Z by ring. split; [|exact Hlt].
    rewrite pow2_pred, E.
    apply Qmult_le_r with (z := D); [exact Hd0|]. rewrite HqD.
    apply Qle_trans with (2 ^ a); [|exact Hn1].
    setoid_replace (2 ^ a / 2 ^ b / 2 * D) with (2 ^ a * (D / (2 * 2 ^ b))) by (field; lra).
    rewrite <- (Qmult_1_r (2 ^ a)) at 2.
    apply Qmult_le_l; [lra|]. apply Qle_shift_div_r; lra.
Qed.


Lemma floorLog2_unique q e : 2 ^ e <= q -> q < 2 ^ (e + 1) -> floorLog2 q = e.
Proof.
  intros Hlo Hhi.
  assert (Hq : 0 < q) by (pose proof (pow2_pos e); lra).
  destruct (floorLog2_spec q Hq) as [Hlo' Hhi'].
  assert (floorLog2 q < e + 1)%Z by (apply pow2_lt_inv; lra).
  assert (e < floorLog2 q + 1)%Z by (apply pow2_lt_inv; lra).
  lia.
Qed.

Lemma Qfloor_unique q k : inject_Z k <= q -> q < inject_Z (k + 1) -> Qfloor q = k.
Proof.
  intros Hlo Hhi.
  pose proof (Qfloor_le q) as H1. pose proof (Qlt_floor q) as H2.
  assert (k < Qfloor q + 1)%Z by (rewrite Zlt_Qlt; lra).
  assert (Qfloor q < k + 1)%Z by (rewrite Zlt_Qlt; lra).
  lia.
Qed.

Lemma roundHalfEven_integer q z : q == inject_Z z -> roundHalfEven q = z.
Proof.
  intros E. unfold roundHalfEven.
  assert (Ef : Qfloor q = z) by (rewrite (Qfloor_comp _ _ E); apply Qfloor_Z).
  rewrite Ef.
  assert (C : (q - inject_Z z ?= 1 # 2) = Lt).
  { apply Qlt_alt. setoid_replace (q - inject_Z z) with 0 by (rewrite E; ring).
    reflexivity. }
  now rewrite C.
Qed.

Lemma roundHalfEven_near q : Qabs (inject_Z (roundHalfEven q) - q) <= 1 # 2.
Proof.
  unfold roundHalfEven.
  pose proof (Qfloor_le q) as H1. pose proof (Qlt_floor q) as H2.
  rewrite inject_Z_plus in H2. change (inject_Z 1) with 1 in H2.
  apply Qabs_Qle_condition.
  destruct (q - inject_Z (Qfloor q) ?= 1 # 2) eqn:C.
  - apply Qeq_alt in C. destruct (Z.even (Qfloor q));
      rewrite ?inject_Z_plus; change (inject_Z 1) with 1; lra.
  - apply Qlt_alt in C. lra.
  - apply Qgt_alt in C. rewrite inject_Z_plus. change (inject_Z 1) with 1. lra.
Qed.

Lemma toNumber_nonzero q : ~ q == 0 ->
  toNumber q = inject_Z (roundHalfEven (q / 2 ^ lastPlace q)) * 2 ^ lastPlace q.
Proof.
  intros Hq. unfold toNumber.
  destruct (Qeq_bool q 0) eqn:E; [|reflexivity].
  apply Qeq_bool_iff in E. contradiction.
Qed.

Lemma toNumber_zero q : q == 0 -> toNumber q = 0.
Proof. intros Hq. unfold toNumber. apply Qeq_bool_iff in Hq. now rewrite Hq. Qed.

(** The Number value is within half a unit of the last place. *)
Lemma toNumber_near q : ~ q == 0 ->
  Qabs (toNumber q - q) <= 2 ^ lastPlace q / 2.
Proof.
  intros Hq. rewrite (toNumber_nonzero q Hq).
  set (u := 2 ^ lastPlace q). assert (Hu : 0 < u) by apply pow2_pos.
  setoid_replace (inject_Z (roundHalfEven (q / u)) * u - q)
    with ((inject_Z (roundHalfEven (q / u)) - q / u) * u) by (field; lra).
  rewrite Qabs_Qmult, (Qabs_pos u) by lra.
  pose proof (roundHalfEven_near (q / u)) as H.
  setoid_replace (u / 2) with ((1 # 2) * u) by field.
  apply Qmult_le_r; assumption.
Qed.

(** A rational whose value is an integer below [2^53] in size is a Number. *)
Lemma toNumber_integer q z : q == inject_Z z -> (Z.abs z < 2 ^ 53)%Z -> toNumber q == q.
Proof.
  intros E Hz. destruct (Z.eq_dec z 0) as [->|Hnz].
  - rewrite (toNumber_zero q E). symmetry. exact E.
  - assert (Hq : ~ q == 0).
    { rewrite E. intros H. apply (inject_Z_injective z 0) in H. contradiction. }
    rewrite (toNumber_nonzero q Hq).
    assert (Ha : Qabs q == inject_Z (Z.abs z)).
    { rewrite E. destruct z; reflexivity. }
    assert (Hpos : 0 < Qabs q) by (rewrite Ha; change 0 with (inject_Z 0); rewrite <- Zlt_Qlt; lia).
    destruct (floorLog2_spec _ Hpos) as [Hlo Hhi].
    assert (Hx : (lastPlace q <= 0)%Z).
    { unfold lastPlace.
      assert (floorLog2 (Qabs q) < 53)%Z.
      { apply pow2_lt_inv. apply Qle_lt_trans with (Qabs q); [exact Hlo|].
        rewrite Ha, (pow2_Z 53) by lia. rewrite <- Zlt_Qlt. exact Hz. }
      lia. }
    set (x := lastPlace q) in *.
    assert (Eu : 2 ^ x == / inject_Z (2 ^ (- x))).
    { rewrite <- pow2_Z by lia. rewrite <- Qpower_opp.
      replace (- - x)%Z with x by ring. reflexivity. }
    assert (Hp : 0 < inject_Z (2 ^ (- x))).
    { change 0 with (inject_Z 0). rewrite <- Zlt_Qlt. apply Z.pow_pos_nonneg; lia. }
    rewrite (roundHalfEven_integer _ (z * 2 ^ (- x))).
    + rewrite inject_Z_mult, Eu, E. field. lra.
    + rewrite inject_Z_mult, Eu, E. field. lra.
Qed.

Lemma numberOf_safe z : (Z.abs z < 2 ^ 53)%Z -> numberOf z = z.
Proof.
  intros Hz. unfold numberOf.
  rewrite (toNumber_integer (inject_Z z) z (Qeq_refl _) Hz). apply Qfloor_Z.
Qed.

(** Dividing a whole number below [2^53] by 60 or by 3600 and taking the
    floor of the Number obtained gives the whole quotient. *)
Lemma floor_of_quotient t d :
  (0 <= t < 2 ^ 53)%Z -> (0 < d <= 3600)%Z ->
  Qfloor (toNumber (inject_Z t / inject_Z d)) = (t / d)%Z.
Proof.
  intros Ht Hd.
  assert (HD : 0 < inject_Z d) by (change 0 with (inject_Z 0); rewrite <- Zlt_Qlt; lia).
  pose proof (Z.div_mod t d ltac:(lia)) as Hdm.
  pose proof (Z.mod_pos_bound t d ltac:(lia)) as Hr.
  assert (Hk : (0 <= t / d)%Z) by (apply Z.div_pos; lia).
  assert (Hkt : (t / d <= t)%Z) by (apply Z.div_le_upper_bound; nia).
  set (k := (t / d)%Z) in *. set (r := (t mod d)%Z) in *.
  assert (Eq : inject_Z t / inject_Z d == inject_Z k + inject_Z r / inject_Z d).
  { rewrite Hdm, inject_Z_plus, inject_Z_mult. field. lra. }
  destruct (Z.eq_dec r 0) as [Hr0|Hr0].
  - assert (E : inject_Z t / inject_Z d == inject_Z k).
    { rewrite Eq, Hr0. field. lra. }
    rewrite (toNumber_integer _ k E) by lia. rewrite E. apply Qfloor_Z.
  - set (q := inject_Z t / inject_Z d) in *.
    assert (Hr1 : 1 <= inject_Z r) by (change 1 with (inject_Z 1); rewrite <- Zle_Qle; lia).
    assert (Hr2 : inject_Z r <= inject_Z d - 1).
    { assert (H : inject_Z r <= inject_Z (d + -1)) by (rewrite <- Zle_Qle; lia).
      rewrite inject_Z_plus in H. change (inject_Z (-1)) with (- (1)) in H. lra. }
    assert (Hfrac1 : / inject_Z d <= inject_Z r / inject_Z d).
    { apply Qle_shift_div_l; [exact HD|]. rewrite Qmult_comm, Qmult_inv_r by lra. exact Hr1. }
    assert (Hfrac2 : inject_Z r / inject_Z d <= 1 - / inject_Z d).
    { apply Qle_shift_div_r; [exact HD|].
      setoid_replace ((1 - / inject_Z d) * inject_Z d) with (inject_Z d - 1) by (field; lra).
      exact Hr2. }
    assert (Hinv : 0 < / inject_Z d) by (apply Qinv_lt_0_compat; exact HD).
    assert (Hk0 : 0 <= inject_Z k) by (change 0 with (inject_Z 0); rewrite <- Zle_Qle; lia).
    assert (Hqpos : 0 < q) by lra.
    assert (Hqn : ~ q == 0) by lra.
    pose proof (toNumber_near q Hqn) as Hnear.
    assert (Habs : Qabs q == q) by (apply Qabs_pos; lra).
    destruct (floorLog2_spec (Qabs q)) as [Hlo Hhi]; [lra|].
    assert (Hlo' : 2 ^ floorLog2 (Qabs q) <= q).
    { apply Qle_trans with (Qabs q); [exact Hlo | rewrite Habs; apply Qle_refl]. }
    assert (Hhi' : q < 2 ^ (floorLog2 (Qabs q) + 1)).
    { apply Qle_lt_trans with (Qabs q); [rewrite Habs; apply Qle_refl | exact Hhi]. }
    clear Hlo Hhi. rename Hlo' into Hlo, Hhi' into Hhi.
    (* the quotient is far from the subnormal range *)
    assert (Hlg : (-12 <= floorLog2 (Qabs q))%Z).
    { assert (2 ^ (-12) < 2 ^ (floorLog2 (Qabs q) + 1)); [|apply pow2_lt_inv in H; lia].
      apply Qlt_le_trans with (/ inject_Z d); [|lra].
      apply Qlt_le_trans with (/ 3600).
      - reflexivity.
      - apply Qle_shift_inv_l; [exact HD|].
        setoid_replace (/ 3600 * inject_Z d) with (inject_Z d / 3600) by field.
        apply Qle_shift_div_r; [reflexivity|]. rewrite Qmult_1_l.
        change 3600 with (inject_Z 3600). rewrite <- Zle_Qle. lia. }
    assert (Ex : lastPlace q = (floorLog2 (Qabs q) - 52)%Z) by (unfold lastPlace; lia).
    rewrite Ex in Hnear.
    assert (Eu : 2 ^ (floorLog2 (Qabs q) - 52) == 2 ^ floorLog2 (Qabs q) / 2 ^ 52).
    { unfold Z.sub. rewrite pow2_plus, Qpower_opp. reflexivity. }
    rewrite Eu in Hnear.
    (* half a unit in the last place is less than [1/d] *)
    assert (Hq53 : q * inject_Z d < 2 ^ 53).
    { unfold q. setoid_replace (inject_Z t / inject_Z d * inject_Z d) with (inject_Z t)
        by (field; lra).
      rewrite (pow2_Z 53) by lia. rewrite <- Zlt_Qlt. lia. }
    assert (Hhalf : 2 ^ floorLog2 (Qabs q) / 2 ^ 52 / 2 < / inject_Z d).
    { apply Qlt_shift_inv_l; [exact HD|].
      apply Qle_lt_trans with (q * inject_Z d / 2 ^ 53).
      - setoid_replace (2 ^ floorLog2 (Qabs q) / 2 ^ 52 / 2 * inject_Z d)
          with (2 ^ floorLog2 (Qabs q) * inject_Z d / 2 ^ 53) by (change (2 ^ 53) with (2 ^ 52 * 2); field).
        apply Qmult_le_r; [reflexivity|]. apply Qmult_le_r; [exact HD | exact Hlo].
      - apply Qlt_shift_div_r; [reflexivity|]. now rewrite Qmult_1_l. }
    apply Qabs_Qle_condition in Hnear.
    apply Qfloor_unique; [lra|]. rewrite inject_Z_plus. change (inject_Z 1) with 1. lra.
Qed.

End NumberFacts.

(** Integers shown below [2^53] in size by linear arithmetic. *)
Ltac safe_integer := change (2 ^ 53)%Z with 9007199254740992%Z in *; lia.

Section DecimalFacts.
Import JS.

#[local] Arguments digitChar : simpl never.
#[local] Arguments digitValue : simpl never.
#[local] Arguments isDigit : simpl never.
#[local] Arguments isWhiteSpace : simpl never.
#[local] Arguments Z.pow : simpl never.
#[local] Arguments Z.div : simpl never.
#[local] Arguments Z.modulo : simpl never.

Lemma digit_cases d : isDigitValue d ->
  d = 0 \/ d = 1 \/ d = 2 \/ d = 3 \/ d = 4 \/ d = 5 \/ d = 6 \/ d = 7 \/ d = 8 \/ d = 9.
Proof. unfold isDigitValue. lia. Qed.

Ltac each_digit d H :=
  destruct (digit_cases d H) as [?|[?|[?|[?|[?|[?|[?|[?|[?|?]]]]]]]]]; subst d.

Lemma digitChar_isDigit d : isDigitValue d -> isDigit (digitChar d) = true.
Proof. intros H. each_digit d H; reflexivity. Qed.

Lemma digitChar_value d : isDigitValue d -> digitValue (digitChar d) = d.
Proof. intros H. each_digit d H; reflexivity. Qed.

Lemma digitChar_not_space d : isDigitValue d -> isWhiteSpace (digitChar d) = false.
Proof. intros H. each_digit d H; reflexivity. Qed.

Lemma digitChar_not_colon d : isDigitValue d -> Ascii.eqb (digitChar d) ":" = false.
Proof. intros H. each_digit d H; reflexivity. Qed.

Lemma spell_app ds1 ds2 : spell (ds1 ++ ds2) = (spell ds1 ++ spell ds2)%string.
Proof. induction ds1 as [|d ds1 IH]; simpl; [reflexivity | now rewrite IH]. Qed.

Lemma string_app_assoc (a b c : string) : ((a ++ b) ++ c = a ++ (b ++ c))%string.
Proof. induction a as [|x a IH]; simpl; [reflexivity | now rewrite IH]. Qed.

Lemma string_app_nil_r (a : string) : (a ++ "")%string = a.
Proof. induction a as [|x a IH]; simpl; [reflexivity | now rewrite IH]. Qed.

Lemma digitsPrefix_spell ds rest :
  Forall isDigitValue ds ->
  digitsPrefix (spell ds ++ rest) = ds ++ digitsPrefix rest.
Proof.
  induction 1 as [|d ds Hd _ IH]; cbn [spell append digitsPrefix app]; [reflexivity|].
  rewrite digitChar_isDigit, digitChar_value, IH by assumption. reflexivity.
Qed.

Lemma fold_digits_snoc ds d a :
  fold_left (fun acc x => acc * 10 + x) (ds ++ [d]) a
  = fold_left (fun acc x => acc * 10 + x) ds a * 10 + d.
Proof. rewrite fold_left_app. reflexivity. Qed.

Lemma digitsValue_snoc ds d : digitsValue (ds ++ [d]) = digitsValue ds * 10 + d.
Proof. apply fold_digits_snoc. Qed.

Lemma toDigits_S f n acc :
  toDigits (S f) n acc
  = if n / 10 =? 0 then String (digitChar (n mod 10)) acc
    else toDigits f (n / 10) (String (digitChar (n mod 10)) acc).
Proof. reflexivity. Qed.

(** Enough fuel: [toDigits] spells the decimal expansion of [n], with no
    leading zero unless [n] is zero. *)
Lemma toDigits_spells f : forall n acc,
  0 <= n < 2 ^ Z.of_nat (S f) ->
  exists ds, toDigits (S f) n acc = (spell ds ++ acc)%string
             /\ Forall isDigitValue ds /\ ds <> []
             /\ digitsValue ds = n
             /\ (0 < n -> 0 < hd 0 ds).
Proof.
  induction f as [|f IH]; intros n acc Hn.
  - change (2 ^ Z.of_nat 1) with 2 in Hn.
    assert (E : n / 10 = 0) by (apply Z.div_small; lia).
    assert (E' : n mod 10 = n) by (apply Z.mod_small; lia).
    exists [n]. rewrite toDigits_S, E, E'. cbn [Z.eqb spell append hd].
    split; [reflexivity|]. split; [constructor; [red; lia | constructor]|].
    split; [discriminate|]. split; [|tauto].
    unfold digitsValue; cbn [fold_left]; lia.
  - rewrite toDigits_S. destruct (Z.eqb_spec (n / 10) 0) as [E|E].
    + assert (E' : n mod 10 = n) by (pose proof (Z.div_mod n 10); lia).
      pose proof (Z.mod_pos_bound n 10).
      rewrite E'. exists [n]. cbn [spell append hd].
      split; [reflexivity|]. split; [constructor; [red; lia | constructor]|].
      split; [discriminate|]. split; [|tauto].
      unfold digitsValue; cbn [fold_left]; lia.
    + assert (Hq : 0 <= n / 10 < 2 ^ Z.of_nat (S f)).
      { split; [apply Z.div_pos; lia|].
        apply Z.div_lt_upper_bound; [lia|].
        replace (Z.of_nat (S (S f))) with (Z.succ (Z.of_nat (S f))) in Hn by lia.
        rewrite Z.pow_succ_r in Hn by lia. lia. }
      destruct (IH (n / 10) (String (digitChar (n mod 10)) acc) Hq)
        as (ds & Hs & Hd & Hne & Hv & Hl).
      exists (ds ++ [n mod 10]). rewrite Hs, spell_app, string_app_assoc.
      cbn [spell append].
      split; [reflexivity|]. split.
      { apply Forall_app; split; [assumption|].
        constructor; [red; pose proof (Z.mod_pos_bound n 10); lia | constructor]. }
      split; [destruct ds; discriminate|]. split.
      { rewrite digitsValue_snoc, Hv. pose proof (Z.div_mod n 10). lia. }
      intros _. destruct ds as [|d ds]; [congruence|]. cbn [app hd] in *.
      apply Hl. pose proof (Z.div_pos n 10). lia.
Qed.

Lemma toString_spells n :
  0 <= n ->
  exists ds, toString n = spell ds
             /\ Forall isDigitValue ds /\ ds <> []
             /\ digitsValue ds = n
             /\ (0 < n -> 0 < hd 0 ds).
Proof.
  intros Hn. unfold toString.
  destruct (Z.ltb_spec n 0) as [?|_]; [lia|].
  assert (Hb : 0 <= n < 2 ^ Z.of_nat (S (Z.to_nat (Z.log2 n)))).
  { split; [assumption|].
    rewrite Nat2Z.inj_succ, Z2Nat.id by apply Z.log2_nonneg.
    destruct (Z.eq_dec n 0) as [->|]; [reflexivity|].
    apply Z.log2_spec. lia. }
  destruct (toDigits_spells _ n EmptyString Hb) as (ds & Hs & H).
  exists ds. rewrite Hs, string_app_nil_r. split; [reflexivity | exact H].
Qed.

Lemma parseInt10_spell ds :
  Forall isDigitValue ds -> ds <> [] ->
  parseInt10 (spell ds) = Some (digitsValue ds).
Proof.
  intros Hd Hne. destruct ds as [|d ds]; [congruence|].
  inversion Hd as [|? ? Hd1 Hd2]; subst.
  pose proof (digitsPrefix_spell (d :: ds) EmptyString Hd) as Hp.
  rewrite string_app_nil_r, app_nil_r in Hp.
  unfold parseInt10. cbn [spell trimStart] in *.
  rewrite digitChar_not_space by assumption.
  each_digit d Hd1;
    match goal with
    | |- context [digitChar ?k] =>
        let c := eval vm_compute in (digitChar k) in
        change (digitChar k) with c in *
    end;
    cbv beta iota zeta; rewrite Hp; cbv beta iota; now rewrite Z.mul_1_l.
Qed.

Lemma parseInt_spell ds :
  Forall isDigitValue ds -> ds <> [] ->
  parseInt (spell ds) = Some (numberOf (digitsValue ds)).
Proof. intros Hd Hne. unfold parseInt. now rewrite parseInt10_spell. Qed.

Lemma allChars_app p a b : allChars p (a ++ b) = allChars p a && allChars p b.
Proof. induction a as [|c a IH]; simpl; [reflexivity | now rewrite IH, andb_assoc]. Qed.

Lemma allChars_spell p ds :
  (forall d, isDigitValue d -> p (digitChar d) = true) ->
  Forall isDigitValue ds -> allChars p (spell ds) = true.
Proof.
  intros Hp. induction 1 as [|d ds Hd _ IH]; simpl; [reflexivity|].
  now rewrite Hp, IH.
Qed.

Lemma split_no_sep sep a :
  allChars (fun c => negb (Ascii.eqb c sep)) a = true -> split sep a = [a].
Proof.
  induction a as [|c a IH]; simpl; [reflexivity|].
  intros H. apply andb_prop in H as [Hc Ha].
  apply negb_true_iff in Hc. rewrite Hc, (IH Ha). reflexivity.
Qed.

Lemma split_at_sep sep a b :
  allChars (fun c => negb (Ascii.eqb c sep)) a = true ->
  split sep (a ++ String sep b) = a :: split sep b.
Proof.
  induction a as [|c a IH]; simpl.
  - intros _. now rewrite Ascii.eqb_refl.
  - intros H. apply andb_prop in H as [Hc Ha].
    apply negb_true_iff in Hc. rewrite Hc, (IH Ha). reflexivity.
Qed.

Lemma trimStart_no_space s :
  allChars (fun c => negb (isWhiteSpace c)) s = true -> trimStart s = s.
Proof.
  destruct s as [|c s]; simpl; [reflexivity|].
  intros H. apply andb_prop in H as [Hc _].
  apply negb_true_iff in Hc. now rewrite Hc.
Qed.

Lemma trimEnd_no_space s :
  allChars (fun c => negb (isWhiteSpace c)) s = true -> trimEnd s = s.
Proof.
  induction s as [|c s IH]; simpl; [reflexivity|].
  intros H. apply andb_prop in H as [Hc Hs].
  apply negb_true_iff in Hc. rewrite (IH Hs), Hc. destruct s; reflexivity.
Qed.

Lemma trim_no_space s :
  allChars (fun c => negb (isWhiteSpace c)) s = true -> trim s = s.
Proof.
  intros H. unfold trim. rewrite (trimStart_no_space s H). now apply trimEnd_no_space.
Qed.

End DecimalFacts.

(** * Timestamps *)

Section TimestampFacts.
Import JS Transcript.

#[local] Arguments digitChar : simpl never.
#[local] Arguments toString : simpl never.
#[local] Arguments parseInt10 : simpl never.
#[local] Arguments Z.div : simpl never.
#[local] Arguments Z.modulo : simpl never.
#[local] Arguments Z.mul : simpl never.
#[local] Arguments Z.add : simpl never.

Lemma padStart_two d :
  0 <= d < 60 -> padStart (toString d) 2 "0" = twoDigits d.
Proof.
  intros Hd.
  assert (Hall : forallb (fun k => String.eqb (padStart (toString (Z.of_nat k)) 2 "0")
                                     (twoDigits (Z.of_nat k))) (seq 0 60) = true)
    by (vm_compute; reflexivity).
  rewrite forallb_forall in Hall.
  specialize (Hall (Z.to_nat d)). rewrite Z2Nat.id in Hall by lia.
  apply String.eqb_eq, Hall, in_seq. lia.
Qed.

Lemma twoDigits_spell d : twoDigits d = spell [d / 10; d mod 10].
Proof. reflexivity. Qed.

Lemma twoDigits_digits d :
  0 <= d < 60 -> Forall isDigitValue [d / 10; d mod 10].
Proof.
  intros Hd. repeat constructor; unfold isDigitValue.
  - apply Z.div_pos; lia.
  - assert (d / 10 < 6) by (apply Z.div_lt_upper_bound; lia). lia.
  - apply Z.mod_pos_bound; lia.
  - pose proof (Z.mod_pos_bound d 10); lia.
Qed.

Lemma twoDigits_value d : digitsValue [d / 10; d mod 10] = d.
Proof. unfold digitsValue. cbn [fold_left]. pose proof (Z.div_mod d 10). lia. Qed.

Lemma spell_no_colon ds :
  Forall isDigitValue ds ->
  allChars (fun c => negb (Ascii.eqb c ":")) (spell ds) = true.
Proof.
  apply allChars_spell. intros d Hd. now rewrite digitChar_not_colon.
Qed.

Lemma spell_no_space ds :
  Forall isDigitValue ds ->
  allChars (fun c => negb (isWhiteSpace c)) (spell ds) = true.
Proof.
  apply allChars_spell. intros d Hd. now rewrite digitChar_not_space.
Qed.

(** Parsing what [formatTimestamp] writes below one hour. *)
Lemma parse_minutes_seconds dm m sec :
  Forall isDigitValue dm -> dm <> [] -> digitsValue dm = m -> 0 <= sec < 60 ->
  0 <= m -> m * 60 + sec < 2 ^ 53 ->
  parseTimestampLog (spell dm ++ ":" ++ twoDigits sec) = (m * 60 + sec, false).
Proof.
  intros Hdm Hne Hm Hsec Hm0 Hsafe. unfold parseTimestampLog.
  pose proof (twoDigits_digits sec Hsec) as Hds.
  rewrite twoDigits_spell, trim_no_space.
  2:{ rewrite allChars_app, spell_no_space by assumption.
      change (":" ++ spell [sec / 10; sec mod 10])%string
        with (String ":" (spell [sec / 10; sec mod 10])).
      cbn [allChars]. now rewrite spell_no_space. }
  change (":" ++ spell [sec / 10; sec mod 10])%string
    with (String ":" (spell [sec / 10; sec mod 10])).
  rewrite split_at_sep by now apply spell_no_colon.
  rewrite split_no_sep by now apply spell_no_colon.
  cbn [map]. rewrite !parseInt_spell by (assumption || discriminate).
  rewrite twoDigits_value, Hm. cbn [existsb isNaN orb].
  rewrite (numberOf_safe m), (numberOf_safe sec) by safe_integer.
  rewrite (numberOf_safe (m * 60)) by safe_integer.
  now rewrite (numberOf_safe (m * 60 + sec)) by safe_integer.
Qed.

(** Parsing what [formatTimestamp] writes from one hour on. *)
Lemma parse_hours_minutes_seconds dh h m sec :
  Forall isDigitValue dh -> dh <> [] -> digitsValue dh = h ->
  0 <= m < 60 -> 0 <= sec < 60 ->
  0 <= h -> h * 3600 + m * 60 + sec < 2 ^ 53 ->
  parseTimestampLog (spell dh ++ ":" ++ twoDigits m ++ ":" ++ twoDigits sec)
  = (h * 3600 + m * 60 + sec, false).
Proof.
  intros Hdh Hne Hh Hm Hsec Hh0 Hsafe. unfold parseTimestampLog.
  pose proof (twoDigits_digits m Hm) as Hdm.
  pose proof (twoDigits_digits sec Hsec) as Hds.
  rewrite !twoDigits_spell.
  change (":" ++ spell [sec / 10; sec mod 10])%string
    with (String ":" (spell [sec / 10; sec mod 10])).
  change (":" ++ spell [m / 10; m mod 10] ++ String ":" (spell [sec / 10; sec mod 10]))%string
    with (String ":" (spell [m / 10; m mod 10] ++ String ":" (spell [sec / 10; sec mod 10]))).
  rewrite trim_no_space.
  2:{ rewrite allChars_app, spell_no_space by assumption.
      cbn [allChars]. rewrite allChars_app, spell_no_space by assumption.
      cbn [allChars]. now rewrite spell_no_space. }
  rewrite split_at_sep by now apply spell_no_colon.
  rewrite split_at_sep by now apply spell_no_colon.
  rewrite split_no_sep by now apply spell_no_colon.
  cbn [map]. rewrite !parseInt_spell by (assumption || discriminate).
  rewrite !twoDigits_value, Hh. cbn [existsb isNaN orb].
  rewrite (numberOf_safe h), (numberOf_safe m), (numberOf_safe sec) by safe_integer.
  rewrite (numberOf_safe (h * 3600)), (numberOf_safe (m * 60)) by safe_integer.
  rewrite (numberOf_safe (h * 3600 + m * 60)) by safe_integer.
  now rewrite (numberOf_safe (h * 3600 + m * 60 + sec)) by safe_integer.
Qed.

Lemma hms_parts s :
  0 <= s ->
  let h := s / 3600 in
  let m := Z.rem s 3600 / 60 in
  let sec := Z.rem s 60 in
  0 <= h /\ 0 <= m < 60 /\ 0 <= sec < 60 /\ h * 3600 + m * 60 + sec = s
  /\ m = s mod 3600 / 60 /\ sec = s mod 60.
Proof.
  intros Hs. cbv zeta.
  rewrite !Z.rem_mod_nonneg by lia.
  Z.div_mod_to_equations. lia.
Qed.

(** In [formatTimestamp] the quotients are exact below [2^53]. *)
Lemma formatTimestamp_exact s :
  0 <= s < 2 ^ 53 ->
  formatTimestamp (inject_Z s)
  = let hours := s / 3600 in
    let minutes := Z.rem s 3600 / 60 in
    let secs := Z.rem s 60 in
    if 0 <? hours
    then (toString hours ++ ":" ++ padStart (toString minutes) 2 "0"
            ++ ":" ++ padStart (toString secs) 2 "0")%string
    else (toString minutes ++ ":" ++ padStart (toString secs) 2 "0")%string.
Proof.
  intros Hs. unfold formatTimestamp. rewrite Qfloor_Z.
  change 3600%Q with (inject_Z 3600). change 60%Q with (inject_Z 60).
  assert (Hr : 0 <= Z.rem s 3600 < 3600)
    by (rewrite Z.rem_mod_nonneg by lia; apply Z.mod_pos_bound; lia).
  rewrite !floor_of_quotient by safe_integer.
  reflexivity.
Qed.

Lemma formatTimestamp_below_hour s :
  0 <= s < 3600 ->
  formatTimestamp (inject_Z s) = (toString (s / 60) ++ ":" ++ twoDigits (s mod 60))%string.
Proof.
  intros Hs. rewrite formatTimestamp_exact by safe_integer. cbv zeta.
  destruct (hms_parts s) as (_ & _ & Hsec & _ & _ & Es); [lia|].
  rewrite (Z.div_small s 3600) by lia.
  rewrite (Z.rem_small s 3600) by lia.
  change (0 <? 0) with false. cbv iota.
  rewrite padStart_two by assumption. now rewrite Es.
Qed.

Lemma formatTimestamp_from_hour s :
  3600 <= s < 2 ^ 53 ->
  formatTimestamp (inject_Z s)
  = (toString (s / 3600) ++ ":" ++ twoDigits (s mod 3600 / 60)
       ++ ":" ++ twoDigits (s mod 60))%string.
Proof.
  intros Hs. rewrite formatTimestamp_exact by safe_integer. cbv zeta.
  destruct (hms_parts s) as (_ & Hm & Hsec & _ & Em & Es); [lia|].
  assert (0 < s / 3600) by (apply Z.div_str_pos; lia).
  destruct (Z.ltb_spec 0 (s / 3600)) as [_|?]; [|lia].
  rewrite !padStart_two by assumption. now rewrite Em, Es.
Qed.

Lemma firstChar_toString n :
  0 < n -> firstChar (toString n) <> Some "0"%char.
Proof.
  intros Hn. destruct (toString_spells n) as (ds & -> & Hd & Hne & _ & Hl); [lia|].
  destruct ds as [|d ds]; [congruence|]. simpl in *.
  specialize (Hl Hn). inversion Hd as [|? ? Hd1 _]; subst.
  destruct (digit_cases d Hd1) as [?|[?|[?|[?|[?|[?|[?|[?|[?|?]]]]]]]]];
    subst d; try lia; discriminate.
Qed.

Lemma firstChar_app a b :
  a <> EmptyString -> firstChar (a ++ b) = firstChar a.
Proof. destruct a; [congruence | reflexivity]. Qed.

Lemma toString_nonempty n : 0 <= n -> toString n <> EmptyString.
Proof.
  intros Hn. destruct (toString_spells n Hn) as (ds & -> & _ & Hne & _).
  destruct ds; [congruence | discriminate].
Qed.

(** C5 does not hold for every whole number of seconds: the sums of
    [parseTimestamp] are sums of doubles.  [2^55 + 56] is a whole number of
    seconds that a [number] holds; it is written with its exact hours,
    minutes and seconds, and read back 8 seconds short. *)
Lemma formatTimestamp_roundtrip_fails_past_2_53 :
  0 <= 36028797018964024
  /\ numberOf 36028797018964024 = 36028797018964024
  /\ formatTimestamp (inject_Z 36028797018964024) = "10007999171934:27:04"%string
  /\ parseTimestamp (formatTimestamp (inject_Z 36028797018964024)) = 36028797018964016
  /\ parseTimestamp (formatTimestamp (inject_Z 36028797018964024)) <> 36028797018964024.
Proof.
  assert (E : parseTimestamp (formatTimestamp (inject_Z 36028797018964024))
              = 36028797018964016) by (vm_compute; reflexivity).
  split; [lia|]. split; [vm_compute; reflexivity|]. split; [vm_compute; reflexivity|].
  split; [exact E|]. rewrite E. discriminate.
Qed.

(** C5, amended.  Formatting a whole non-negative number of seconds below
    [2^53] and parsing the result gives the number back.  The text written is
    minutes, a colon and two digits of seconds below one hour, and hours, two
    digits of minutes and two digits of seconds from one hour on; the leading
    unit is written by [toString] and so starts with the digit zero only when
    the whole text is below one minute; and the text written for any number
    of seconds is the one written for its floor. *)
Theorem formatTimestamp_roundtrip (s : Z) :
  0 <= s < 2 ^ 53 ->
  parseTimestamp (formatTimestamp (inject_Z s)) = s
  /\ (s < 3600 ->
      formatTimestamp (inject_Z s)
      = (toString (s / 60) ++ ":" ++ twoDigits (s mod 60))%string)
  /\ (3600 <= s ->
      formatTimestamp (inject_Z s)
      = (toString (s / 3600) ++ ":" ++ twoDigits (s mod 3600 / 60)
           ++ ":" ++ twoDigits (s mod 60))%string)
  /\ (60 <= s -> firstChar (formatTimestamp (inject_Z s)) <> Some "0"%char)
  /\ (forall q : Q, Qfloor q = s -> formatTimestamp q = formatTimestamp (inject_Z s)).
Proof.
  intros [Hs Hsafe].
  destruct (hms_parts s Hs) as (Hh & Hm & Hsec & Esum & Em & Es).
  assert (Hshape1 := formatTimestamp_below_hour s).
  assert (Hshape2 := formatTimestamp_from_hour s).
  split; [|split; [|split; [|split]]].
  - unfold parseTimestamp. destruct (Z_lt_le_dec s 3600) as [Hlt|Hge].
    + rewrite Hshape1 by lia.
      assert (0 <= s / 60) by (apply Z.div_pos; lia).
      pose proof (Z.div_mod s 60 ltac:(lia)) as Hdm.
      pose proof (Z.mod_pos_bound s 60 ltac:(lia)) as Hmod.
      destruct (toString_spells (s / 60)) as (dm & -> & Hd & Hne & Hv & _); [lia|].
      rewrite (parse_minutes_seconds dm (s / 60) (s mod 60));
        try assumption; try safe_integer.
      cbn [fst]. lia.
    + rewrite Hshape2 by lia.
      destruct (toString_spells (s / 3600)) as (dh & -> & Hd & Hne & Hv & _); [lia|].
      rewrite (parse_hours_minutes_seconds dh (s / 3600) (s mod 3600 / 60) (s mod 60));
        try assumption; try safe_integer.
      cbn [fst]. lia.
  - intros Hlt. apply Hshape1. lia.
  - intros Hge. apply Hshape2. lia.
  - intros H60. destruct (Z_lt_le_dec s 3600) as [Hlt|Hge].
    + rewrite Hshape1 by lia.
      assert (0 < s / 60) by (apply Z.div_str_pos; lia).
      rewrite firstChar_app by (apply toString_nonempty; lia).
      apply firstChar_toString. assumption.
    + rewrite Hshape2 by lia.
      assert (0 < s / 3600) by (apply Z.div_str_pos; lia).
      rewrite firstChar_app by (apply toString_nonempty; lia).
      apply firstChar_toString. assumption.
  - intros q Hq. unfold formatTimestamp. now rewrite Qfloor_Z, Hq.
Qed.

Lemma formatTimestamp_roundtrip_witness :
  parseTimestamp (formatTimestamp (inject_Z 3750)) = 3750
  /\ formatTimestamp (inject_Z 3750) = "1:02:30"%string.
Proof.
  split.
  - exact (proj1 (formatTimestamp_roundtrip 3750 ltac:(safe_integer))).
  - vm_compute. reflexivity.
Defined.

End TimestampFacts.

Section ParseFacts.
Import JS Transcript.






End ParseFacts.

(** * Segment queries *)

Section SegmentFacts.
Import JS Transcript.

Local Open Scope Q_scope.

Lemma skipn_cons_inv {A} (l : list A) : forall i x rest,
  skipn i l = x :: rest ->
  nth_error l i = Some x /\ skipn (i + 1) l = rest.
Proof.
  induction l as [|a l IH]; intros [|i] x rest H; cbn in *; try discriminate.
  - injection H as -> ->. split; reflexivity.
  - now apply IH.
Qed.

Lemma findSegmentLoop_scan segments t : forall k i,
  k = List.length (skipn i segments) ->
  findSegmentLoop segments t i k = scan (skipn i segments) t.
Proof.
  induction k as [|k IH]; intros i Hk.
  - destruct (skipn i segments); [reflexivity | discriminate].
  - destruct (skipn i segments) as [|s rest] eqn:E; [discriminate|].
    destruct (skipn_cons_inv segments i s rest E) as [Hi Hrest].
    cbn [findSegmentLoop scan]. unfold at_index. rewrite Hi.
    injection Hk as Hk.
    assert (Hnext : option_map startTime (nth_error segments (i + 1))
                    = match rest with s' :: _ => Some (startTime s') | [] => None end).
    { destruct rest as [|s' rest'].
      - rewrite (proj2 (nth_error_None segments (i + 1))); [reflexivity|].
        rewrite <- (firstn_skipn (i + 1) segments), Hrest, app_nil_r.
        rewrite length_firstn. lia.
      - destruct (skipn_cons_inv segments (i + 1) s' rest' Hrest) as [-> _].
        reflexivity. }
    rewrite Hnext, (IH (i + 1)%nat) by (now rewrite Hrest).
    rewrite Hrest. destruct rest; reflexivity.
Qed.

Lemma findSegmentAtTime_scan segments t :
  findSegmentAtTime segments t = scan segments t.
Proof. unfold findSegmentAtTime. now rewrite (findSegmentLoop_scan segments t _ 0%nat). Qed.

Lemma ascending_tail a l : ascending (a :: l) -> ascending l.
Proof. destruct l; cbn; tauto. Qed.

Lemma ascending_head_le b l : ascending (b :: l) ->
  forall i s, nth_error (b :: l) i = Some s -> startTime b <= startTime s.
Proof.
  revert b. induction l as [|c l IH]; intros b Hasc [|i] s Hs; cbn in Hs.
  - injection Hs as ->. lra.
  - destruct i; discriminate.
  - injection Hs as ->. lra.
  - destruct Hasc as [Hbc Hrest].
    specialize (IH c Hrest i s Hs). lra.
Qed.

Lemma Qle_bool_false x y : Qle_bool x y = false <-> y < x.
Proof.
  split; intros H.
  - apply Qnot_le_lt. intros Hle. apply Qle_bool_iff in Hle. congruence.
  - destruct (Qle_bool x y) eqn:E; [|reflexivity].
    apply Qle_bool_iff in E. lra.
Qed.

Lemma scan_complete l t : ascending l ->
  forall i s, nth_error l i = Some s -> startTime s <= t ->
  (forall s', nth_error l (S i) = Some s' -> t < startTime s') ->
  scan l t = Some s.
Proof.
  induction l as [|a l IH]; intros Hasc [|i] s Hs Hle Hnext; cbn in Hs; try discriminate.
  - injection Hs as ->. cbn [scan].
    rewrite (proj2 (Qle_bool_iff _ _) Hle).
    destruct l as [|b l]; [reflexivity|].
    specialize (Hnext b eq_refl). apply Qle_bool_false in Hnext.
    now rewrite Hnext.
  - cbn [scan]. destruct l as [|b l]; [destruct i; discriminate|].
    pose proof (ascending_head_le b l (ascending_tail _ _ Hasc) i s Hs) as Hb.
    assert (Hbt : Qle_bool (startTime b) t = true) by (apply Qle_bool_iff; lra).
    rewrite Hbt, andb_false_r.
    apply (IH (ascending_tail _ _ Hasc) i s Hs Hle). exact Hnext.
Qed.

Lemma scan_sound l t : forall s, scan l t = Some s ->
  exists i, nth_error l i = Some s /\ startTime s <= t
            /\ forall s', nth_error l (S i) = Some s' -> t < startTime s'.
Proof.
  induction l as [|a l IH]; intros s H; cbn [scan] in H; [discriminate|].
  destruct (Qle_bool (startTime a) t
            && match l with s' :: _ => negb (Qle_bool (startTime s') t) | [] => true end) eqn:E.
  - injection H as <-. apply andb_prop in E as [E1 E2].
    exists 0%nat. split; [reflexivity|]. split; [now apply Qle_bool_iff|].
    intros s' Hs'. destruct l as [|b l]; cbn in Hs'; [discriminate|].
    injection Hs' as <-. apply negb_true_iff in E2. now apply Qle_bool_false.
  - destruct (IH s H) as (i & Hi & Hle & Hn). exists (S i). auto.
Qed.

Lemma scan_before_first l t : ascending l ->
  forall s0, nth_error l 0 = Some s0 -> t < startTime s0 -> scan l t = None.
Proof.
  induction l as [|a l IH]; intros Hasc s0 H0 Hlt; cbn in H0; [discriminate|].
  injection H0 as ->. cbn [scan].
  rewrite (proj2 (Qle_bool_false _ _) Hlt). cbn [andb].
  destruct l as [|b l]; [reflexivity|].
  apply (IH (ascending_tail _ _ Hasc) b eq_refl).
  destruct Hasc as [Hab _]. lra.
Qed.

Lemma scan_from_first l t :
  forall s0, nth_error l 0 = Some s0 -> startTime s0 <= t ->
  exists s, scan l t = Some s.
Proof.
  induction l as [|a l IH]; intros s0 H0 Hle; cbn in H0; [discriminate|].
  injection H0 as ->. cbn [scan].
  rewrite (proj2 (Qle_bool_iff _ _) Hle). cbn [andb].
  destruct l as [|b l]; [eauto|].
  destruct (Qle_bool (startTime b) t) eqn:E; cbn [negb]; [|eauto].
  apply (IH b eq_refl). now apply Qle_bool_iff.
Qed.

(** C7. On a list of segments whose start times ascend strictly,
    [findSegmentAtTime] returns the segment [s_i] with
    [s_i.startTime <= t < s_(i+1).startTime], the upper bound being absent
    for the last segment; it returns such a segment and no other; one exists
    as soon as [t] is not before the first start; and it returns [null] on
    the empty list, when [t] precedes the first start, and for every negative
    [t] when no start time is negative. *)
Theorem findSegmentAtTime_spec (segments : list TranscriptSegment) (t : Q) :
  ascending segments ->
  (forall i s, nth_error segments i = Some s ->
     startTime s <= t ->
     (forall s', nth_error segments (S i) = Some s' -> t < startTime s') ->
     findSegmentAtTime segments t = Some s)
  /\ (forall s, findSegmentAtTime segments t = Some s ->
        exists i, nth_error segments i = Some s /\ startTime s <= t
                  /\ forall s', nth_error segments (S i) = Some s' -> t < startTime s')
  /\ (forall s0, nth_error segments 0 = Some s0 -> startTime s0 <= t ->
        exists s, findSegmentAtTime segments t = Some s)
  /\ (segments = [] -> findSegmentAtTime segments t = None)
  /\ (forall s0, nth_error segments 0 = Some s0 -> t < startTime s0 ->
        findSegmentAtTime segments t = None)
  /\ (t < 0 -> Forall (fun s => 0 <= startTime s) segments ->
        findSegmentAtTime segments t = None).
Proof.
  intros Hasc. rewrite findSegmentAtTime_scan.
  repeat match goal with |- _ /\ _ => split end.
  - now apply scan_complete.
  - apply scan_sound.
  - apply scan_from_first.
  - intros ->. reflexivity.
  - now apply scan_before_first.
  - intros Hneg Hall. destruct segments as [|s0 rest]; [reflexivity|].
    apply (scan_before_first _ _ Hasc s0 eq_refl).
    inversion Hall; subst. lra.
Qed.

Lemma findSegmentAtTime_spec_witness :
  findSegmentAtTime abc 15 = Some (mkSegment 1 10 "b" 1)
  /\ findSegmentAtTime abc 25 = Some (mkSegment 2 20 "c" 2)
  /\ findSegmentAtTime abc (-1) = None.
Proof.
  assert (Hasc : ascending abc) by (cbn; repeat split; reflexivity).
  split; [|split].
  - refine (proj1 (findSegmentAtTime_spec abc 15 Hasc) 1%nat _ eq_refl _ _).
    + cbn. discriminate.
    + intros s' [= <-]. reflexivity.
  - refine (proj1 (findSegmentAtTime_spec abc 25 Hasc) 2%nat _ eq_refl _ _).
    + cbn. discriminate.
    + intros s' [=].
  - refine (proj1 (proj2 (proj2 (proj2 (proj2 (findSegmentAtTime_spec abc (-1) Hasc)))))
              _ eq_refl _).
    reflexivity.
Defined.

End SegmentFacts.

(** * Text of a range *)

Section RangeFacts.
Import JS Transcript.

Local Open Scope Q_scope.

Lemma inRangeb_spec a b seg : inRangeb a b seg = true <-> inRange a b seg.
Proof.
  unfold inRangeb, inRange. rewrite andb_true_iff, negb_true_iff.
  rewrite Qle_bool_iff, Qle_bool_false. tauto.
Qed.

Lemma filter_keeps {A} (p : A -> bool) (P : A -> Prop) :
  (forall x, p x = true <-> P x) ->
  forall l, keeps P l (filter p l).
Proof.
  intros Hp. induction l as [|x l IH]; cbn [filter]; [constructor|].
  destruct (p x) eqn:E.
  - apply keeps_take; [now apply Hp | assumption].
  - apply keeps_drop; [|assumption]. intros HP. apply Hp in HP. congruence.
Qed.

Lemma keeps_unique {A} (P : A -> Prop) l : forall s1 s2,
  keeps P l s1 -> keeps P l s2 -> s1 = s2.
Proof.
  induction l as [|x l IH]; intros s1 s2 H1 H2; inversion H1; inversion H2; subst;
    try reflexivity; try contradiction.
  - f_equal. now apply IH.
  - now apply IH.
Qed.

Lemma concat_empty_cons a l : concat "" (a :: l) = (a ++ concat "" l)%string.
Proof. destruct l; cbn [concat]; [now rewrite string_app_nil_r | reflexivity]. Qed.

Lemma join_cons_cons sep x y rest :
  join sep (x :: y :: rest) = (x ++ sep ++ join sep (y :: rest))%string.
Proof. reflexivity. Qed.

Lemma join_spaced texts : join " " texts = spaced texts.
Proof.
  destruct texts as [|x rest]; [reflexivity|]. cbn [spaced].
  revert x. induction rest as [|y rest IH]; intros x.
  - cbn. now rewrite string_app_nil_r.
  - rewrite join_cons_cons, (IH y). cbn [map].
    rewrite concat_empty_cons, string_app_assoc. reflexivity.
Qed.

Lemma filter_remove_middle {A} (p : A -> bool) l1 x l2 :
  p x = false -> filter p (l1 ++ x :: l2) = filter p (l1 ++ l2).
Proof. intros H. rewrite !filter_app. cbn [filter]. now rewrite H. Qed.

(** C8. [getTextForRange] joins with single spaces the texts of exactly the
    segments whose start time lies in the half-open range, in list order; a
    segment that starts exactly at the end of the range adds nothing; the
    empty list gives the empty string. *)
Theorem getTextForRange_spec (segments : list TranscriptSegment) (startTime' endTime' : Q) :
  (exists sel,
      keeps (inRange startTime' endTime') segments sel
      /\ getTextForRange segments startTime' endTime' = spaced (map text sel))
  /\ (forall sel, keeps (inRange startTime' endTime') segments sel ->
        getTextForRange segments startTime' endTime' = spaced (map text sel))
  /\ (forall l1 seg l2, segments = l1 ++ seg :: l2 -> startTime seg == endTime' ->
        getTextForRange segments startTime' endTime'
        = getTextForRange (l1 ++ l2) startTime' endTime')
  /\ getTextForRange [] startTime' endTime' = EmptyString.
Proof.
  pose proof (filter_keeps (inRangeb startTime' endTime') _
                (inRangeb_spec startTime' endTime') segments) as Hk.
  assert (Hget : getTextForRange segments startTime' endTime'
                 = spaced (map text (filter (inRangeb startTime' endTime') segments))).
  { unfold getTextForRange. apply join_spaced. }
  split; [|split; [|split]].
  - eexists. split; [exact Hk | exact Hget].
  - intros sel Hsel. rewrite Hget. f_equal. f_equal.
    apply (keeps_unique _ _ _ _ Hk Hsel).
  - intros l1 seg l2 -> Heq. unfold getTextForRange.
    change (fun seg0 => Qle_bool startTime' (startTime seg0)
                        && negb (Qle_bool endTime' (startTime seg0)))
      with (inRangeb startTime' endTime').
    rewrite filter_remove_middle; [reflexivity|].
    unfold inRangeb. apply andb_false_iff. right. apply negb_false_iff.
    apply Qle_bool_iff. lra.
  - reflexivity.
Qed.

Lemma getTextForRange_spec_witness :
  getTextForRange (abc ++ [mkSegment 3 20 "d" 3; mkSegment 4 15 "e" 4]) 10 20 = "b e"%string
  /\ getTextForRange abc 10 20 = getTextForRange [mkSegment 0 0 "a" 0; mkSegment 1 10 "b" 1] 10 20.
Proof.
  split.
  - refine (proj1 (proj2 (getTextForRange_spec _ 10 20)) [mkSegment 1 10 "b" 1; mkSegment 4 15 "e" 4] _).
    unfold abc, inRange. cbn [app].
    apply keeps_drop; [cbn [startTime]; intros [? ?]; lra|].
    apply keeps_take; [cbn [startTime]; split; lra|].
    apply keeps_drop; [cbn [startTime]; intros [? ?]; lra|].
    apply keeps_drop; [cbn [startTime]; intros [? ?]; lra|].
    apply keeps_take; [cbn [startTime]; split; lra|].
    constructor.
  - refine (proj1 (proj2 (proj2 (getTextForRange_spec abc 10 20)))
              [mkSegment 0 0 "a" 0; mkSegment 1 10 "b" 1] (mkSegment 2 20 "c" 2) [] eq_refl _).
    reflexivity.
Defined.

End RangeFacts.

(** * The loop controller *)

Section ControllerFacts.
Import JS Player.

Local Open Scope Q_scope.

#[local] Arguments Math_min : simpl never.
#[local] Arguments Math_max : simpl never.
#[local] Arguments Qle_bool : simpl never.

Lemma Math_min_max_le a b : Math_min a b <= Math_max a b.
Proof.
  unfold Math_min, Math_max. destruct (Qle_bool a b) eqn:E.
  - now apply Qle_bool_iff.
  - apply Qle_bool_false in E. lra.
Qed.

Lemma Math_min_max_lt a b : ~ a == b -> Math_min a b < Math_max a b.
Proof.
  intros Hne. unfold Math_min, Math_max. destruct (Qle_bool a b) eqn:E.
  - apply Qle_bool_iff in E. lra.
  - now apply Qle_bool_false in E.
Qed.

Lemma Math_min_cases a b :
  (Math_min a b = a /\ Math_max a b = b /\ a <= b)
  \/ (Math_min a b = b /\ Math_max a b = a /\ b < a).
Proof.
  unfold Math_min, Math_max. destruct (Qle_bool a b) eqn:E.
  - left. apply Qle_bool_iff in E. auto.
  - right. apply Qle_bool_false in E. auto.
Qed.

Ltac open_world w :=
  destruct w as [[st en ac iid lst] [v tm nx] tr].

Ltac run_method :=
  cbv [step exec setStart setEnd setLoop clear destroy activate timerFires
       monitorTick startMonitoring stopMonitoring notifyStateChange getState
       seekTo getCurrentTime getVideoPlayer setInterval clearInterval
       snapshot isSettingStart
       bind ret getThis setThis getHost setHost emit
       set_startTime set_endTime set_isActive set_intervalId set_onStateChange
       this host trace startTime endTime isActive intervalId onStateChange
       video timers nextTimer fst snd].

Lemma filter_self_out id : filter (fun i => negb (Nat.eqb i id)) [id] = [].
Proof. cbn. now rewrite Nat.eqb_refl. Qed.

Lemma monitorTick_eq w :
  monitorTick w
  = (tt, mkWorld (this w)
           (match due w, video (host w) with
            | Some s, Some _ => mkHost (Some s) (timers (host w)) (nextTimer (host w))
            | _, _ => host w
            end)
           (trace w ++ tickCalls w)).
Proof.
  unfold tickCalls, due, position. open_world w.
  destruct ac, st as [s|], en as [e|]; run_method; rewrite ?app_nil_r; try reflexivity.
  destruct v as [p|]; run_method;
    match goal with |- context [Qle_bool ?x ?y] => destruct (Qle_bool x y) end;
    rewrite <- ?app_assoc, ?app_nil_r; reflexivity.
Qed.

Lemma timerFires_eq id w :
  timerFires id w
  = (tt, if existsb (Nat.eqb id) (timers (host w)) then snd (monitorTick w) else w).
Proof.
  unfold timerFires, bind, getHost, ret.
  destruct (existsb (Nat.eqb id) (timers (host w))); [|reflexivity].
  now destruct (monitorTick w) as [[] w'].
Qed.

Lemma step_timerFires id w :
  this (step w (TimerFires id)) = this w
  /\ timers (host (step w (TimerFires id))) = timers (host w)
  /\ exists calls, trace (step w (TimerFires id)) = trace w ++ calls
                   /\ (calls = [] \/ calls = tickCalls w).
Proof.
  unfold step, exec. rewrite timerFires_eq.
  destruct (existsb (Nat.eqb id) (timers (host w))).
  - rewrite monitorTick_eq. cbn [snd this host trace]. repeat split.
    + destruct (due w), (video (host w)); reflexivity.
    + eauto.
  - cbn [snd]. repeat split. exists []. rewrite app_nil_r. auto.
Qed.

Lemma step_ownTimer w a : ownTimer w -> ownTimer (step w a).
Proof.
  unfold ownTimer. destruct a as [t|t|a b| | |id|pv];
    try (open_world w; cbn [this host intervalId timers]; intros ->;
         destruct st, en, ac, iid, lst, v; run_method;
         try reflexivity; apply filter_self_out).
  - destruct (step_timerFires id w) as (-> & -> & _). auto.
Qed.

Lemma step_boundsShape w a : boundsShape (this w) -> boundsShape (this (step w a)).
Proof.
  unfold boundsShape. destruct a as [t|t|a b| | |id|pv];
    try (open_world w; destruct st, en, ac, iid, lst, v; run_method; tauto).
  - destruct (step_timerFires id w) as (-> & _). auto.
Qed.

Lemma run_invariant (P : World -> Prop) :
  (forall w a, P w -> P (step w a)) ->
  forall acts w, P w -> P (run acts w).
Proof.
  intros Hstep. induction acts as [|a acts IH]; intros w Hw; [assumption|].
  cbn [run fold_left]. apply IH, Hstep, Hw.
Qed.

Lemma reachable_ownTimer cb v acts : ownTimer (run acts (initial cb v)).
Proof. apply run_invariant; [apply step_ownTimer | reflexivity]. Qed.

Lemma reachable_boundsShape cb v acts : boundsShape (this (run acts (initial cb v))).
Proof.
  apply (run_invariant (fun w => boundsShape (this w)));
    [apply step_boundsShape | exact I].
Qed.

(** ** [setStart] *)

(** C1 does not hold as the specification states it: on an active loop [setStart] keeps the
    end bound, the active flag and the polling timer. *)
Lemma setStart_on_active_keeps_end :
  let w := run [SetLoop 10 20; SetStart 30] (initial None (Some 0)) in
  startTime (this w) = Some 30
  /\ endTime (this w) = Some 20
  /\ endTime (this w) <> None
  /\ isActive (this w) = true
  /\ intervalId (this w) = Some 1%nat
  /\ timers (host w) = [1%nat].
Proof. cbv zeta. repeat split. discriminate. Qed.

(** C1, amended.  In every state [setStart(t)] sets [startTime] to [t] and
    changes nothing else: the end bound, the active flag, the timer handle
    and the page are as before.  So from a state with no end bound and not
    active (Idle or SettingStart) the result is SettingStart with
    [startTime = t] and [endTime = null], and from Active the loop stays
    active with its end bound and keeps polling. *)
Theorem setStart_replaces_start (w : World) (time : Q) :
  let w' := step w (SetStart time) in
  startTime (this w') = Some time
  /\ endTime (this w') = endTime (this w)
  /\ isActive (this w') = isActive (this w)
  /\ intervalId (this w') = intervalId (this w)
  /\ host w' = host w
  /\ (endTime (this w) = None -> isActive (this w) = false ->
        fst (isSettingStart w') = true
        /\ snapshot w' = LoopState.make false (Some time) None).
Proof.
  cbv zeta. open_world w. destruct lst; run_method.
  all: repeat split; intros; subst; reflexivity.
Qed.

Lemma setStart_replaces_start_witness :
  snapshot (step (initial (Some 7%nat) None) (SetStart 5)) = LoopState.make false (Some 5) None.
Proof.
  exact (proj2 (proj2 (proj2 (proj2 (proj2 (proj2
           (setStart_replaces_start (initial (Some 7%nat) None) 5)))))
                  eq_refl eq_refl)).
Defined.

(** ** The bounds of reachable states *)

Lemma step_ordered w a :
  match a with SetStart _ => endTime (this w) = None | _ => True end ->
  ordered (this w) -> ordered (this (step w a)).
Proof.
  unfold ordered. destruct a as [t|t|a b| | |id|pv].
  6:{ destruct (step_timerFires id w) as (-> & _). auto. }
  all: open_world w; destruct st, en, ac, iid, lst, v; run_method;
    intros; try discriminate; try tauto; try apply Math_min_max_le.
Qed.

Lemma run_ordered acts : forall w,
  startsFresh acts w -> ordered (this w) -> ordered (this (run acts w)).
Proof.
  induction acts as [|a acts IH]; intros w Hf Ho; [assumption|].
  destruct Hf as [Ha Hrest]. cbn [run fold_left].
  apply IH; [assumption | now apply step_ordered].
Qed.

(** C2. [setEnd] orders the two times with [Math.min] and [Math.max] under
    the comment "Ensure start < end", and misses the case of equal times:
    [setStart(5)] followed by [setEnd(5)] leaves an active loop whose two
    bounds are 5, and so does [setEnd(t)] after [setStart(t)] from any state.
    On the page the position is then sought again at every tick. *)
Theorem setEnd_at_start_gives_equal_bounds :
  (let w := run [SetStart 5; SetEnd 5] (initial None (Some 0)) in
   snapshot w = LoopState.make true (Some 5) (Some 5)
   /\ ~ 5 < 5
   /\ due w = Some 5
   /\ due (snd (monitorTick w)) = Some 5)
  /\ (forall (w : World) (t : Q),
        let w' := step (step w (SetStart t)) (SetEnd t) in
        startTime (this w') = Some t /\ endTime (this w') = Some t
        /\ isActive (this w') = true).
Proof.
  cbv zeta. split.
  - split; [reflexivity|]. split; [intros H; discriminate H|].
    split; reflexivity.
  - intros w t. open_world w.
    assert (Emin : Math_min t t = t) by (unfold Math_min; now destruct (Qle_bool t t)).
    assert (Emax : Math_max t t = t) by (unfold Math_max; now destruct (Qle_bool t t)).
    destruct st, en, iid, lst, v; run_method; fold (Math_min t t); fold (Math_max t t);
      rewrite ?Emin, ?Emax; auto.
Qed.

(** What the bounds look like in the reachable states: the loop is active
    exactly when both bounds are set, and an end bound is never set without
    a start bound; [setLoop], and [setEnd] when a start is set, store the
    smaller and the larger of the two times. *)
Lemma reachable_bounds (cb : option listener) (v : option Q) (acts : list action) :
  let w := run acts (initial cb v) in
  (isActive (this w) = true <-> startTime (this w) <> None /\ endTime (this w) <> None)
  /\ (endTime (this w) <> None -> startTime (this w) <> None)
  /\ (forall a b, let w' := step w (SetLoop a b) in
        startTime (this w') = Some (Math_min a b)
        /\ endTime (this w') = Some (Math_max a b)
        /\ Math_min a b <= Math_max a b
        /\ (~ a == b -> Math_min a b < Math_max a b))
  /\ (forall s t, startTime (this w) = Some s ->
        let w' := step w (SetEnd t) in
        startTime (this w') = Some (Math_min s t)
        /\ endTime (this w') = Some (Math_max s t)
        /\ Math_min s t <= Math_max s t
        /\ (~ s == t -> Math_min s t < Math_max s t))
  /\ (startsFresh acts (initial cb v) ->
      forall s e, startTime (this w) = Some s -> endTime (this w) = Some e -> s <= e).
Proof.
  cbv zeta.
  pose proof (reachable_boundsShape cb v acts) as Hshape.
  pose proof (run_ordered acts (initial cb v)) as Hord.
  unfold boundsShape, ordered in *.
  destruct (run acts (initial cb v)) as [[st en ac iid lst] [pv tm nx] tr].
  cbn [this startTime endTime isActive] in *.
  split; [|split; [|split; [|split]]].
  - destruct st, en, ac; try contradiction; split;
      try (intros [? ?]); try congruence; intros; split; congruence.
  - destruct st, en, ac; try contradiction; congruence.
  - intros a b. destruct iid, lst, pv; run_method;
      (split; [reflexivity|]; split; [reflexivity|]; split;
       [apply Math_min_max_le | apply Math_min_max_lt]).
  - intros s t ->. destruct en, iid, lst, pv; run_method;
      (split; [reflexivity|]; split; [reflexivity|]; split;
       [apply Math_min_max_le | apply Math_min_max_lt]).
  - intros Hf s e -> ->. apply (Hord Hf). exact I.
Qed.

Lemma reachable_bounds_witness :
  isActive (this (run [SetStart 5; SetEnd 2] (initial None None))) = true
  /\ 2 <= 5.
Proof.
  pose proof (reachable_bounds None None [SetStart 5; SetEnd 2]) as H.
  cbv zeta in H. destruct H as (Hact & _ & _ & _ & Hord).
  split.
  - apply Hact. split; discriminate.
  - apply Hord; [cbn; auto | reflexivity | reflexivity].
Defined.

(** ** [setEnd] *)

(** C3. Without a start bound [setEnd(t)] only logs a warning: the fields,
    the page and the timers are as before and the listener is not called.
    With a start bound [s] it sets [startTime] to the smaller and [endTime]
    to the larger of [s] and [t], makes the loop active, leaves exactly one
    polling timer live and calls [seekTo] once, with the new [startTime].
    [setStart(5)] followed by [setEnd(2)] gives
    [{startTime: 2, endTime: 5, isActive: true}]. *)
Theorem setEnd_spec (cb : option listener) (v : option Q) (acts : list action) (t : Q) :
  let w := run acts (initial cb v) in
  let w' := step w (SetEnd t) in
  (startTime (this w) = None ->
     this w' = this w /\ host w' = host w
     /\ trace w' = trace w ++ [Console Warn CannotSetEndWithoutStart])
  /\ (forall s, startTime (this w) = Some s ->
        let lo := Math_min s t in
        let hi := Math_max s t in
        startTime (this w') = Some lo
        /\ endTime (this w') = Some hi
        /\ isActive (this w') = true
        /\ (exists id, intervalId (this w') = Some id /\ timers (host w') = [id])
        /\ (exists calls, trace w' = trace w ++ calls /\ seeks calls = [lo])
        /\ lo <= s /\ lo <= t /\ s <= hi /\ t <= hi
        /\ (lo = s \/ lo = t) /\ (hi = s \/ hi = t))
  /\ snapshot (run [SetStart 5; SetEnd 2] (initial cb v))
     = LoopState.make true (Some 2) (Some 5).
Proof.
  cbv zeta.
  pose proof (reachable_ownTimer cb v acts) as Hown. unfold ownTimer in Hown.
  destruct (run acts (initial cb v)) as [[st en ac iid lst] [pv tm nx] tr].
  cbn [this host startTime intervalId timers trace] in *. subst tm.
  split; [|split].
  - intros ->. run_method. auto.
  - intros s ->.
    assert (Hmm : Math_min s t <= s /\ Math_min s t <= t /\ s <= Math_max s t
                  /\ t <= Math_max s t
                  /\ (Math_min s t = s \/ Math_min s t = t)
                  /\ (Math_max s t = s \/ Math_max s t = t)).
    { destruct (Math_min_cases s t) as [(-> & -> & ?)|(-> & -> & ?)];
        repeat split; auto; lra. }
    destruct iid, lst, pv; run_method;
      (split; [reflexivity|]; split; [reflexivity|]; split; [reflexivity|];
       split; [eexists; split; reflexivity|];
       split; [rewrite <- ?app_assoc; eexists; split; reflexivity|]; exact Hmm).
  - destruct cb, v; reflexivity.
Qed.

Lemma setEnd_spec_witness :
  (let w := initial None (Some 0) in
   this (step w (SetEnd 3)) = this w)
  /\ (let w' := run [SetStart 5; SetEnd 2] (initial None (Some 0)) in
      startTime (this w') = Some (Math_min 5 2) /\ endTime (this w') = Some (Math_max 5 2)).
Proof.
  cbv zeta. split.
  - exact (proj1 (proj1 (setEnd_spec None (Some 0) [] 3) eq_refl)).
  - pose proof (proj1 (proj2 (setEnd_spec None (Some 0) [SetStart 5] 2)) 5 eq_refl) as H.
    cbv zeta in H. split; [exact (proj1 H) | exact (proj1 (proj2 H))].
Defined.

(** ** Polling *)

Lemma seeks_app l1 l2 : seeks (l1 ++ l2) = seeks l1 ++ seeks l2.
Proof. unfold seeks. apply flat_map_app. Qed.

Lemma seeks_tickCalls w :
  seeks (tickCalls w) = match due w with Some s => [s] | None => [] end.
Proof. unfold tickCalls. destruct (due w), (video (host w)); reflexivity. Qed.

Lemma due_iff w target :
  due w = Some target
  <-> isActive (this w) = true /\ startTime (this w) = Some target
      /\ exists e, endTime (this w) = Some e /\ e <= position w.
Proof.
  unfold due.
  destruct (isActive (this w)), (startTime (this w)) as [s|], (endTime (this w)) as [e|];
    try (split; [discriminate | intros (? & ? & ? & ? & ?); discriminate]).
  destruct (Qle_bool e (position w)) eqn:E.
  - apply Qle_bool_iff in E. split.
    + intros [= <-]. eauto.
    + intros (_ & [= <-] & _). reflexivity.
  - apply Qle_bool_false in E. split; [discriminate|].
    intros (_ & _ & e' & [= <-] & Hle). lra.
Qed.

Lemma step_playback_this w pv : this (step w (Playback pv)) = this w.
Proof. reflexivity. Qed.

Lemma idle_passive_step w a :
  passive a = true -> isActive (this w) = false ->
  isActive (this (step w a)) = false /\ seeks (trace (step w a)) = seeks (trace w).
Proof.
  intros Hp Hidle. destruct a as [t|t|a b| | |id|pv]; try discriminate.
  - destruct (step_timerFires id w) as (-> & _ & calls & -> & Hc).
    split; [assumption|]. rewrite seeks_app.
    destruct Hc as [->| ->]; [apply app_nil_r|].
    rewrite seeks_tickCalls. unfold due. rewrite Hidle. apply app_nil_r.
  - split; [exact Hidle | reflexivity].
Qed.

Lemma idle_passive_run later : forall w,
  forallb passive later = true -> isActive (this w) = false ->
  seeks (trace (run later w)) = seeks (trace w).
Proof.
  induction later as [|a later IH]; intros w Hp Hidle; [reflexivity|].
  cbn [forallb] in Hp. apply andb_prop in Hp as [Ha Hl].
  destruct (idle_passive_step w a Ha Hidle) as [Hidle' Hs].
  cbn [run fold_left]. fold (run later (step w a)).
  now rewrite (IH _ Hl Hidle'), Hs.
Qed.

(** C4. A tick calls [seekTo] exactly when the loop is active with both
    bounds set and the playback position is at or past [endTime], and then
    once, with [startTime]; it changes no field of the controller.  With the
    loop [10, 20) and the position at 21 the tick seeks to 10.  After
    [clear()] the state is [{isActive: false, startTime: null, endTime: null}],
    no timer is live, and however the position moves and whichever timer
    fires no further [seekTo] is made. *)
Theorem poll_tick_spec (w : World) (cb : option listener) (v : option Q)
    (acts later : list action) :
  (let w' := snd (monitorTick w) in
   this w' = this w
   /\ exists calls, trace w' = trace w ++ calls
        /\ (forall target, In target (seeks calls) <->
              isActive (this w) = true /\ startTime (this w) = Some target
              /\ exists e, endTime (this w) = Some e /\ e <= position w)
        /\ (List.length (seeks calls) <= 1)%nat)
  /\ (let w0 := run [SetLoop 10 20; Playback (Some 21)] (initial cb (Some 0)) in
      trace (step w0 (TimerFires 1)) = trace w0 ++ [SeekTo 10])
  /\ (let wc := step (run acts (initial cb v)) Clear in
      snapshot wc = LoopState.make false None None
      /\ timers (host wc) = []
      /\ (forallb passive later = true ->
          seeks (trace (run later wc)) = seeks (trace wc))
      /\ (forall pv, due (step wc (Playback pv)) = None)).
Proof.
  cbv zeta. split; [|split].
  - rewrite monitorTick_eq. cbn [snd this trace]. split; [reflexivity|].
    exists (tickCalls w). split; [reflexivity|]. rewrite seeks_tickCalls. split.
    + intros target. rewrite <- due_iff. destruct (due w) as [s|]; cbn.
      * split; [intros [->|[]]; reflexivity | intros [= ->]; auto].
      * split; [tauto | discriminate].
    + destruct (due w); cbn; lia.
  - destruct cb; reflexivity.
  - pose proof (reachable_ownTimer cb v acts) as Hown. unfold ownTimer in Hown.
    assert (Hidle : isActive (this (step (run acts (initial cb v)) Clear)) = false).
    { destruct (run acts (initial cb v)) as [[st en ac iid lst] [pv tm nx] tr].
      destruct iid, lst; reflexivity. }
    split; [|split; [|split]].
    + destruct (run acts (initial cb v)) as [[st en ac iid lst] [pv tm nx] tr].
      destruct iid, lst; reflexivity.
    + destruct (run acts (initial cb v)) as [[st en ac iid lst] [pv tm nx] tr].
      cbn [this host intervalId timers] in Hown. subst tm.
      destruct iid, lst; run_method; try reflexivity; apply filter_self_out.
    + intros Hp. now apply idle_passive_run.
    + intros pv. unfold due. rewrite step_playback_this, Hidle. reflexivity.
Qed.

Lemma poll_tick_spec_witness :
  let wc := step (run [SetLoop 10 20] (initial None (Some 0))) Clear in
  seeks (trace (run [Playback (Some 25); TimerFires 1; TimerFires 2] wc)) = seeks (trace wc).
Proof.
  cbv zeta.
  exact (proj1 (proj2 (proj2 (proj2 (proj2
           (poll_tick_spec (initial None None) None (Some 0) [SetLoop 10 20]
              [Playback (Some 25); TimerFires 1%nat; TimerFires 2%nat])))))
           eq_refl).
Defined.

(** ** Notification *)

(** C9. Within a call of [setStart], [setLoop], [clear], or of [setEnd] when
    a start bound is set, the registered listener is called exactly once,
    and what it is handed is [{isActive, startTime, endTime}] with the values
    the three fields have when the call is over: [startTime] is [t] after
    [setStart(t)], the bounds are the smaller and the larger time and
    [isActive] is [true] after [setEnd] and [setLoop], and all is reset after
    [clear].  With no listener registered the call makes no notification and
    changes the fields all the same; [setEnd] without a start bound,
    [destroy] and the timer make no notification and leave the three fields
    as they were. *)
Theorem state_change_notified (w : World) (a : action) :
  let w' := step w a in
  let c' := this w' in
  (exists calls,
     trace w' = trace w ++ calls
     /\ notifications calls
        = if mutates a w
          then match onStateChange (this w) with
               | Some f =>
                   [(f, LoopState.make (isActive c') (startTime c') (endTime c'))]
               | None => []
               end
          else [])
  /\ match a with
     | SetStart t =>
         startTime c' = Some t /\ endTime c' = endTime (this w)
         /\ isActive c' = isActive (this w)
     | SetEnd t =>
         match startTime (this w) with
         | Some s =>
             startTime c' = Some (Math_min s t) /\ endTime c' = Some (Math_max s t)
             /\ isActive c' = true
         | None => c' = this w
         end
     | SetLoop x y =>
         startTime c' = Some (Math_min x y) /\ endTime c' = Some (Math_max x y)
         /\ isActive c' = true
     | Clear => startTime c' = None /\ endTime c' = None /\ isActive c' = false
     | Destroy | TimerFires _ | Playback _ =>
         startTime c' = startTime (this w) /\ endTime c' = endTime (this w)
         /\ isActive c' = isActive (this w)
     end.
Proof.
  cbv zeta. destruct a as [t|t|a b| | |id|pv].
  6:{ destruct (step_timerFires id w) as (Hthis & _ & calls & Htr & Hc).
      rewrite Hthis. split; [|auto].
      exists calls. split; [exact Htr|].
      destruct Hc as [->| ->]; [reflexivity|].
      unfold tickCalls. destruct (due w), (video (host w)); reflexivity. }
  all: open_world w; destruct st, en, iid, lst, v; run_method;
    rewrite <- ?app_assoc; cbn [app];
    (split;
     [ first [ eexists; split; [reflexivity|]; reflexivity
             | exists []; rewrite app_nil_r; split; reflexivity ]
     | auto ]).
Qed.

(** ** The polling timer *)

(** C10. In every reachable state the live timers are exactly the one whose
    handle the controller holds, so at most one.  With a handle held,
    [startMonitoring] returns without touching anything, and [setEnd] and
    [setLoop] keep the handle and create no timer.  After [clear] or
    [destroy] no handle is held and no timer is live, so a timer firing does
    nothing. *)
Theorem single_polling_timer (cb : option listener) (v : option Q) (acts : list action) :
  let w := run acts (initial cb v) in
  timers (host w) = match intervalId (this w) with Some id => [id] | None => [] end
  /\ (List.length (timers (host w)) <= 1)%nat
  /\ (forall id, intervalId (this w) = Some id -> startMonitoring w = (tt, w))
  /\ (forall id a, intervalId (this w) = Some id ->
        (exists t, a = SetEnd t) \/ (exists s e, a = SetLoop s e) ->
        intervalId (this (step w a)) = Some id
        /\ timers (host (step w a)) = [id]
        /\ nextTimer (host (step w a)) = nextTimer (host w))
  /\ (forall a, a = Clear \/ a = Destroy ->
        intervalId (this (step w a)) = None
        /\ timers (host (step w a)) = []
        /\ forall id, step (step w a) (TimerFires id) = step w a).
Proof.
  cbv zeta.
  pose proof (reachable_ownTimer cb v acts) as Hown. unfold ownTimer in Hown.
  destruct (run acts (initial cb v)) as [[st en ac iid lst] [pv tm nx] tr].
  cbn [this host intervalId timers nextTimer] in *. subst tm.
  split; [reflexivity|]. split; [destruct iid; cbn; lia|]. split; [|split].
  - intros id ->. reflexivity.
  - intros id a -> [[t ->]|[s [e ->]]];
      destruct st, en, lst, pv; run_method; auto.
  - intros a [->| ->]; destruct iid, lst; run_method;
      rewrite ?filter_self_out; cbn [existsb]; auto.
Qed.

Lemma single_polling_timer_witness :
  let w := run [SetStart 1; SetEnd 4] (initial None (Some 0)) in
  timers (host (step w (SetLoop 2 3))) = [1%nat]
  /\ timers (host (step w Clear)) = [].
Proof.
  cbv zeta.
  pose proof (single_polling_timer None (Some 0) [SetStart 1; SetEnd 4]) as H.
  cbv zeta in H. destruct H as (_ & _ & _ & Hkeep & Hstop).
  split.
  - apply (Hkeep 1%nat (SetLoop 2 3) eq_refl). right. eauto.
  - apply (Hstop Clear). now left.
Defined.

End ControllerFacts.

(** * Further properties of the controller *)

Section ControllerMore.
Import JS Player.

Local Open Scope Q_scope.

#[local] Arguments Math_min : simpl never.
#[local] Arguments Math_max : simpl never.
#[local] Arguments Qle_bool : simpl never.

Ltac open_world w :=
  destruct w as [[st en ac iid lst] [v tm nx] tr].

Ltac run_method :=
  cbv [step exec setStart setEnd setLoop clear destroy activate timerFires
       monitorTick startMonitoring stopMonitoring notifyStateChange getState
       seekTo getCurrentTime getVideoPlayer setInterval clearInterval
       snapshot isSettingStart
       bind ret getThis setThis getHost setHost emit
       set_startTime set_endTime set_isActive set_intervalId set_onStateChange
       this host trace startTime endTime isActive intervalId onStateChange
       video timers nextTimer fst snd].

(** X1. Reading the position after a seek gives the position sought: with a
    video element [seekTo(s)] returns [true] and [getCurrentTime()] is then
    [s]; without one it returns [false], logs the error, changes nothing on
    the page, and [getCurrentTime()] is 0.  The controller is never
    touched. *)
Theorem seekTo_then_getCurrentTime (s : Q) (w : World) :
  let r := seekTo s w in
  fst r = isSome (video (host w))
  /\ fst (getCurrentTime (snd r)) = (if fst r then s else 0)
  /\ this (snd r) = this w
  /\ timers (host (snd r)) = timers (host w)
  /\ (fst r = false ->
      host (snd r) = host w
      /\ trace (snd r) = trace w ++ [SeekTo s; Console Error VideoPlayerNotFound]).
Proof.
  cbv zeta. open_world w. destruct v; run_method; cbn [isSome];
    (split; [reflexivity|]); (split; [reflexivity|]); (split; [reflexivity|]);
    (split; [reflexivity|]); intros Hfalse; try discriminate Hfalse.
  split; [reflexivity | now rewrite <- app_assoc].
Qed.

Lemma seekTo_then_getCurrentTime_witness :
  host (snd (seekTo 7 (initial None None))) = host (initial None None).
Proof.
  exact (proj1 (proj2 (proj2 (proj2 (proj2
           (seekTo_then_getCurrentTime 7 (initial None None))))) eq_refl)).
Defined.

Lemma step_phase w a p :
  phaseOf (this w) = Some p -> phaseOf (this (step w a)) = Some (nextPhase p a).
Proof.
  destruct a as [t|t|a b| | |id|pv].
  6:{ destruct (step_timerFires id w) as (-> & _). auto. }
  all: open_world w; destruct st, en, ac, iid, lst, v; run_method;
    cbv [phaseOf startTime endTime isActive]; intros [= <-]; reflexivity.
Qed.

Lemma reachable_phase cb v acts :
  exists p, phaseOf (this (run acts (initial cb v))) = Some p.
Proof.
  apply (run_invariant (fun w => exists p, phaseOf (this w) = Some p)).
  - intros w a [p Hp]. exists (nextPhase p a). now apply step_phase.
  - exists Idle. reflexivity.
Qed.

(** X3. A fresh controller is Idle; every reachable state is one of Idle,
    SettingStart and Active; every action moves the state as the table
    [nextPhase] says (in particular [setStart] leaves an active loop active
    and [setEnd] leaves an idle controller idle); and [isSettingStart()]
    answers [true] exactly in SettingStart. *)
Theorem controller_follows_phases (cb : option listener) (v : option Q)
    (acts : list action) (a : action) :
  let w := run acts (initial cb v) in
  phaseOf (this (initial cb v)) = Some Idle
  /\ exists p, phaseOf (this w) = Some p
       /\ phaseOf (this (step w a)) = Some (nextPhase p a)
       /\ (fst (isSettingStart w) = true <-> p = SettingStart).
Proof.
  cbv zeta. split; [reflexivity|].
  destruct (reachable_phase cb v acts) as [p Hp]. exists p.
  split; [assumption|]. split; [now apply step_phase|].
  destruct (run acts (initial cb v)) as [[st en ac iid lst] [pv tm nx] tr].
  revert Hp. cbv [phaseOf isSettingStart bind getThis ret this startTime endTime isActive fst].
  destruct st, en, ac; intros [= <-]; cbn; split; congruence.
Qed.

Lemma step_without_listener w a :
  onStateChange (this w) = None ->
  onStateChange (this (step w a)) = None
  /\ notifications (trace (step w a)) = notifications (trace w).
Proof.
  destruct a as [t|t|a b| | |id|pv].
  6:{ destruct (step_timerFires id w) as (-> & _ & calls & -> & Hc).
      intros H. split; [assumption|]. unfold notifications. rewrite flat_map_app.
      destruct Hc as [->| ->]; [apply app_nil_r|].
      unfold tickCalls. destruct (due w), (video (host w)); apply app_nil_r. }
  all: open_world w; cbn [this onStateChange]; intros ->;
    destruct st, en, iid, v; run_method; (split; [reflexivity|]);
    unfold notifications; rewrite ?flat_map_app; cbn [flat_map app];
    rewrite ?app_nil_r; reflexivity.
Qed.

Lemma destroy_drops_listener w :
  onStateChange (this (step w Destroy)) = None
  /\ notifications (trace (step w Destroy)) = notifications (trace w).
Proof.
  open_world w. destruct iid; run_method; (split; [reflexivity|]);
    unfold notifications; rewrite ?flat_map_app; cbn [flat_map app];
    rewrite ?app_nil_r; reflexivity.
Qed.

Lemma run_without_listener acts : forall w,
  onStateChange (this w) = None ->
  notifications (trace (run acts w)) = notifications (trace w).
Proof.
  induction acts as [|a acts IH]; intros w Hnone; [reflexivity|].
  destruct (step_without_listener w a Hnone) as [Hnone' Hsame'].
  cbn [run fold_left]. fold (run acts (step w a)).
  now rewrite (IH _ Hnone'), Hsame'.
Qed.

(** X4. After [destroy()] the listener is never called again, whatever is
    done with the controller afterwards: the notifications in the trace stay
    those made before the call. *)
Theorem destroy_silences_listener (w : World) (acts : list action) :
  notifications (trace (run acts (step w Destroy))) = notifications (trace w).
Proof.
  destruct (destroy_drops_listener w) as [Hnone Hsame].
  now rewrite (run_without_listener acts _ Hnone).
Qed.

Lemma monitorTick_at_rest w :
  due w = None -> snd (monitorTick w) = w.
Proof.
  intros H. rewrite monitorTick_eq. unfold tickCalls. rewrite H.
  cbn [snd]. rewrite app_nil_r. now destruct w.
Qed.

(** X5. A tick on an active loop with a video element puts the position at
    [startTime] when it was at or past [endTime] and leaves it alone
    otherwise.  With [startTime < endTime] the position is then before
    [endTime] and a second tick changes nothing; with [endTime <= startTime]
    (equal bounds, or a start moved past the end) a position at or past
    [endTime] is sought again at every tick. *)
Theorem tick_returns_into_window (w : World) (s e p : Q) :
  isActive (this w) = true ->
  startTime (this w) = Some s ->
  endTime (this w) = Some e ->
  video (host w) = Some p ->
  let w' := snd (monitorTick w) in
  position w' = (if Qle_bool e p then s else p)
  /\ this w' = this w
  /\ (s < e -> position w' < e /\ snd (monitorTick w') = w')
  /\ (e <= s -> e <= p -> due w' = Some s).
Proof.
  intros Hact Hs He Hp. cbv zeta.
  assert (Hdue : due w = if Qle_bool e p then Some s else None).
  { unfold due, position. now rewrite Hact, Hs, He, Hp. }
  assert (Hthis : this (snd (monitorTick w)) = this w)
    by (rewrite monitorTick_eq; reflexivity).
  assert (Hpos : position (snd (monitorTick w)) = if Qle_bool e p then s else p).
  { rewrite monitorTick_eq. unfold position. cbn [snd host]. rewrite Hdue, Hp.
    destruct (Qle_bool e p); cbn [video]; [reflexivity | now rewrite Hp]. }
  split; [exact Hpos|]. split; [exact Hthis|]. split.
  - intros Hlt.
    assert (Hin : position (snd (monitorTick w)) < e).
    { rewrite Hpos. destruct (Qle_bool e p) eqn:E; [assumption|].
      now apply Qle_bool_false. }
    split; [assumption|]. apply monitorTick_at_rest.
    unfold due. rewrite Hthis, Hact, Hs, He.
    now rewrite (proj2 (Qle_bool_false _ _) Hin).
  - intros Hes Hep. unfold due. rewrite Hthis, Hact, Hs, He, Hpos.
    rewrite (proj2 (Qle_bool_iff _ _) Hep).
    now rewrite (proj2 (Qle_bool_iff _ _) Hes).
Qed.

Lemma tick_returns_into_window_witness :
  position (snd (monitorTick (run [SetLoop 10 20; Playback (Some 21)] (initial None (Some 0)))))
  = 10.
Proof.
  exact (proj1 (tick_returns_into_window
                  (run [SetLoop 10 20; Playback (Some 21)] (initial None (Some 0)))
                  10 20 21 eq_refl eq_refl eq_refl eq_refl)).
Defined.

End ControllerMore.

(** * Playback speed *)

Section MediaFacts.
Import JS Media.

Local Open Scope Q_scope.

Lemma clamp_cases rate :
  (rate < 1 # 4 /\ Math_max (1 # 4) (Math_min 2 rate) = 1 # 4)
  \/ (1 # 4 <= rate /\ rate < 2 /\ Math_max (1 # 4) (Math_min 2 rate) = rate)
  \/ (2 <= rate /\ Math_max (1 # 4) (Math_min 2 rate) = 2).
Proof.
  unfold Math_max, Math_min.
  destruct (Qle_bool 2 rate) eqn:E2.
  - right. right. apply Qle_bool_iff in E2. split; [assumption | reflexivity].
  - apply Qle_bool_false in E2. destruct (Qle_bool (1 # 4) rate) eqn:E1.
    + right. left. apply Qle_bool_iff in E1. auto.
    + left. apply Qle_bool_false in E1. auto.
Qed.

Lemma clamp_idempotent rate :
  Math_max (1 # 4) (Math_min 2 (Math_max (1 # 4) (Math_min 2 rate)))
  = Math_max (1 # 4) (Math_min 2 rate).
Proof.
  destruct (clamp_cases rate) as [[_ ->]|[(Hlo & Hhi & ->)|[_ ->]]];
    try reflexivity.
  destruct (clamp_cases rate) as [[H _]|[(_ & _ & ->)|[H _]]];
    [lra | reflexivity | lra].
Qed.

(** X2. With a video element [setPlaybackRate(rate)] succeeds and the rate
    read back is [rate] brought into the range from 0.25 to 2: [rate] itself
    inside the range, the nearer end outside it; every speed offered by the
    panel is set as it is; setting the rate read back changes nothing; the
    position and the paused flag are untouched.  Without a video element it
    returns [false], logs the error, and the rate read is 1. *)
Theorem setPlaybackRate_clamps (rate : Q) (video : HTMLVideoElement) :
  let r := setPlaybackRate rate (Some video) in
  let doc' := snd (fst r) in
  let x := getPlaybackRate doc' in
  fst (fst r) = true
  /\ 1 # 4 <= x /\ x <= 2
  /\ (1 # 4 <= rate -> rate <= 2 -> x == rate)
  /\ (1 # 4 <= rate -> rate < 2 -> x = rate)
  /\ (rate < 1 # 4 -> x = 1 # 4)
  /\ (2 < rate -> x = 2)
  /\ (In rate PLAYBACK_SPEEDS -> x = rate)
  /\ setPlaybackRate x doc' = (true, doc', [PlaybackRateSet x])
  /\ option_map currentTime doc' = Some (currentTime video)
  /\ option_map paused doc' = Some (paused video)
  /\ setPlaybackRate rate None = (false, None, [VideoPlayerNotFound])
  /\ getPlaybackRate None = 1.
Proof.
  cbv zeta. cbn [setPlaybackRate fst snd getPlaybackRate playbackRate option_map
                 currentTime paused].
  rewrite clamp_idempotent.
  destruct (clamp_cases rate) as [[Hlo ->]|[(Hlo & Hhi & ->)|[Hhi ->]]];
    repeat match goal with |- _ /\ _ => split end;
    try reflexivity; try (intros; lra); try discriminate.
  - intros [<-|[<-|[<-|[<-|[<-|[<-|[]]]]]]]; discriminate Hlo.
  - intros [<-|[<-|[<-|[<-|[<-|[<-|[]]]]]]]; try reflexivity;
      exfalso; apply Hhi; reflexivity.
Qed.

Lemma setPlaybackRate_clamps_witness :
  getPlaybackRate (snd (fst (setPlaybackRate 3 (Some (mkVideo 0 false 1))))) = 2
  /\ getPlaybackRate (snd (fst (setPlaybackRate (3 # 4) (Some (mkVideo 0 false 1))))) = 3 # 4.
Proof.
  pose proof (setPlaybackRate_clamps 3 (mkVideo 0 false 1)) as H3.
  pose proof (setPlaybackRate_clamps (3 # 4) (mkVideo 0 false 1)) as H1.
  cbv zeta in H3, H1.
  destruct H3 as (_ & _ & _ & _ & _ & _ & Hhi & _).
  destruct H1 as (_ & _ & _ & _ & _ & _ & _ & Hin & _).
  split; [apply Hhi; reflexivity | apply Hin; cbn; auto].
Defined.

End MediaFacts.

(** * The library page's timestamps *)

Section OptionsFacts.
Import JS.

#[local] Arguments toString : simpl never.
#[local] Arguments padStart : simpl never.

Lemma floor_of_sixtieth s :
  (0 <= s < 2 ^ 53)%Z -> Qfloor (toNumber (inject_Z s / 60)) = (s / 60)%Z.
Proof.
  intros Hs. change 60%Q with (inject_Z 60). apply floor_of_quotient; [exact Hs | lia].
Qed.

Lemma floor_of_remainder s :
  (0 <= s)%Z -> Qfloor (Options.remainder (inject_Z s) 60) = (s mod 60)%Z.
Proof.
  intros Hs.
  unfold Options.remainder, Options.Qtrunc, Qdiv, Qinv, Qminus, Qplus, Qopp, Qmult,
    inject_Z, Qfloor.
  cbn [Qnum Qden Pos.mul]. rewrite !Z.mul_1_r, Z.div_1_r.
  rewrite Z.quot_div_nonneg by lia.
  pose proof (Z.div_mod s 60). lia.
Qed.

Lemma options_format_shape s :
  (0 <= s < 2 ^ 53)%Z ->
  Options.formatTimestamp (inject_Z s)
  = (toString (s / 60) ++ ":" ++ twoDigits (s mod 60))%string.
Proof.
  intros Hs. unfold Options.formatTimestamp.
  rewrite floor_of_sixtieth by assumption. rewrite floor_of_remainder by lia.
  rewrite padStart_two by (apply Z.mod_pos_bound; lia). reflexivity.
Qed.

Lemma split_two_parts dm sec :
  Forall isDigitValue dm -> (0 <= sec < 60)%Z ->
  split ":" (spell dm ++ ":" ++ twoDigits sec) = [spell dm; twoDigits sec].
Proof.
  intros Hdm Hsec. pose proof (twoDigits_digits sec Hsec) as Hds.
  rewrite twoDigits_spell.
  change (":" ++ spell [sec / 10; sec mod 10])%string
    with (String ":" (spell [(sec / 10)%Z; (sec mod 10)%Z])).
  rewrite split_at_sep by now apply spell_no_colon.
  now rewrite split_no_sep by now apply spell_no_colon.
Qed.

Lemma split_three_parts dh m sec :
  Forall isDigitValue dh -> (0 <= m < 60)%Z -> (0 <= sec < 60)%Z ->
  split ":" (spell dh ++ ":" ++ twoDigits m ++ ":" ++ twoDigits sec)
  = [spell dh; twoDigits m; twoDigits sec].
Proof.
  intros Hdh Hm Hsec. pose proof (twoDigits_digits m Hm) as Hdm.
  change (":" ++ twoDigits m ++ ":" ++ twoDigits sec)%string
    with (String ":" (twoDigits m ++ ":" ++ twoDigits sec)).
  rewrite split_at_sep by now apply spell_no_colon.
  rewrite (twoDigits_spell m) at 1.
  now rewrite (split_two_parts _ sec Hdm Hsec), <- twoDigits_spell.
Qed.

(** X12. The library page's [formatTimestamp] writes every whole
    non-negative number of seconds below [2^53] as total minutes, a colon and
    two digits of seconds; [parseTimestamp] reads the number back; below one
    hour the text is the one the panel's [formatTimestamp] writes, and from
    one hour on the two differ (the library page never writes hours). *)
Theorem options_formatTimestamp_spec (s : Z) :
  (0 <= s < 2 ^ 53)%Z ->
  Options.formatTimestamp (inject_Z s)
  = (toString (s / 60) ++ ":" ++ twoDigits (s mod 60))%string
  /\ Transcript.parseTimestamp (Options.formatTimestamp (inject_Z s)) = s
  /\ ((s < 3600)%Z ->
      Options.formatTimestamp (inject_Z s) = Transcript.formatTimestamp (inject_Z s))
  /\ ((3600 <= s)%Z ->
      Options.formatTimestamp (inject_Z s) <> Transcript.formatTimestamp (inject_Z s)).
Proof.
  intros Hs. pose proof (options_format_shape s Hs) as Hshape.
  assert (Hsec : (0 <= s mod 60 < 60)%Z) by (apply Z.mod_pos_bound; lia).
  assert (Hmin : (0 <= s / 60)%Z) by (apply Z.div_pos; lia).
  pose proof (Z.div_mod s 60 ltac:(lia)) as Hdm60.
  destruct (toString_spells (s / 60) Hmin) as (dm & Em & Hdm & Hne & Hv & _).
  split; [exact Hshape|]. split; [|split].
  - rewrite Hshape, Em. unfold Transcript.parseTimestamp.
    rewrite (parse_minutes_seconds dm (s / 60) (s mod 60));
      try assumption; try safe_integer.
    cbn [fst]. lia.
  - intros Hlt. rewrite Hshape. symmetry. apply formatTimestamp_below_hour. lia.
  - intros Hge Heq. rewrite Hshape, Em, formatTimestamp_from_hour in Heq by lia.
    assert (Hh : (0 <= s / 3600)%Z) by (apply Z.div_pos; lia).
    destruct (toString_spells (s / 3600) Hh) as (dh & Eh & Hdh & _).
    rewrite Eh in Heq. apply (f_equal (split ":")) in Heq.
    rewrite split_two_parts in Heq by assumption.
    rewrite split_three_parts in Heq; try assumption; [discriminate|].
    assert (0 <= s mod 3600 / 60)%Z by (apply Z.div_pos; [apply Z.mod_pos_bound|]; lia).
    assert (s mod 3600 / 60 < 60)%Z
      by (apply Z.div_lt_upper_bound; [|pose proof (Z.mod_pos_bound s 3600)]; lia).
    lia.
Qed.

Lemma options_formatTimestamp_spec_witness :
  Options.formatTimestamp (inject_Z 3750) = "62:30"%string
  /\ Options.formatTimestamp (inject_Z 3750) <> Transcript.formatTimestamp (inject_Z 3750).
Proof.
  pose proof (options_formatTimestamp_spec 3750 ltac:(safe_integer)) as H.
  split; [exact (proj1 H) | apply H; lia].
Defined.

End OptionsFacts.

(** * Further properties of the segment queries *)

Section QueryFacts.
Import JS Transcript.

Local Open Scope Q_scope.

Lemma covers_tail a l t i : covers (a :: l) t (S i) <-> covers l t i.
Proof. unfold covers. cbn [nth_error]. tauto. Qed.

Lemma covers_head a l t :
  covers (a :: l) t 0
  <-> Qle_bool (startTime a) t
      && match l with
         | s' :: _ => negb (Qle_bool (startTime s') t)
         | [] => true
         end = true.
Proof.
  unfold covers. cbn [nth_error]. rewrite andb_true_iff, Qle_bool_iff. split.
  - intros (s & [= <-] & Hle & Hnext). split; [assumption|].
    destruct l as [|b l]; [reflexivity|].
    apply negb_true_iff, Qle_bool_false, Hnext. reflexivity.
  - intros [Hle Hnext]. exists a. split; [reflexivity|]. split; [assumption|].
    intros s' Hs'. destruct l as [|b l]; [discriminate|].
    cbn in Hs'. injection Hs' as <-.
    now apply Qle_bool_false, negb_true_iff.
Qed.

Lemma scan_first l t : forall s,
  scan l t = Some s
  <-> exists i, nth_error l i = Some s /\ covers l t i
                /\ forall j, (j < i)%nat -> ~ covers l t j.
Proof.
  induction l as [|a l IH]; intros s.
  - cbn [scan]. split; [discriminate|]. intros (i & Hi & _). destruct i; discriminate.
  - cbn [scan].
    destruct (Qle_bool (startTime a) t
              && match l with s' :: _ => negb (Qle_bool (startTime s') t) | [] => true end)
      eqn:E.
    + split.
      * intros [= <-]. exists 0%nat. split; [reflexivity|].
        split; [now apply covers_head | intros j Hj; lia].
      * intros (i & Hi & Hc & Hfirst). destruct i as [|i].
        -- cbn in Hi. congruence.
        -- exfalso. apply (Hfirst 0%nat); [lia | now apply covers_head].
    + rewrite IH. split.
      * intros (i & Hi & Hc & Hfirst). exists (S i). split; [exact Hi|].
        split; [exact (proj2 (covers_tail a l t i) Hc)|].
        intros [|j] Hj Hcj.
        -- apply covers_head in Hcj. congruence.
        -- apply (Hfirst j); [lia|]. exact (proj1 (covers_tail a l t j) Hcj).
      * intros (i & Hi & Hc & Hfirst). destruct i as [|i].
        -- apply covers_head in Hc. congruence.
        -- exists i. split; [exact Hi|].
           split; [exact (proj1 (covers_tail a l t i) Hc)|].
           intros j Hj Hcj. apply (Hfirst (S j)); [lia|].
           exact (proj2 (covers_tail a l t j) Hcj).
Qed.

Lemma scan_none l t : scan l t = None <-> forall i, ~ covers l t i.
Proof.
  split.
  - intros Hnone i Hc.
    assert (Hex : exists k, covers l t k) by eauto.
    clear i Hc. revert Hnone Hex. induction l as [|a l IH]; intros Hnone [k Hk].
    + destruct Hk as (s & Hs & _). destruct k; discriminate.
    + cbn [scan] in Hnone.
      destruct (Qle_bool (startTime a) t
                && match l with s' :: _ => negb (Qle_bool (startTime s') t) | [] => true end)
        eqn:E; [discriminate|].
      destruct k as [|k].
      * apply covers_head in Hk. congruence.
      * apply (IH Hnone). exists k. exact (proj1 (covers_tail a l t k) Hk).
  - intros Hno. destruct (scan l t) as [s|] eqn:E; [|reflexivity].
    apply scan_first in E as (i & _ & Hc & _). now apply Hno in Hc.
Qed.

(** X6. On any list of segments, sorted or not, [findSegmentAtTime] returns
    the segment at the first index whose segment starts at or before [t]
    while the next one (if any) starts after [t], and [null] exactly when
    there is no such index.  In particular a segment whose successor does
    not start later than it does is never the answer at its index. *)
Theorem findSegmentAtTime_first_match (segments : list TranscriptSegment) (t : Q) :
  (forall s, findSegmentAtTime segments t = Some s
             <-> exists i, nth_error segments i = Some s /\ covers segments t i
                           /\ forall j, (j < i)%nat -> ~ covers segments t j)
  /\ (findSegmentAtTime segments t = None <-> forall i, ~ covers segments t i)
  /\ (forall i s s', nth_error segments i = Some s ->
        nth_error segments (S i) = Some s' ->
        startTime s' <= startTime s -> ~ covers segments t i).
Proof.
  rewrite findSegmentAtTime_scan. split; [|split].
  - apply scan_first.
  - apply scan_none.
  - intros i s s' Hs Hs' Hle (x & Hx & Hxt & Hnext).
    rewrite Hs in Hx. injection Hx as <-.
    specialize (Hnext s' Hs'). lra.
Qed.

Lemma ascending_nth_lt l : ascending l ->
  forall i j a b, (i < j)%nat -> nth_error l i = Some a -> nth_error l j = Some b ->
  startTime a < startTime b.
Proof.
  induction l as [|x l IH]; intros Hasc i j a b Hij Ha Hb.
  - destruct i; discriminate.
  - destruct j as [|j]; [lia|]. cbn in Hb. destruct i as [|i].
    + cbn in Ha. injection Ha as <-.
      destruct l as [|y l]; [destruct j; discriminate|].
      destruct Hasc as [Hxy Hrest].
      pose proof (ascending_head_le y l Hrest j b Hb). lra.
    + cbn in Ha. apply (IH (ascending_tail _ _ Hasc) i j a b); [lia | assumption..].
Qed.

(** X7. On segments whose start times ascend strictly the answer never moves
    backwards as time advances: if [t1 <= t2] and both queries find a
    segment, the one found at [t1] does not start after the one found at
    [t2]. *)
Theorem findSegmentAtTime_monotone (segments : list TranscriptSegment) (t1 t2 : Q)
    (s1 s2 : TranscriptSegment) :
  ascending segments ->
  t1 <= t2 ->
  findSegmentAtTime segments t1 = Some s1 ->
  findSegmentAtTime segments t2 = Some s2 ->
  startTime s1 <= startTime s2.
Proof.
  intros Hasc Hle H1 H2. rewrite findSegmentAtTime_scan in H1, H2.
  apply scan_sound in H1 as (i1 & Hi1 & Hs1 & _).
  apply scan_sound in H2 as (i2 & Hi2 & Hs2 & Hn2).
  destruct (Nat.lt_trichotomy i1 i2) as [Hlt|[->|Hgt]].
  - apply Qlt_le_weak. exact (ascending_nth_lt _ Hasc i1 i2 s1 s2 Hlt Hi1 Hi2).
  - rewrite Hi1 in Hi2. injection Hi2 as ->. lra.
  - exfalso.
    assert (Hlen : (S i2 < List.length segments)%nat).
    { apply nth_error_Some. destruct (Nat.eq_dec (S i2) i1) as [->|Hne];
        [congruence|].
      assert (Hx : (S i2 < i1)%nat) by lia.
      intros Hnone. apply nth_error_None in Hnone.
      assert (Hi : (i1 < List.length segments)%nat)
        by (apply nth_error_Some; congruence).
      lia. }
    destruct (nth_error segments (S i2)) as [s'|] eqn:Es';
      [|apply nth_error_None in Es'; lia].
    specialize (Hn2 s' eq_refl).
    destruct (Nat.eq_dec (S i2) i1) as [E|Hne].
    + rewrite E, Hi1 in Es'. injection Es' as ->. lra.
    + pose proof (ascending_nth_lt _ Hasc (S i2) i1 s' s1 ltac:(lia) Es' Hi1). lra.
Qed.

Lemma findSegmentAtTime_monotone_witness :
  startTime (mkSegment 1 10 "b" 1) <= startTime (mkSegment 2 20 "c" 2).
Proof.
  apply (findSegmentAtTime_monotone abc 15 25).
  - cbn. repeat split; reflexivity.
  - discriminate.
  - reflexivity.
  - reflexivity.
Defined.

Lemma ascending_all_later x l :
  ascending (x :: l) -> Forall (fun s => startTime x < startTime s) l.
Proof.
  intros Hasc. apply Forall_forall. intros s Hin.
  apply In_nth_error in Hin as [j Hj].
  exact (ascending_nth_lt _ Hasc 0 (S j) x s ltac:(lia) eq_refl Hj).
Qed.

Lemma filter_none_when_later a b x l :
  b <= startTime x -> Forall (fun s => startTime x < startTime s) l ->
  filter (inRangeb a b) l = [].
Proof.
  intros Hb Hall. induction Hall as [|s l Hs _ IH]; [reflexivity|].
  cbn [filter]. rewrite IH.
  replace (inRangeb a b s) with false; [reflexivity|].
  symmetry. unfold inRangeb. apply andb_false_iff. right.
  apply negb_false_iff, Qle_bool_iff. lra.
Qed.

Lemma filter_range_split l a b c :
  ascending l -> a <= b -> b <= c ->
  filter (inRangeb a c) l = filter (inRangeb a b) l ++ filter (inRangeb b c) l.
Proof.
  intros Hasc Hab Hbc. induction l as [|x l IH]; [reflexivity|].
  specialize (IH (ascending_tail _ _ Hasc)). cbn [filter].
  destruct (inRangeb a c x) eqn:Eac.
  - apply inRangeb_spec in Eac as [H1 H2].
    destruct (Qlt_le_dec (startTime x) b) as [Hxb|Hbx].
    + replace (inRangeb a b x) with true
        by (symmetry; apply inRangeb_spec; split; assumption).
      replace (inRangeb b c x) with false.
      * cbn [app]. now rewrite IH.
      * symmetry. unfold inRangeb. apply andb_false_iff. left.
        now apply Qle_bool_false.
    + replace (inRangeb a b x) with false.
      * replace (inRangeb b c x) with true
          by (symmetry; apply inRangeb_spec; split; assumption).
        rewrite (filter_none_when_later a b x l Hbx (ascending_all_later _ _ Hasc)) in *.
        cbn [app] in *. now rewrite IH.
      * symmetry. unfold inRangeb. apply andb_false_iff. right.
        now apply negb_false_iff, Qle_bool_iff.
  - replace (inRangeb a b x) with false.
    + replace (inRangeb b c x) with false; [exact IH|].
      symmetry. destruct (inRangeb b c x) eqn:E; [|reflexivity].
      apply inRangeb_spec in E as [H1 H2].
      assert (inRangeb a c x = true) by (apply inRangeb_spec; split; lra).
      congruence.
    + symmetry. destruct (inRangeb a b x) eqn:E; [|reflexivity].
      apply inRangeb_spec in E as [H1 H2].
      assert (inRangeb a c x = true) by (apply inRangeb_spec; split; lra).
      congruence.
Qed.

Lemma join_app sep l1 l2 :
  l1 <> [] -> l2 <> [] ->
  join sep (l1 ++ l2) = (join sep l1 ++ sep ++ join sep l2)%string.
Proof.
  intros H1 H2. induction l1 as [|x l1 IH]; [congruence|].
  destruct l1 as [|y l1].
  - cbn [app]. destruct l2 as [|z l2]; [congruence | reflexivity].
  - change ((x :: y :: l1) ++ l2) with (x :: y :: (l1 ++ l2)).
    rewrite !join_cons_cons.
    change (y :: l1 ++ l2) with ((y :: l1) ++ l2).
    rewrite IH by discriminate. now rewrite !string_app_assoc.
Qed.

Lemma getTextForRange_filter segs a b :
  getTextForRange segs a b = join " " (map text (filter (inRangeb a b) segs)).
Proof. reflexivity. Qed.

(** X8. On segments whose start times ascend strictly a range can be cut at
    any point between its ends: the segments selected for [[a, c)] are those
    selected for [[a, b)] followed by those selected for [[b, c)], so the
    text of the whole range is the two texts joined by one space (or just
    one of them when the other part selects no segment).  On any list, a
    range whose end is not after its start gives the empty string. *)
Theorem getTextForRange_split (segments : list TranscriptSegment) (a b c : Q) :
  ascending segments -> a <= b -> b <= c ->
  let left := filter (inRangeb a b) segments in
  let right := filter (inRangeb b c) segments in
  keeps (inRange a c) segments (left ++ right)
  /\ (left <> [] -> right <> [] ->
      getTextForRange segments a c
      = (getTextForRange segments a b ++ " " ++ getTextForRange segments b c)%string)
  /\ (right = [] -> getTextForRange segments a c = getTextForRange segments a b)
  /\ (left = [] -> getTextForRange segments a c = getTextForRange segments b c)
  /\ (forall l x y, y <= x -> getTextForRange l x y = EmptyString).
Proof.
  intros Hasc Hab Hbc. cbv zeta.
  pose proof (filter_range_split segments a b c Hasc Hab Hbc) as Hsplit.
  split; [|split; [|split; [|split]]].
  - rewrite <- Hsplit. apply filter_keeps. apply inRangeb_spec.
  - intros Hl Hr. rewrite !getTextForRange_filter, Hsplit, map_app.
    apply join_app.
    + destruct (filter (inRangeb a b) segments); [congruence | discriminate].
    + destruct (filter (inRangeb b c) segments); [congruence | discriminate].
  - intros Hr. rewrite !getTextForRange_filter, Hsplit, Hr. now rewrite app_nil_r.
  - intros Hl. rewrite !getTextForRange_filter, Hsplit, Hl. reflexivity.
  - intros l x y Hyx. rewrite getTextForRange_filter.
    replace (filter (inRangeb x y) l) with (@nil TranscriptSegment); [reflexivity|].
    symmetry. induction l as [|s l IH]; [reflexivity|]. cbn [filter].
    rewrite IH. destruct (inRangeb x y s) eqn:E; [|reflexivity].
    apply inRangeb_spec in E as [H1 H2]. lra.
Qed.

Lemma getTextForRange_split_witness :
  getTextForRange abc 0 30
  = (getTextForRange abc 0 15 ++ " " ++ getTextForRange abc 15 30)%string.
Proof.
  assert (Hasc : ascending abc) by (cbn; repeat split; reflexivity).
  apply (proj1 (proj2 (getTextForRange_split abc 0 15 30 Hasc
                         ltac:(discriminate) ltac:(discriminate))));
    discriminate.
Defined.





End QueryFacts.

(** * Further properties of the timestamps *)

Section TimestampMore.
Import JS Transcript.

#[local] Arguments toString : simpl never.
#[local] Arguments padStart : simpl never.

Lemma parse_formatted s :
  0 <= s < 2 ^ 53 -> parseTimestamp (formatTimestamp (inject_Z s)) = s.
Proof.
  intros [Hs Hsafe]. unfold parseTimestamp.
  destruct (hms_parts s Hs) as (Hh & Hm & Hsec & Esum & Em & Es).
  destruct (Z_lt_le_dec s 3600) as [Hlt|Hge].
  - rewrite formatTimestamp_below_hour by lia.
    assert (0 <= s / 60) by (apply Z.div_pos; lia).
    pose proof (Z.div_mod s 60 ltac:(lia)) as Hdm.
    pose proof (Z.mod_pos_bound s 60 ltac:(lia)) as Hmod.
    destruct (toString_spells (s / 60)) as (dm & -> & Hd & Hne & Hv & _); [lia|].
    rewrite (parse_minutes_seconds dm (s / 60) (s mod 60));
      try assumption; try safe_integer.
    cbn [fst]. lia.
  - rewrite formatTimestamp_from_hour by lia.
    destruct (toString_spells (s / 3600)) as (dh & -> & Hd & Hne & Hv & _); [lia|].
    rewrite (parse_hours_minutes_seconds dh (s / 3600) (s mod 3600 / 60) (s mod 60));
      try assumption; try safe_integer.
    cbn [fst]. lia.
Qed.

Lemma formatTimestamp_floor q :
  formatTimestamp q = formatTimestamp (inject_Z (Qfloor q)).
Proof. unfold formatTimestamp. now rewrite Qfloor_Z. Qed.

(** X10. Two times at or after zero and below [2^53] are shown by
    [formatTimestamp] with the same text exactly when they have the same
    whole number of seconds. *)
Theorem formatTimestamp_same_text (q1 q2 : Q) :
  0 <= Qfloor q1 < 2 ^ 53 -> 0 <= Qfloor q2 < 2 ^ 53 ->
  (formatTimestamp q1 = formatTimestamp q2 <-> Qfloor q1 = Qfloor q2).
Proof.
  intros H1 H2. split.
  - intros Heq. rewrite (formatTimestamp_floor q1), (formatTimestamp_floor q2) in Heq.
    apply (f_equal parseTimestamp) in Heq.
    now rewrite !parse_formatted in Heq by assumption.
  - intros Heq. now rewrite (formatTimestamp_floor q1), (formatTimestamp_floor q2), Heq.
Qed.

Lemma formatTimestamp_same_text_witness :
  formatTimestamp (167 # 2) = formatTimestamp (83 # 1).
Proof.
  apply (formatTimestamp_same_text (167 # 2) (83 # 1));
    [split; [discriminate | reflexivity].. | reflexivity].
Defined.

Lemma trimStart_skip pre x :
  allChars isWhiteSpace pre = true -> trimStart (pre ++ x) = trimStart x.
Proof.
  induction pre as [|c pre IH]; [reflexivity|]. cbn [allChars append trimStart].
  intros H. apply andb_prop in H as [Hc Hpre]. rewrite Hc. now apply IH.
Qed.

Lemma trimStart_blank post :
  allChars isWhiteSpace post = true -> trimStart post = EmptyString.
Proof.
  induction post as [|c post IH]; [reflexivity|]. cbn [allChars trimStart].
  intros H. apply andb_prop in H as [Hc Hpost]. now rewrite Hc, (IH Hpost).
Qed.

Lemma trimEnd_blank post :
  allChars isWhiteSpace post = true -> trimEnd post = EmptyString.
Proof.
  induction post as [|c post IH]; [reflexivity|]. cbn [allChars trimEnd].
  intros H. apply andb_prop in H as [Hc Hpost]. now rewrite (IH Hpost), Hc.
Qed.

Lemma trimEnd_skip x post :
  allChars isWhiteSpace post = true -> trimEnd (x ++ post) = trimEnd x.
Proof.
  intros H. induction x as [|c x IH].
  - cbn [append]. now apply trimEnd_blank.
  - cbn [append trimEnd]. now rewrite IH.
Qed.

Lemma trim_skip pre x post :
  allChars isWhiteSpace pre = true -> allChars isWhiteSpace post = true ->
  trim (pre ++ x ++ post) = trim x.
Proof.
  intros Hpre Hpost. unfold trim. rewrite (trimStart_skip pre _ Hpre).
  induction x as [|c x IH].
  - cbn [append]. now rewrite (trimStart_blank post Hpost).
  - cbn [append trimStart]. destruct (isWhiteSpace c); [exact IH|].
    exact (trimEnd_skip (String c x) post Hpost).
Qed.

(** X11. White space around a timestamp does not matter: [parseTimestamp]
    gives the same number, and logs the same, for a text and for that text
    with any white space before and after it; a text of white space alone
    gives 0 with the warning. *)
Theorem parseTimestamp_ignores_outer_space (pre timeStr post : string) :
  allChars isWhiteSpace pre = true ->
  allChars isWhiteSpace post = true ->
  parseTimestampLog (pre ++ timeStr ++ post) = parseTimestampLog timeStr
  /\ parseTimestampLog pre = (0, true).
Proof.
  intros Hpre Hpost. split.
  - unfold parseTimestampLog. now rewrite trim_skip.
  - unfold parseTimestampLog.
    replace (trim pre) with EmptyString; [reflexivity|].
    unfold trim. now rewrite (trimStart_blank pre Hpre).
Qed.

Lemma parseTimestamp_ignores_outer_space_witness :
  parseTimestampLog (" " ++ "1:23" ++ " ") = parseTimestampLog "1:23".
Proof.
  exact (proj1 (parseTimestamp_ignores_outer_space " " "1:23" " " eq_refl eq_refl)).
Defined.

End TimestampMore.

(** * The loop gestures of the panel *)

Section GestureFacts.
Import JS Player Panel.

Local Open Scope Q_scope.

#[local] Arguments Math_min : simpl never.
#[local] Arguments Math_max : simpl never.
#[local] Arguments Qle_bool : simpl never.
#[local] Arguments Qeq_bool : simpl never.

Ltac open_panel p :=
  destruct p as [segs mt [[st en ac iid lst] [v tm nx] tr] eff].

Ltac run_panel :=
  cbv [after react handleLoopClick handleLoopStartShortcut handleLoopEndShortcut
       handleClearLoopShortcut switchToLoop renderSegments showToast perform
       getSegments onPage pbind pret sameTime
       segments mounted page effects
       step exec setStart setEnd setLoop clear destroy activate
       startMonitoring stopMonitoring notifyStateChange getState
       seekTo getCurrentTime getVideoPlayer setInterval clearInterval
       snapshot isSettingStart isSome
       bind ret getThis setThis getHost setHost emit
       set_startTime set_endTime set_isActive set_intervalId set_onStateChange
       this host trace startTime endTime isActive intervalId onStateChange
       video timers nextTimer fst snd negb andb
       LoopState.isActive LoopState.startTime LoopState.endTime].

Lemma warnings_app l1 l2 : warnings (l1 ++ l2) = warnings l1 ++ warnings l2.
Proof. apply flat_map_app. Qed.

Lemma in_starts segs i s :
  nth_error segs i = Some s -> In (Transcript.startTime s) (map Transcript.startTime segs).
Proof. intros H. apply in_map. exact (nth_error_In _ _ H). Qed.

Lemma segmentEndOf_later segs i s :
  ascending segs -> nth_error segs i = Some s ->
  Transcript.startTime s < segmentEndOf s (nth_error segs (i + 1)).
Proof.
  intros Hasc Hs. unfold segmentEndOf.
  destruct (nth_error segs (i + 1)) as [n|] eqn:En; [|lra].
  exact (ascending_nth_lt segs Hasc i (i + 1) s n ltac:(lia) Hs En).
Qed.

Lemma segmentEndOf_endsAtSegment segs i s :
  nth_error segs i = Some s ->
  endsAtSegment segs (segmentEndOf s (nth_error segs (i + 1))).
Proof.
  intros Hs. unfold segmentEndOf, endsAtSegment.
  destruct (nth_error segs (i + 1)) as [n|] eqn:En.
  - left. exact (in_starts _ _ _ En).
  - right. exists i, s. rewrite Nat.add_1_r in En. auto.
Qed.

Lemma Math_min_of_lt a b : a < b -> Math_min a b = a /\ Math_max a b = b.
Proof.
  intros H. unfold Math_min, Math_max.
  now rewrite (proj2 (Qle_bool_iff a b) (Qlt_le_weak _ _ H)).
Qed.

Lemma Qeq_bool_false_neq a b : Qeq_bool a b = false -> ~ a == b.
Proof. intros H E. apply Qeq_bool_iff in E. congruence. Qed.

Lemma clickLoop_keeps_shape p indexStr :
  ascending (segments p) ->
  clickShape (segments p) (this (page p)) ->
  segments (after p (ClickLoop indexStr)) = segments p
  /\ clickShape (segments p) (this (page (after p (ClickLoop indexStr)))).
Proof.
  open_panel p. cbn [segments page this]. intros Hasc Hshape.
  unfold clickShape in Hshape. cbn [startTime endTime isActive] in Hshape.
  run_panel.
  destruct (indexOfAttribute indexStr) as [index|]; [|now split].
  destruct ((index <? 0)%Z || (Z.of_nat (List.length segs) <=? index)%Z); [now split|].
  destruct (nth_error segs (Z.to_nat index)) as [s|] eqn:Es; [|now split].
  pose proof (in_starts _ _ _ Es) as Hin.
  pose proof (segmentEndOf_later _ _ _ Hasc Es) as Hlater.
  pose proof (segmentEndOf_endsAtSegment _ _ _ Es) as Hends.
  destruct (Math_min_of_lt _ _ Hlater) as [Emin Emax].
  destruct st as [s0|], en as [e0|], ac; try contradiction.
  - (* active: cleared, then a new start *)
    destruct iid, lst, v, mt; run_panel; split; try reflexivity; exact Hin.
  - (* start set *)
    destruct (Qeq_bool s0 (Transcript.startTime s)) eqn:Eq.
    + destruct iid, lst, v, mt; run_panel; (split; [reflexivity|]);
        unfold clickShape; cbn [startTime endTime isActive];
        rewrite Emin, Emax; auto.
    + apply Qeq_bool_false_neq in Eq.
      assert (Hmm : Math_min s0 (Transcript.startTime s)
                    < Math_max s0 (Transcript.startTime s)
                    /\ In (Math_min s0 (Transcript.startTime s))
                         (map Transcript.startTime segs)
                    /\ endsAtSegment segs (Math_max s0 (Transcript.startTime s))).
      { split; [now apply Math_min_max_lt|].
        destruct (Math_min_cases s0 (Transcript.startTime s))
          as [(-> & -> & _)|(-> & -> & _)]; split; auto; now left. }
      destruct iid, lst, v, mt; run_panel; (split; [reflexivity|]);
        unfold clickShape; cbn [startTime endTime isActive]; exact Hmm.
  - (* idle *)
    destruct iid, lst, v, mt; run_panel; split; try reflexivity; exact Hin.
Qed.

Lemma onPage_eq {A} (m : M A) p :
  onPage m p
  = (fst (m (page p)), mkPanel (segments p) (mounted p) (snd (m (page p))) (effects p)).
Proof. unfold onPage. now destruct (m (page p)). Qed.

Lemma after_timer p id :
  after p (Timer id)
  = mkPanel (segments p) (mounted p) (step (page p) (TimerFires id)) (effects p).
Proof.
  unfold after, react, pbind, pret. rewrite onPage_eq. reflexivity.
Qed.

Lemma timer_gesture p id :
  segments (after p (Timer id)) = segments p
  /\ this (page (after p (Timer id))) = this (page p)
  /\ warnings (trace (page (after p (Timer id)))) = warnings (trace (page p)).
Proof.
  rewrite after_timer. destruct p as [segs mt w eff]. cbn [segments page mounted effects].
  destruct (step_timerFires id w) as (-> & _ & calls & -> & Hc).
  split; [reflexivity|]. split; [reflexivity|].
  rewrite warnings_app.
  destruct Hc as [->| ->]; [apply app_nil_r|].
  unfold tickCalls. destruct (due w), (video (host w)); apply app_nil_r.
Qed.

Lemma button_keeps_shape p g :
  byButtons g = true ->
  ascending (segments p) ->
  clickShape (segments p) (this (page p)) ->
  segments (after p g) = segments p
  /\ clickShape (segments p) (this (page (after p g))).
Proof.
  intros Hg Hasc Hshape. destruct g as [idx| | | | |a b|id|pv]; try discriminate.
  - now apply clickLoop_keeps_shape.
  - open_panel p. destruct iid, lst; run_panel; split; reflexivity || exact I.
  - open_panel p. destruct iid, lst; run_panel; split; reflexivity || exact I.
  - destruct (timer_gesture p id) as (-> & -> & _). auto.
  - open_panel p. run_panel. auto.
Qed.

Lemma session_keeps_shape gs : forall p,
  forallb byButtons gs = true ->
  ascending (segments p) ->
  clickShape (segments p) (this (page p)) ->
  segments (session gs p) = segments p
  /\ clickShape (segments p) (this (page (session gs p))).
Proof.
  induction gs as [|g gs IH]; intros p Hgs Hasc Hshape; [auto|].
  cbn [forallb] in Hgs. apply andb_prop in Hgs as [Hg Hgs].
  destruct (button_keeps_shape p g Hg Hasc Hshape) as [Hsegs Hshape'].
  cbn [session fold_left]. fold (session gs (after p g)).
  rewrite <- Hsegs in Hasc, Hshape'.
  destruct (IH (after p g) Hgs Hasc Hshape') as [E1 E2].
  rewrite Hsegs in E1, E2. auto.
Qed.



(** ** The rows of the segment list *)

Lemma row_marks_loop_end segs ls i s :
  existsb (String.eqb "sl-segment-loop-end") (classes (renderRow segs ls i s))
  = marksLoopEnd segs ls i s.
Proof.
  unfold renderRow, marksLoopEnd.
  destruct (LoopState.startTime ls) as [a|], (LoopState.endTime ls) as [e|];
    try reflexivity.
  destruct (Qle_bool a (Transcript.startTime s)
            && negb (Qle_bool e (Transcript.startTime s))),
    (Qeq_bool (Transcript.startTime s) a),
    (negb (Qle_bool (segmentEndOf s (nth_error segs (i + 1))) e)
     && negb (Qle_bool e (Transcript.startTime s))); reflexivity.
Qed.

Lemma ascending_nth_le segs i j a b :
  ascending segs -> (i <= j)%nat ->
  nth_error segs i = Some a -> nth_error segs j = Some b ->
  Transcript.startTime a <= Transcript.startTime b.
Proof.
  intros Hasc Hij Ha Hb. destruct (Nat.eq_dec i j) as [->|Hne].
  - rewrite Ha in Hb. injection Hb as ->. lra.
  - apply Qlt_le_weak.
    exact (ascending_nth_lt segs Hasc i j a b ltac:(lia) Ha Hb).
Qed.

Lemma marksLoopEnd_bounds segs ls i s :
  marksLoopEnd segs ls i s = true ->
  exists e, LoopState.endTime ls = Some e
            /\ Transcript.startTime s < e
            /\ e < segmentEndOf s (nth_error segs (i + 1)).
Proof.
  unfold marksLoopEnd.
  destruct (LoopState.startTime ls), (LoopState.endTime ls) as [e|]; try discriminate.
  intros H. apply andb_prop in H as [H1 H2].
  apply negb_true_iff, Qle_bool_false in H1, H2. eauto.
Qed.

Lemma segmentEndOf_le_later segs i s j y :
  ascending segs -> nth_error segs i = Some s -> (i < j)%nat ->
  nth_error segs j = Some y ->
  segmentEndOf s (nth_error segs (i + 1)) <= Transcript.startTime y.
Proof.
  intros Hasc Hs Hij Hy. unfold segmentEndOf.
  destruct (nth_error segs (i + 1)) as [n|] eqn:En.
  - exact (ascending_nth_le segs (i + 1) j n y Hasc ltac:(lia) En Hy).
  - apply nth_error_None in En.
    assert ((j < List.length segs)%nat) by (apply nth_error_Some; congruence). lia.
Qed.

Lemma no_end_rows segs ls : forall l i,
  skipn i segs = l ->
  (forall k y, (i <= k)%nat -> nth_error segs k = Some y -> marksLoopEnd segs ls k y = false) ->
  loopEndRows (mapi (renderRow segs ls) i l) = [].
Proof.
  induction l as [|x rest IH]; intros i Hskip Hnone; [reflexivity|].
  destruct (skipn_cons_inv segs i x rest Hskip) as [Hx Hrest].
  cbn [mapi loopEndRows filter]. rewrite row_marks_loop_end, (Hnone i x (le_n i) Hx).
  apply (IH (S i)); [now rewrite <- Nat.add_1_r|].
  intros k y Hk. apply Hnone. lia.
Qed.

Lemma at_most_one_end_row segs ls : ascending segs -> forall l i,
  skipn i segs = l ->
  (List.length (loopEndRows (mapi (renderRow segs ls) i l)) <= 1)%nat.
Proof.
  intros Hasc. induction l as [|x rest IH]; intros i Hskip; [cbn; lia|].
  destruct (skipn_cons_inv segs i x rest Hskip) as [Hx Hrest].
  rewrite Nat.add_1_r in Hrest.
  cbn [mapi loopEndRows filter]. rewrite row_marks_loop_end.
  destruct (marksLoopEnd segs ls i x) eqn:E; [|exact (IH (S i) Hrest)].
  fold (loopEndRows (mapi (renderRow segs ls) (S i) rest)).
  rewrite (no_end_rows segs ls rest (S i) Hrest); [cbn; lia|].
  intros k y Hk Hy.
  destruct (marksLoopEnd segs ls k y) eqn:Ek; [|reflexivity]. exfalso.
  apply marksLoopEnd_bounds in E as (e & He & _ & Hlt).
  apply marksLoopEnd_bounds in Ek as (e' & He' & Hlt' & _).
  rewrite He in He'. injection He' as <-.
  pose proof (segmentEndOf_le_later segs i x k y Hasc Hx ltac:(lia) Hy). lra.
Qed.

Lemma no_end_row_at_segment_end segs ls e :
  ascending segs -> LoopState.endTime ls = Some e -> endsAtSegment segs e ->
  forall k y, nth_error segs k = Some y -> marksLoopEnd segs ls k y = false.
Proof.
  intros Hasc He Hends k y Hy.
  destruct (marksLoopEnd segs ls k y) eqn:E; [|reflexivity]. exfalso.
  apply marksLoopEnd_bounds in E as (e' & He' & Hlo & Hhi).
  rewrite He in He'. injection He' as <-.
  destruct Hends as [Hin|(i0 & s0 & Hs0 & Hnone & ->)].
  - apply in_map_iff in Hin as (z & <- & Hz). apply In_nth_error in Hz as [j Hj].
    destruct (Nat.le_gt_cases j k) as [Hjk|Hkj].
    + pose proof (ascending_nth_le segs j k z y Hasc Hjk Hj Hy). lra.
    + pose proof (segmentEndOf_le_later segs k y j z Hasc Hy Hkj Hj). lra.
  - destruct (Nat.lt_trichotomy k i0) as [Hlt|[->|Hgt]].
    + pose proof (segmentEndOf_le_later segs k y i0 s0 Hasc Hy Hlt Hs0). lra.
    + rewrite Hs0 in Hy. injection Hy as <-.
      rewrite Nat.add_1_r, Hnone in Hhi. cbn [segmentEndOf] in Hhi. lra.
    + apply nth_error_None in Hnone.
      assert ((k < List.length segs)%nat) by (apply nth_error_Some; congruence). lia.
Qed.

(** X18. On segments whose start times ascend strictly [renderSegments]
    marks at most one row as the end of the loop, whatever the loop; it marks
    none when the end of the loop is the start of a segment or five seconds
    after the start of the last one, and so none at all for the loops made
    with the buttons of the panel. *)
Theorem at_most_one_loop_end_row (segs : list Transcript.TranscriptSegment)
    (loopState : LoopState.t) :
  ascending segs ->
  (List.length (loopEndRows (renderRows segs loopState)) <= 1)%nat
  /\ (forall e, LoopState.endTime loopState = Some e -> endsAtSegment segs e ->
        loopEndRows (renderRows segs loopState) = [])
  /\ (forall f v gs, forallb byButtons gs = true ->
        loopEndRows (renderRows segs (snapshot (page (session gs (fresh segs f v))))) = []).
Proof.
  intros Hasc. split; [|split].
  - now apply at_most_one_end_row.
  - intros e He Hends. apply no_end_rows; [reflexivity|].
    intros k y _. now apply (no_end_row_at_segment_end segs loopState e).
  - intros f v gs Hgs.
    destruct (session_keeps_shape gs (fresh segs f v) Hgs Hasc I) as [_ Hshape].
    cbn [fresh segments] in Hshape. unfold clickShape in Hshape.
    apply no_end_rows; [reflexivity|]. intros k y _ Hy.
    unfold snapshot, getState, bind, getThis, ret. cbn [fst].
    destruct (startTime _) as [s0|] eqn:Es, (endTime _) as [e0|] eqn:Ee, (isActive _);
      try contradiction; try reflexivity.
    destruct Hshape as (_ & _ & Hends).
    now apply (no_end_row_at_segment_end segs _ e0).
Qed.

Lemma at_most_one_loop_end_row_witness :
  loopEndRows (renderRows abc (LoopState.make true (Some 0) (Some 20))) = [].
Proof.
  assert (Hasc : ascending abc) by (cbn; repeat split; reflexivity).
  apply (proj1 (proj2 (at_most_one_loop_end_row abc
                         (LoopState.make true (Some 0) (Some 20)) Hasc)) 20 eq_refl).
  left. cbn. auto.
Defined.

(** ** The handlers, one by one *)

Lemma index_in_range {A} (l : list A) (i : Z) :
  (i <? 0)%Z || (Z.of_nat (List.length l) <=? i)%Z = false ->
  exists x, nth_error l (Z.to_nat i) = Some x.
Proof.
  intros H. apply orb_false_iff in H as [H1 H2].
  apply Z.ltb_ge in H1. apply Z.leb_gt in H2.
  destruct (nth_error l (Z.to_nat i)) as [x|] eqn:E; [eauto|].
  apply nth_error_None in E. lia.
Qed.

Lemma clickLoop_cases p indexStr :
  (indexOfAttribute indexStr = None /\ react (ClickLoop indexStr) p = (Threw, p))
  \/ (exists i, indexOfAttribute indexStr = Some i
        /\ (i <? 0)%Z || (Z.of_nat (List.length (segments p)) <=? i)%Z = true
        /\ react (ClickLoop indexStr) p = (Returned, p))
  \/ (exists i s, indexOfAttribute indexStr = Some i
        /\ (i <? 0)%Z || (Z.of_nat (List.length (segments p)) <=? i)%Z = false
        /\ nth_error (segments p) (Z.to_nat i) = Some s
        /\ fst (react (ClickLoop indexStr) p) = Returned
        /\ segments (after p (ClickLoop indexStr)) = segments p
        /\ page (after p (ClickLoop indexStr))
           = clickPage (page p) s (nth_error (segments p) (Z.to_nat i + 1))).
Proof.
  open_panel p. unfold clickPage. run_panel.
  destruct (indexOfAttribute indexStr) as [i|]; [|left; auto]. right.
  destruct ((i <? 0)%Z || (Z.of_nat (List.length segs) <=? i)%Z) eqn:Er;
    [left; exists i; auto|]. right.
  destruct (index_in_range segs i Er) as [s Hs]. rewrite Hs.
  exists i, s. split; [reflexivity|]. split; [exact Er|]. split; [exact Hs|].
  destruct st as [s0|], en, ac, iid, lst, v, mt; run_panel;
    try (destruct (Qeq_bool s0 (Transcript.startTime s)));
    repeat split.
Qed.

Lemma pressStart_cases p :
  match Transcript.findSegmentAtTime (segments p) (position (page p)) with
  | None =>
      after p PressLoopStart
      = mkPanel (segments p) (mounted p) (page p)
          (effects p ++ [ShowToast SegmentNotFound])
  | Some s =>
      after p PressLoopStart
      = mkPanel (segments p) (mounted p)
          (step (page p) (SetStart (Transcript.startTime s)))
          (effects p ++ [ShowToast LoopStartSet])
  end.
Proof.
  open_panel p. unfold position. run_panel.
  destruct v;
    match goal with
    | |- context [Transcript.findSegmentAtTime ?l ?t] =>
        destruct (Transcript.findSegmentAtTime l t)
    end; try reflexivity; destruct lst; reflexivity.
Qed.

Lemma pressEnd_cases p :
  match Transcript.findSegmentAtTime (segments p) (position (page p)),
        startTime (this (page p)) with
  | None, _ =>
      after p PressLoopEnd
      = mkPanel (segments p) (mounted p) (page p)
          (effects p ++ [ShowToast SegmentNotFound])
  | Some _, None =>
      after p PressLoopEnd
      = mkPanel (segments p) (mounted p) (page p)
          (effects p ++ [ShowToast SetStartFirst])
  | Some s, Some _ =>
      after p PressLoopEnd
      = mkPanel (segments p) (mounted p)
          (step (page p) (SetEnd (Transcript.startTime s)))
          (effects p ++ [ShowToast LoopSet])
  end.
Proof.
  open_panel p. unfold position. run_panel.
  destruct v;
    match goal with
    | |- context [Transcript.findSegmentAtTime ?l ?t] =>
        destruct (Transcript.findSegmentAtTime l t)
    end; try reflexivity; destruct st; try reflexivity;
    destruct en, iid, lst; reflexivity.
Qed.

Ltac open_world w :=
  destruct w as [[st en ac iid lst] [v tm nx] tr].

Lemma step_warnings w a :
  match a with SetEnd _ => startTime (this w) <> None | _ => True end ->
  warnings (trace (step w a)) = warnings (trace w).
Proof.
  destruct a as [t|t|a b| | |id|pv].
  6:{ intros _. destruct (step_timerFires id w) as (_ & _ & calls & -> & Hc).
      rewrite warnings_app.
      destruct Hc as [->| ->]; [apply app_nil_r|].
      unfold tickCalls. destruct (due w), (video (host w)); apply app_nil_r. }
  all: open_world w; destruct st, en, iid, lst, v; run_panel; intros H;
    try (exfalso; apply H; reflexivity);
    unfold warnings; rewrite ?flat_map_app; cbn [flat_map app];
    rewrite ?app_nil_r; reflexivity.
Qed.

Lemma seekTo_warnings t w :
  warnings (trace (snd (seekTo t w))) = warnings (trace w)
  /\ this (snd (seekTo t w)) = this w.
Proof.
  open_world w. destruct v; run_panel; (split; [|reflexivity]);
    unfold warnings; rewrite ?flat_map_app; cbn [flat_map app];
    rewrite ?app_nil_r; reflexivity.
Qed.

Lemma clickPage_warnings w s n :
  warnings (trace (clickPage w s n)) = warnings (trace w).
Proof.
  unfold clickPage.
  destruct (negb (isActive (this w)) && negb (isSome (startTime (this w)))).
  - rewrite (proj1 (seekTo_warnings _ _)). now apply step_warnings.
  - destruct (fst (isSettingStart w)) eqn:E.
    + destruct (sameTime (startTime (this w)) (Transcript.startTime s)).
      * now apply step_warnings.
      * apply step_warnings. revert E. open_world w. run_panel.
        destruct st; [discriminate | intros; discriminate].
    + rewrite (proj1 (seekTo_warnings _ _)).
      rewrite step_warnings by exact I. now apply step_warnings.
Qed.

Lemma indexOfAttribute_nan indexStr :
  indexOfAttribute indexStr = None
  <-> exists s, indexStr = Some s /\ s <> EmptyString /\ parseInt10 s = None.
Proof.
  unfold indexOfAttribute. destruct indexStr as [[|c s]|].
  - split; [discriminate | intros (s & [= <-] & H & _); congruence].
  - split.
    + intros H. exists (String c s). repeat split; [discriminate | exact H].
    + intros (s' & [= <-] & _ & H). exact H.
  - split; [discriminate | intros (s & H & _); discriminate].
Qed.

Lemma react_returned {A} (c : PM A) p : fst ((c ;;; pret Returned) p) = Returned.
Proof. unfold pbind, pret. now destruct (c p). Qed.

Lemma after_bind {A} (c : PM A) p : snd ((c ;;; pret Returned) p) = snd (c p).
Proof. unfold pbind, pret. now destruct (c p). Qed.

Lemma clickSaved_page p a b :
  page (after p (ClickSaved a b)) = snd (seekTo a (step (page p) (SetLoop a b)))
  /\ segments (after p (ClickSaved a b)) = segments p.
Proof.
  open_panel p. destruct iid, lst, v, mt; run_panel;
    match goal with |- context [Nat.ltb 0 ?n] => destruct (Nat.ltb 0 n) end;
    run_panel; split; reflexivity.
Qed.

(** X17. The panel never lets the controller complain: whatever the state
    and whatever the gesture, no warning is added to the console (the end
    shortcut checks for a start itself and the loop button only sets an end
    after a start).  A handler throws exactly when the loop button carries a
    [data-index] that is not empty and does not start with a number, and the
    panel is then as before; an index out of range changes nothing; a
    shortcut pressed where no segment is found only shows the toast saying
    so, and the end shortcut without a start only shows the toast asking for
    one. *)
Theorem panel_guards_the_controller (p : SubtitlePanel) (g : gesture) :
  warnings (trace (page (after p g))) = warnings (trace (page p))
  /\ (fst (react g p) = Threw
      <-> exists s, g = ClickLoop (Some s) /\ s <> EmptyString /\ parseInt10 s = None)
  /\ (fst (react g p) = Threw -> after p g = p)
  /\ (forall indexStr i, g = ClickLoop indexStr ->
        indexOfAttribute indexStr = Some i ->
        (i < 0)%Z \/ (Z.of_nat (List.length (segments p)) <= i)%Z ->
        after p g = p)
  /\ (g = PressLoopStart \/ g = PressLoopEnd ->
      Transcript.findSegmentAtTime (segments p) (position (page p)) = None ->
      after p g = mkPanel (segments p) (mounted p) (page p)
                    (effects p ++ [ShowToast SegmentNotFound]))
  /\ (g = PressLoopEnd -> startTime (this (page p)) = None ->
      forall s, Transcript.findSegmentAtTime (segments p) (position (page p)) = Some s ->
      after p g = mkPanel (segments p) (mounted p) (page p)
                    (effects p ++ [ShowToast SetStartFirst])).
Proof.
  split; [|split; [|split; [|split; [|split]]]].
  - destruct g as [idx| | | | |a b|id|pv].
    + destruct (clickLoop_cases p idx) as [[_ H]|[(i & _ & _ & H)|(i & s & _ & _ & _ & _ & _ & H)]].
      * unfold after. now rewrite H.
      * unfold after. now rewrite H.
      * rewrite H. apply clickPage_warnings.
    + unfold after, react. rewrite after_bind, onPage_eq. cbn [snd page].
      now apply (step_warnings (page p) Clear).
    + pose proof (pressStart_cases p) as H.
      destruct (Transcript.findSegmentAtTime _ _); rewrite H; cbn [page];
        [now apply step_warnings | reflexivity].
    + pose proof (pressEnd_cases p) as H.
      destruct (Transcript.findSegmentAtTime _ _);
        [destruct (startTime (this (page p))) eqn:Es|]; rewrite H; cbn [page];
        try reflexivity.
      apply step_warnings. congruence.
    + unfold after, react. rewrite after_bind. unfold handleClearLoopShortcut.
      unfold pbind at 1. rewrite onPage_eq. cbn [showToast perform snd page].
      now apply (step_warnings (page p) Clear).
    + rewrite (proj1 (clickSaved_page p a b)), (proj1 (seekTo_warnings _ _)).
      now apply step_warnings.
    + now destruct (timer_gesture p id) as (_ & _ & H).
    + unfold after, react. rewrite after_bind, onPage_eq. reflexivity.
  - destruct g as [idx| | | | |a b|id|pv];
      try (unfold react; rewrite react_returned; split;
           [discriminate | intros (s & H & _); discriminate]).
    destruct (clickLoop_cases p idx) as [[E H]|[(i & E & _ & H)|(i & s & E & _ & _ & H & _)]].
    + rewrite H. split; intros _; [|reflexivity].
      apply indexOfAttribute_nan in E as (s & -> & Hne & Hp). eauto.
    + rewrite H. split; [discriminate|].
      intros (s & [= ->] & Hne & Hp).
      assert (indexOfAttribute (Some s) = None) by (apply indexOfAttribute_nan; eauto).
      congruence.
    + rewrite H. split; [discriminate|].
      intros (s' & [= ->] & Hne & Hp).
      assert (indexOfAttribute (Some s') = None) by (apply indexOfAttribute_nan; eauto).
      congruence.
  - destruct g as [idx| | | | |a b|id|pv];
      try (unfold react; rewrite react_returned; discriminate).
    destruct (clickLoop_cases p idx) as [[E H]|[(i & E & _ & H)|(i & s & E & _ & _ & H & _)]];
      rewrite H; try discriminate. intros _. unfold after. now rewrite H.
  - intros idx i -> Ei Hout.
    destruct (clickLoop_cases p idx) as [[E H]|[(i' & E & _ & H)|(i' & s & E & Er & _)]].
    + congruence.
    + unfold after. now rewrite H.
    + exfalso. rewrite Ei in E. injection E as <-.
      apply orb_false_iff in Er as [H1 H2].
      apply Z.ltb_ge in H1. apply Z.leb_gt in H2. lia.
  - intros Hg Hnone. pose proof (pressStart_cases p) as H1.
    pose proof (pressEnd_cases p) as H2. rewrite Hnone in H1, H2.
    destruct Hg as [->| ->]; assumption.
  - intros -> Hs s Hfound. pose proof (pressEnd_cases p) as H.
    now rewrite Hfound, Hs in H.
Qed.





(** X16. The start shortcut followed by the end shortcut, pressed while the
    playback position stays within one segment, makes a loop of no length:
    whatever the state before, the loop is then active with [startTime] and
    [endTime] both the start of that segment, and with a video element the
    position is put there and every tick seeks there again. *)
Theorem shortcuts_within_one_segment (p : SubtitlePanel)
    (s : Transcript.TranscriptSegment) :
  Transcript.findSegmentAtTime (segments p) (position (page p)) = Some s ->
  let p2 := after (after p PressLoopStart) PressLoopEnd in
  let t := Transcript.startTime s in
  snapshot (page p2) = LoopState.make true (Some t) (Some t)
  /\ (video (host (page p)) <> None ->
      position (page p2) = t
      /\ due (page p2) = Some t
      /\ position (snd (monitorTick (page p2))) = t
      /\ due (snd (monitorTick (page p2))) = Some t).
Proof.
  intros Hfound. cbv zeta.
  pose proof (pressStart_cases p) as H1. rewrite Hfound in H1.
  set (p1 := after p PressLoopStart) in *.
  assert (Hpos : position (page p1) = position (page p)).
  { rewrite H1. cbn [page]. destruct (page p) as [[st en ac iid lst] [v tm nx] tr].
    destruct lst; reflexivity. }
  assert (Hst : startTime (this (page p1)) = Some (Transcript.startTime s)).
  { rewrite H1. cbn [page]. destruct (page p) as [[st en ac iid lst] [v tm nx] tr].
    destruct lst; reflexivity. }
  assert (Hvid : video (host (page p1)) = video (host (page p))).
  { rewrite H1. cbn [page]. destruct (page p) as [[st en ac iid lst] [v tm nx] tr].
    destruct lst; reflexivity. }
  assert (Hsegs : segments p1 = segments p) by (rewrite H1; reflexivity).
  pose proof (pressEnd_cases p1) as H2. rewrite Hsegs, Hpos, Hfound, Hst in H2.
  rewrite H2. cbn [page].
  assert (Emin : Math_min (Transcript.startTime s) (Transcript.startTime s)
                 = Transcript.startTime s)
    by (unfold Math_min; now destruct (Qle_bool _ _)).
  assert (Emax : Math_max (Transcript.startTime s) (Transcript.startTime s)
                 = Transcript.startTime s)
    by (unfold Math_max; now destruct (Qle_bool _ _)).
  assert (Hrefl : Qle_bool (Transcript.startTime s) (Transcript.startTime s) = true)
    by (apply Qle_bool_iff; lra).
  destruct (page p1) as [[st en ac iid lst] [v tm nx] tr].
  cbn [this startTime host video] in Hst, Hvid. subst st. split.
  - destruct en, iid, lst, v; run_panel; now rewrite Emin, Emax.
  - intros Hv. rewrite <- Hvid in Hv. destruct v as [pos|]; [|congruence].
    assert (Hdue : forall w, isActive (this w) = true ->
              startTime (this w) = Some (Transcript.startTime s) ->
              endTime (this w) = Some (Transcript.startTime s) ->
              video (host w) = Some (Transcript.startTime s) ->
              position w = Transcript.startTime s
              /\ due w = Some (Transcript.startTime s)).
    { intros w Ha Hs Hen Hvw. unfold due, position.
      rewrite Ha, Hs, Hen, Hvw, Hrefl. auto. }
    set (w2 := step _ _).
    assert (Hw2 : isActive (this w2) = true
                  /\ startTime (this w2) = Some (Transcript.startTime s)
                  /\ endTime (this w2) = Some (Transcript.startTime s)
                  /\ video (host w2) = Some (Transcript.startTime s)).
    { subst w2. destruct en, iid, lst; run_panel; rewrite Emin, Emax; auto. }
    destruct Hw2 as (Ha & Hs2 & He2 & Hv2).
    destruct (Hdue w2 Ha Hs2 He2 Hv2) as [Hp2 Hd2].
    split; [exact Hp2|]. split; [exact Hd2|].
    apply Hdue; rewrite monitorTick_eq; cbn [snd this host]; try assumption.
    rewrite Hd2, Hv2. reflexivity.
Qed.

Lemma shortcuts_within_one_segment_witness :
  snapshot (page (after (after (fresh abc 0%nat (Some 15)) PressLoopStart) PressLoopEnd))
  = LoopState.make true (Some 10) (Some 10).
Proof.
  exact (proj1 (shortcuts_within_one_segment (fresh abc 0%nat (Some 15))
                  (Transcript.mkSegment 1 10 "b" 1) eq_refl)).
Defined.

End GestureFacts.

(** * Scraping the transcript *)

Section ScrapeFacts.
Import JS Transcript Scrape.

Lemma forEachFrom_any : forall elements index segments log log',
  fst (forEachFrom index elements segments log)
  = segments ++ fst (forEachFrom index elements [] log').
Proof.
  induction elements as [|el rest IH]; intros index segments log log'.
  - cbn. now rewrite app_nil_r.
  - cbn [forEachFrom].
    destruct (timestampEl el) as [ts|], (textEl el) as [tx|];
      try apply IH.
    destruct (parseTimestampLog (trimmedOr ts "0:00")) as [seconds warned].
    rewrite (IH _ (segments ++ _) _ []), (IH _ ([] ++ _) _ []).
    cbn [app]. now rewrite <- app_assoc.
Qed.

Lemma forEachFrom_segments elements index segments log :
  fst (forEachFrom index elements segments log)
  = segments ++ fst (forEachFrom index elements [] []).
Proof. apply forEachFrom_any. Qed.

Lemma forEachFrom_cons el rest index :
  fst (forEachFrom index (el :: rest) [] [])
  = match timestampEl el, textEl el with
    | Some ts, Some tx =>
        mkSegment (Z.of_nat index)
          (inject_Z (parseTimestamp (trimmedOr ts "0:00")))
          (trimmedOr tx "") (node el)
        :: fst (forEachFrom (S index) rest [] [])
    | _, _ => fst (forEachFrom (S index) rest [] [])
    end.
Proof.
  cbn [forEachFrom]. unfold parseTimestamp.
  destruct (timestampEl el) as [ts|], (textEl el) as [tx|];
    try (rewrite (forEachFrom_any rest _ [] _ []); reflexivity).
  destruct (parseTimestampLog (trimmedOr ts "0:00")) as [seconds warned].
  now rewrite forEachFrom_segments.
Qed.

Lemma extract_eq elements :
  fst (extractTranscriptSegments elements) = fst (forEachFrom 0 elements [] []).
Proof.
  unfold extractTranscriptSegments. destruct elements as [|el rest]; [reflexivity|].
  now destruct (forEachFrom 0 (el :: rest) [] []).
Qed.

(** Every segment pushed from position [index] on carries the position of
    its element, which is well formed; the positions ascend; and the place
    of a segment in the result is its position less the malformed elements
    before it. *)
Lemma forEachFrom_positions : forall rest index k s,
  nth_error (fst (forEachFrom index rest [] [])) k = Some s ->
  exists j el, Transcript.index s = Z.of_nat (index + j)
               /\ nth_error rest j = Some el
               /\ wellFormed el = true
               /\ element s = node el
               /\ (k + malformedBefore rest j = j)%nat.
Proof.
  induction rest as [|el rest IH]; intros index k s Hk.
  - cbn in Hk. destruct k; discriminate.
  - rewrite forEachFrom_cons in Hk.
    destruct (timestampEl el) as [ts|] eqn:Ets, (textEl el) as [tx|] eqn:Etx.
    + destruct k as [|k].
      * cbn in Hk. injection Hk as <-. exists 0%nat, el. cbn.
        unfold wellFormed. rewrite Ets, Etx, Nat.add_0_r. auto.
      * cbn [nth_error] in Hk.
        destruct (IH (S index) k s Hk) as (j & el' & Hi & Hel & Hwf & Hnode & Hcount).
        exists (S j), el'. rewrite Hi. split; [f_equal; lia|].
        split; [exact Hel|]. split; [exact Hwf|]. split; [exact Hnode|].
        unfold malformedBefore in *. cbn [firstn filter].
        unfold wellFormed at 1. rewrite Ets, Etx. cbn [negb]. lia.
    + destruct (IH (S index) k s Hk) as (j & el' & Hi & Hel & Hwf & Hnode & Hcount).
      exists (S j), el'. rewrite Hi. split; [f_equal; lia|].
      split; [exact Hel|]. split; [exact Hwf|]. split; [exact Hnode|].
      unfold malformedBefore in *. cbn [firstn filter].
      unfold wellFormed at 1. rewrite Ets, Etx. cbn [negb List.length]. lia.
    + destruct (IH (S index) k s Hk) as (j & el' & Hi & Hel & Hwf & Hnode & Hcount).
      exists (S j), el'. rewrite Hi. split; [f_equal; lia|].
      split; [exact Hel|]. split; [exact Hwf|]. split; [exact Hnode|].
      unfold malformedBefore in *. cbn [firstn filter].
      unfold wellFormed at 1. rewrite Ets. cbn [negb List.length]. lia.
    + destruct (IH (S index) k s Hk) as (j & el' & Hi & Hel & Hwf & Hnode & Hcount).
      exists (S j), el'. rewrite Hi. split; [f_equal; lia|].
      split; [exact Hel|]. split; [exact Hwf|]. split; [exact Hnode|].
      unfold malformedBefore in *. cbn [firstn filter].
      unfold wellFormed at 1. rewrite Ets. cbn [negb List.length]. lia.
Qed.

Lemma forEachFrom_length : forall rest index,
  List.length (fst (forEachFrom index rest [] []))
  = List.length (filter wellFormed rest).
Proof.
  induction rest as [|el rest IH]; intros index; [reflexivity|].
  rewrite forEachFrom_cons. cbn [filter]. unfold wellFormed at 1.
  destruct (timestampEl el), (textEl el); cbn [List.length]; now rewrite IH.
Qed.

Lemma malformedBefore_all_well elements n :
  forallb wellFormed elements = true -> malformedBefore elements n = 0%nat.
Proof.
  unfold malformedBefore. revert n.
  induction elements as [|el rest IH]; intros n H; [now destruct n|].
  cbn [forallb] in H. apply andb_prop in H as [Hel Hrest].
  destruct n as [|n]; [reflexivity|]. cbn [firstn filter]. rewrite Hel. cbn [negb].
  now apply IH.
Qed.

Lemma malformedBefore_positive elements j n el :
  nth_error elements j = Some el -> wellFormed el = false -> (j < n)%nat ->
  (1 <= malformedBefore elements n)%nat.
Proof.
  unfold malformedBefore. revert j n.
  induction elements as [|x rest IH]; intros j n Hj Hwf Hjn; [destruct j; discriminate|].
  destruct n as [|n]; [lia|]. cbn [firstn filter]. destruct j as [|j].
  - cbn in Hj. injection Hj as ->. rewrite Hwf. cbn. lia.
  - cbn in Hj. specialize (IH j n Hj Hwf ltac:(lia)).
    destruct (negb (wellFormed x)); cbn [List.length]; lia.
Qed.

(** X13. [extractTranscriptSegments] returns one segment for every element
    that has both its timestamp and its text child, in document order.  The
    [index] of a segment is the position of its element among all elements,
    so its place in the array returned is that position less the number of
    malformed elements before it: place and [index] agree for every segment
    when no element is malformed, and [index] is ahead of the place for
    every segment that follows a malformed element.  No element gives the
    empty array. *)
Theorem extractTranscriptSegments_indices (elements : list SegmentElement) :
  let segs := fst (extractTranscriptSegments elements) in
  List.length segs = List.length (filter wellFormed elements)
  /\ (forall k s, nth_error segs k = Some s ->
        exists j el, Transcript.index s = Z.of_nat j
                     /\ nth_error elements j = Some el
                     /\ wellFormed el = true
                     /\ element s = node el
                     /\ (k + malformedBefore elements j = j)%nat)
  /\ (forallb wellFormed elements = true ->
      forall k s, nth_error segs k = Some s -> Transcript.index s = Z.of_nat k)
  /\ (forall k s j el, nth_error segs k = Some s ->
        nth_error elements j = Some el -> wellFormed el = false ->
        Z.of_nat j < Transcript.index s -> Z.of_nat k < Transcript.index s)
  /\ extractTranscriptSegments [] = ([], [NoSegmentsFound]).
Proof.
  cbv zeta. rewrite extract_eq.
  assert (Hpos : forall k s, nth_error (fst (forEachFrom 0 elements [] [])) k = Some s ->
            exists j el, Transcript.index s = Z.of_nat j
                         /\ nth_error elements j = Some el
                         /\ wellFormed el = true
                         /\ element s = node el
                         /\ (k + malformedBefore elements j = j)%nat).
  { intros k s Hk.
    destruct (forEachFrom_positions elements 0 k s Hk) as (j & el & H).
    exists j, el. exact H. }
  split; [apply forEachFrom_length|]. split; [exact Hpos|]. split; [|split].
  - intros Hall k s Hk. destruct (Hpos k s Hk) as (j & el & -> & _ & _ & _ & Hc).
    rewrite (malformedBefore_all_well elements j Hall) in Hc. f_equal. lia.
  - intros k s j el Hk Hel Hwf Hlt.
    destruct (Hpos k s Hk) as (j' & el' & Hi & _ & _ & _ & Hc).
    rewrite Hi in *.
    pose proof (malformedBefore_positive elements j j' el Hel Hwf ltac:(lia)). lia.
  - reflexivity.
Qed.

Lemma extractTranscriptSegments_indices_witness :
  Transcript.index (mkSegment 1 5 "b" 8) = Z.of_nat 1.
Proof.
  exact (proj1 (proj2 (proj2 (extractTranscriptSegments_indices
           [mkElement (Some (Some "0:01"%string)) (Some (Some "a"%string)) 7;
            mkElement (Some (Some "0:05"%string)) (Some (Some "b"%string)) 8])))
           eq_refl 1%nat (mkSegment 1 5 "b" 8) eq_refl).
Defined.

End ScrapeFacts.

(** * Keyboard shortcuts *)

Section KeyboardFacts.
Import Keyboard.

Lemma keys_are_lower a : toLowerCase (keyOf a) = keyOf a.
Proof. destruct a; reflexivity. Qed.

Lemma keyOf_injective a b : keyOf a = keyOf b -> a = b.
Proof. destruct a, b; intros H; try reflexivity; discriminate H. Qed.

Lemma matchesShortcut_iff event a :
  matchesShortcut event (mkShortcut (keyOf a) true false false) = true
  <-> toLowerCase (eventKey event) = keyOf a
      /\ altKey event = true /\ ctrlKey event = false /\ shiftKey event = false.
Proof.
  unfold matchesShortcut. cbn [key alt ctrl shift]. rewrite keys_are_lower.
  rewrite !andb_true_iff, String.eqb_eq, !Bool.eqb_true_iff. tauto.
Qed.

Lemma table_entries :
  KEYBOARD_SHORTCUTS
  = map (fun a => (a, mkShortcut (keyOf a) true false false))
      [setLoopStart; setLoopEnd; saveSegment; clearLoop; refreshSubtitles].
Proof. reflexivity. Qed.

Lemma firstMatch_iff event (l : list action) a :
  firstMatch event (map (fun a => (a, mkShortcut (keyOf a) true false false)) l) = Some a
  <-> In a l
      /\ toLowerCase (eventKey event) = keyOf a
      /\ altKey event = true /\ ctrlKey event = false /\ shiftKey event = false.
Proof.
  induction l as [|b l IH]; cbn [map firstMatch In].
  - split; [discriminate | tauto].
  - destruct (matchesShortcut event _) eqn:E.
    + apply matchesShortcut_iff in E. split.
      * intros [= <-]. tauto.
      * intros (_ & Hk & _). f_equal. apply keyOf_injective.
        destruct E as [E _]. congruence.
    + rewrite IH. split.
      * tauto.
      * intros ([<-|Hin] & Hrest); [|tauto].
        apply matchesShortcut_iff in Hrest. congruence.
Qed.

(** X19. A key press calls the handler of an action exactly when the
    shortcuts are enabled, the target is not an input, a textarea, a select
    or an editable element, Alt is held without Ctrl and without Shift, and
    the key, in lower case, is the key of that action: so one handler at
    most, none for a key pressed without Alt, and the same one for the
    capital letter as for the small one. *)
Theorem handleKeydown_dispatch (isEnabled : bool) (event : KeyboardEvent) (a : action) :
  handleKeydown isEnabled event = Some a
  <-> isEnabled = true
      /\ isInputElement (target event) = false
      /\ altKey event = true /\ ctrlKey event = false /\ shiftKey event = false
      /\ toLowerCase (eventKey event) = keyOf a.
Proof.
  unfold handleKeydown. rewrite table_entries.
  destruct isEnabled; cbn [negb]; [|split; [discriminate | intros [H _]; discriminate H]].
  destruct (isInputElement (target event)).
  - split; [discriminate | intros (_ & H & _); discriminate H].
  - rewrite firstMatch_iff. split.
    + tauto.
    + intros (_ & _ & H1 & H2 & H3 & H4). repeat split; try assumption.
      destruct a; cbn; tauto.
Qed.

End KeyboardFacts.

(** * Groups and statistics *)

Section DatabaseFacts.
Import Database.

Local Open Scope Z_scope.

Lemma getProp_setProp obj k v k' :
  getProp (setProp obj k v) k' = if String.eqb k k' then Some v else getProp obj k'.
Proof.
  induction obj as [|[k0 v0] rest IH]; cbn [setProp getProp].
  - reflexivity.
  - destruct (String.eqb_spec k0 k) as [->|Hne]; cbn [getProp].
    + destruct (String.eqb_spec k k'); reflexivity.
    + rewrite IH. destruct (String.eqb_spec k0 k') as [->|]; [|reflexivity].
      destruct (String.eqb_spec k k'); [congruence | reflexivity].
Qed.

Lemma total_setProp obj k v :
  total (setProp obj k v)
  = total obj - match getProp obj k with Some n => n | None => 0 end + v.
Proof.
  induction obj as [|[k0 v0] rest IH]; cbn [setProp getProp total fold_right snd].
  - lia.
  - destruct (String.eqb_spec k0 k) as [->|Hne]; cbn [total fold_right snd].
    + lia.
    + fold (total (setProp rest k v)). fold (total rest). rewrite IH. lia.
Qed.

Lemma keys_setProp obj k v :
  NoDup (map fst obj) -> NoDup (map fst (setProp obj k v))
  /\ forall x, In x (map fst (setProp obj k v)) <-> x = k \/ In x (map fst obj).
Proof.
  induction obj as [|[k0 v0] rest IH]; cbn [setProp map fst]; intros Hnd.
  - split; [repeat constructor; intros [] | intros x; cbn; intuition].
  - inversion Hnd as [|? ? Hnotin Hrest]; subst.
    destruct (String.eqb_spec k0 k) as [->|Hne]; cbn [map fst].
    + split; [assumption|]. intros x. cbn. intuition.
    + destruct (IH Hrest) as [Hnd' Hin]. split.
      * constructor; [|assumption]. rewrite Hin. intros [->|H]; [congruence | auto].
      * intros x. cbn. rewrite Hin. intuition.
Qed.

Lemma oldCount obj k :
  match getProp obj k with None | Some 0 => 0 | Some n => n end
  = match getProp obj k with Some n => n | None => 0 end.
Proof. destruct (getProp obj k) as [[| |]|]; reflexivity. Qed.

Lemma countByGroup_spec rows : forall obj,
  NoDup (map fst obj) ->
  total (countByGroup rows obj) = total obj + Z.of_nat (List.length rows)
  /\ NoDup (map fst (countByGroup rows obj))
  /\ forall k, getProp (countByGroup rows obj) k
               = match getProp obj k with
                 | Some n => Some (n + countOf k rows)
                 | None => if countOf k rows =? 0 then None else Some (countOf k rows)
                 end.
Proof.
  induction rows as [|p rest IH]; intros obj Hnd.
  - cbn [countByGroup List.length]. split; [lia|]. split; [assumption|].
    intros k. unfold countOf. cbn. destruct (getProp obj k); [f_equal; lia | reflexivity].
  - cbn [countByGroup]. rewrite oldCount.
    set (old := match getProp obj (groupKey p) with Some n => n | None => 0 end).
    destruct (keys_setProp obj (groupKey p) (old + 1) Hnd) as [Hnd' _].
    destruct (IH _ Hnd') as (Htot & Hkeys & Hget).
    split; [|split].
    + rewrite Htot, total_setProp. fold old. cbn [List.length]. lia.
    + exact Hkeys.
    + intros k. rewrite Hget, getProp_setProp. unfold countOf. cbn [filter].
      destruct (String.eqb_spec (groupKey p) k) as [E|Hne].
      * subst k. cbn [List.length]. subst old.
        destruct (getProp obj (groupKey p)) as [n|].
        -- f_equal. lia.
        -- match goal with |- context [?x =? 0] => destruct (Z.eqb_spec x 0) end;
             [lia | f_equal; lia].
      * reflexivity.
Qed.

Lemma plainKeys_none rows :
  plainKeys rows -> existsb (fun phrase => inherited (groupKey phrase)) rows = false.
Proof.
  intros H. induction H as [|p l Hp _ IH]; [reflexivity|].
  cbn [existsb]. now rewrite Hp, IH.
Qed.

(** X20. When no phrase is counted under a name that a plain object
    inherits, the statistics count every phrase once: the counts of
    [phrasesByGroup] add up to [totalPhrases]; no key appears twice; the
    count under a key is the number of phrases of that group (those without
    a group, or with the empty group id, under ['ungrouped']), and a key with
    no phrase is absent. *)
Theorem getStats_counts (db : DB) :
  plainKeys (phrases db) ->
  exists st, getStats db = Some st
  /\ total (phrasesByGroup st) = totalPhrases st
  /\ totalPhrases st = Z.of_nat (List.length (phrases db))
  /\ totalGroups st = Z.of_nat (List.length (groups db))
  /\ NoDup (map fst (phrasesByGroup st))
  /\ (forall k, getProp (phrasesByGroup st) k
                = if countOf k (phrases db) =? 0 then None
                  else Some (countOf k (phrases db))).
Proof.
  intros Hplain. unfold getStats. rewrite (plainKeys_none _ Hplain).
  eexists. split; [reflexivity|]. cbn [phrasesByGroup totalPhrases totalGroups].
  destruct (countByGroup_spec (phrases db) [] (NoDup_nil _)) as (Htot & Hkeys & Hget).
  split; [rewrite Htot; cbn; lia|]. split; [reflexivity|]. split; [reflexivity|].
  split; [exact Hkeys|].
  intros k. now rewrite Hget.
Qed.

Lemma getStats_counts_witness :
  exists st,
    getStats (mkDB [mkPhrase "a" "v" "u" "t" 0 1 "x" None None (Some "g1"%string) 0 0;
                    mkPhrase "b" "v" "u" "t" 1 2 "y" None None None 0 0;
                    mkPhrase "c" "v" "u" "t" 2 3 "z" None None (Some "g1"%string) 0 0] [])
    = Some st
    /\ getProp (phrasesByGroup st) "g1" = Some 2
    /\ getProp (phrasesByGroup st) "ungrouped" = Some 1
    /\ getProp (phrasesByGroup st) "g2" = None.
Proof.
  destruct (getStats_counts
    (mkDB [mkPhrase "a" "v" "u" "t" 0 1 "x" None None (Some "g1"%string) 0 0;
           mkPhrase "b" "v" "u" "t" 1 2 "y" None None None 0 0;
           mkPhrase "c" "v" "u" "t" 2 3 "z" None None (Some "g1"%string) 0 0] []))
    as (st & Hst & _ & _ & _ & _ & Hget).
  - repeat constructor.
  - exists st. split; [exact Hst|].
    split; [|split]; rewrite Hget; reflexivity.
Defined.

Lemma ungroup_map key rows :
  ungroup key rows = map (fun p => if String.eqb (id p) key then ungrouped p else p) rows.
Proof. reflexivity. Qed.

Lemma fold_ungroup l : forall rows,
  fold_left (fun rows phrase => ungroup (id phrase) rows) l rows
  = map (fun p => if existsb (fun x => String.eqb (id p) (id x)) l then ungrouped p else p)
      rows.
Proof.
  induction l as [|x l IH]; intros rows.
  - cbn. symmetry. apply map_id.
  - cbn [fold_left existsb]. rewrite IH, ungroup_map, map_map.
    apply map_ext. intros p.
    destruct (String.eqb (id p) (id x)); cbn [orb id ungrouped]; [|reflexivity].
    now destruct (existsb _ l).
Qed.

Lemma same_key_same_row {A} (f : A -> string) (l : list A) x y :
  NoDup (map f l) -> In x l -> In y l -> f x = f y -> x = y.
Proof.
  induction l as [|a l IH]; intros Hnd Hx Hy Hf; [contradiction|].
  inversion Hnd as [|? ? Hnotin Hrest]; subst.
  destruct Hx as [->|Hx], Hy as [->|Hy]; auto.
  - exfalso. apply Hnotin. rewrite Hf. now apply in_map.
  - exfalso. apply Hnotin. rewrite <- Hf. now apply in_map.
Qed.

Lemma deleteGroup_rows g rows :
  NoDup (map id rows) ->
  fold_left (fun rows phrase => ungroup (id phrase) rows) (filter (inGroup g) rows) rows
  = map (fun p => if inGroup g p then ungrouped p else p) rows.
Proof.
  intros Hnd. rewrite fold_ungroup. apply map_ext_in. intros p Hp.
  destruct (inGroup g p) eqn:Eg.
  - replace (existsb _ _) with true; [reflexivity|]. symmetry.
    apply existsb_exists. exists p. split; [|apply String.eqb_refl].
    apply filter_In. auto.
  - replace (existsb (fun x => String.eqb (id p) (id x)) (filter (inGroup g) rows))
      with false; [reflexivity|].
    symmetry. apply not_true_is_false. intros H.
    apply existsb_exists in H as (x & Hx & Heq).
    apply filter_In in Hx as [Hx Hgx]. apply String.eqb_eq in Heq.
    assert (p = x) by (apply (same_key_same_row id rows); assumption).
    congruence.
Qed.

Lemma inGroup_iff g p : inGroup g p = true <-> groupId p = Some g.
Proof.
  unfold inGroup. destruct (groupId p) as [g'|]; [|split; discriminate].
  rewrite String.eqb_eq. split; congruence.
Qed.

(** X21. [deleteGroup(g)], on a table whose phrase ids are distinct, takes
    the group away from its phrases and from the table of groups and touches
    nothing else: every phrase that was in the group is the same phrase
    without a group, every other phrase is as before and in its place, no
    phrase is left in the group, and the groups that remain are those with
    another id, in their order. *)
Theorem deleteGroup_ungroups (g : string) (db : DB) :
  NoDup (map id (phrases db)) ->
  let db' := deleteGroup g db in
  phrases db' = map (fun p => if inGroup g p then ungrouped p else p) (phrases db)
  /\ map id (phrases db') = map id (phrases db)
  /\ Forall (fun p => groupId p <> Some g) (phrases db')
  /\ (forall p, In p (phrases db) -> groupId p <> Some g -> In p (phrases db'))
  /\ groups db' = filter (fun r => negb (String.eqb (gid r) g)) (groups db)
  /\ (forall r, In r (groups db') <-> In r (groups db) /\ gid r <> g).
Proof.
  intros Hnd. cbv zeta.
  assert (Hrows : phrases (deleteGroup g db)
                  = map (fun p => if inGroup g p then ungrouped p else p) (phrases db))
    by (unfold deleteGroup; cbn [phrases]; now apply deleteGroup_rows).
  split; [exact Hrows|]. split; [|split; [|split; [|split; [reflexivity|]]]].
  - rewrite Hrows, map_map. apply map_ext. intros p. now destruct (inGroup g p).
  - rewrite Hrows. apply Forall_forall. intros p Hp.
    apply in_map_iff in Hp as (q & <- & _).
    destruct (inGroup g q) eqn:E; [discriminate|].
    intros H. apply inGroup_iff in H. congruence.
  - intros p Hp Hg. rewrite Hrows. apply in_map_iff. exists p. split; [|exact Hp].
    destruct (inGroup g p) eqn:E; [|reflexivity].
    apply inGroup_iff in E. contradiction.
  - intros r. unfold deleteGroup. cbn [groups]. rewrite filter_In, negb_true_iff.
    split; intros [H1 H2]; (split; [assumption|]).
    + intros E. apply String.eqb_neq in H2. congruence.
    + now apply String.eqb_neq.
Qed.

Lemma deleteGroup_ungroups_witness :
  map groupId
    (phrases (deleteGroup "g1"
       (mkDB [mkPhrase "a" "v" "u" "t" 0 1 "x" None None (Some "g1"%string) 0 0;
              mkPhrase "b" "v" "u" "t" 1 2 "y" None None (Some "g2"%string) 0 0] [])))
  = [None; Some "g2"%string].
Proof.
  pose proof (deleteGroup_ungroups "g1"
    (mkDB [mkPhrase "a" "v" "u" "t" 0 1 "x" None None (Some "g1"%string) 0 0;
           mkPhrase "b" "v" "u" "t" 1 2 "y" None None (Some "g2"%string) 0 0] [])) as H.
  cbv zeta in H. rewrite (proj1 (H ltac:(repeat constructor; cbn; intuition discriminate))).
  reflexivity.
Defined.

Lemma lastByOrder_greatest rows :
  match lastByOrder rows with
  | Some r => In r rows /\ Forall (fun x => order x <= order r) rows
  | None => rows = []
  end.
Proof.
  induction rows as [|r rest IH]; [reflexivity|]. cbn [lastByOrder].
  destruct (lastByOrder rest) as [r'|].
  - destruct IH as [Hin Hall]. destruct (Z.ltb_spec (order r) (order r')).
    + split; [now right|]. constructor; [lia | assumption].
    + split; [now left|]. constructor; [lia|].
      eapply Forall_impl; [|exact Hall]. cbn. intros; lia.
  - subst rest. split; [now left|]. constructor; [lia | constructor].
Qed.

(** X22. [createGroup] with an identifier that is not in the table adds the
    group at the end of the table and puts it after all the others: its
    [order] is greater than that of every group there is, and 0 when there is
    none, so orders and identifiers that were distinct stay distinct; the
    phrases are not touched.  With an identifier that is in the table nothing
    is added. *)
Theorem createGroup_orders_last (name' : string) (description' : option string)
    (color' newId : string) (now : Z) (db : DB) :
  let r := createGroup name' description' color' newId now db in
  (In newId (map gid (groups db)) -> r = (None, db))
  /\ (~ In newId (map gid (groups db)) ->
      exists group,
        r = (Some group, mkDB (phrases db) (groups db ++ [group]))
        /\ gid group = newId /\ name group = name'
        /\ Forall (fun x => order x < order group) (groups db)
        /\ (groups db = [] -> order group = 0)
        /\ (NoDup (map order (groups db)) -> NoDup (map order (groups db ++ [group])))
        /\ (NoDup (map gid (groups db)) -> NoDup (map gid (groups db ++ [group])))).
Proof.
  cbv zeta. unfold createGroup.
  destruct (existsb (fun r => String.eqb (gid r) newId) (groups db)) eqn:Ex.
  - split; [reflexivity|]. intros Hnot. exfalso. apply Hnot.
    apply existsb_exists in Ex as (x & Hx & E). apply String.eqb_eq in E.
    rewrite <- E. now apply in_map.
  - split.
    + intros Hin. exfalso. apply in_map_iff in Hin as (x & E & Hx).
      apply not_true_iff_false in Ex. apply Ex, existsb_exists.
      exists x. split; [exact Hx|]. now apply String.eqb_eq.
    + intros Hnot. eexists. split; [reflexivity|]. cbn [gid name order].
      split; [reflexivity|]. split; [reflexivity|].
      assert (Hlt : Forall (fun x => order x <
                      match lastByOrder (groups db) with
                      | Some lastGroup => order lastGroup + 1
                      | None => 0
                      end) (groups db)).
      { pose proof (lastByOrder_greatest (groups db)) as H.
        destruct (lastByOrder (groups db)) as [l|].
        - destruct H as [_ H]. eapply Forall_impl; [|exact H]. cbn. intros; lia.
        - rewrite H. constructor. }
      split; [exact Hlt|]. split; [|split].
      * intros E. now rewrite E.
      * intros Hnd. rewrite map_app. cbn [map order].
        apply NoDup_app; [exact Hnd | repeat constructor; intros [] |].
        intros o Ho [<-|[]]. apply in_map_iff in Ho as (x & E & Hx).
        rewrite Forall_forall in Hlt. specialize (Hlt x Hx). lia.
      * intros Hnd. rewrite map_app. cbn [map gid].
        apply NoDup_app; [exact Hnd | repeat constructor; intros [] |].
        intros o Ho [<-|[]]. contradiction.
Qed.

End DatabaseFacts.
